(** * NN_Playground: the two-layer network engine

    A shallow embedding of [NeuralNetwork] (the hand-rolled engine with step
    introspection) and the properties its specification states.

    The development has these parts.
    - [JsNumber]: the arithmetic the engine uses, as an interface.  Every
      definition of the engine is written against this interface, so the
      structural theorems hold for any interpretation of the operations
      (IEEE doubles included); the analytic ones are proved for the
      instance over the real numbers.
    - [NN]: the engine on array values (lists), one definition per method.
    - [Store]: the same methods over a store of array objects, where an
      array is a reference and copies and in-place updates are explicit.
    - [Random], [Playground], [Datasets], [LossVsWeightChart],
      [DataScatterPlot]: the code around the engine, namely the draws of
      the constructor, the playground's training loop and data generators,
      the loss landscape and the domains of the scatter plot.
    - [Perturbed], [Record], [Client]: the loss as a function of one
      parameter, the arrays of a step record, and the sessions of a caller
      of the engine's public methods.
    - [Partial] and [Double]: two more interpretations of the arithmetic,
      the reals with a value for results that are not finite numbers, and
      IEEE 754 doubles. *)

From Stdlib Require Import Reals Lra Lia PrimFloat FloatAxioms Uint63.
From stdpp Require Import base list option sets.

(** ** Numbers *)

(** The operations on [number] that the engine uses.  [NaN] is what
    arithmetic yields when an operand is [undefined] (an array read past the
    end that the source does not guard). *)
Class JsNumber (N : Type) := {
  num0 : N;                       (* the literal 0 *)
  num1 : N;                       (* the literal 1 *)
  numHalf : N;                    (* the literal 0.5 *)
  numEpsilon : N;                 (* the literal 1e-12 *)
  NaN : N;
  add : N -> N -> N;
  sub : N -> N -> N;
  mul : N -> N -> N;
  div : N -> N -> N;
  neg : N -> N;
  Math_exp : N -> N;
  Math_log : N -> N;
  Math_max : N -> N -> N;
  Math_min : N -> N -> N;
  Math_pow2 : N -> N;             (* Math.pow(x, 2) *)
  ofLength : nat -> N;            (* an array length used as a number *)
}.

Declare Scope num_scope.
Delimit Scope num_scope with num.
Notation "x + y" := (add x y) : num_scope.
Notation "x - y" := (sub x y) : num_scope.
Notation "x * y" := (mul x y) : num_scope.
Notation "x / y" := (div x y) : num_scope.
Notation "- x" := (neg x) : num_scope.

(** The reals.  They have no NaN: the field is filled with 0, and every
    theorem over the reals that reads a target assumes the target has one
    entry per output, so that the field is never consulted
    ([trainStep_numbers] below: on such a target a step computed with a
    value for NaN never meets it).  The reals do not round either: a
    theorem over them is about the operations of the code in exact
    arithmetic. *)
#[export] Instance R_JsNumber : JsNumber R := {|
  num0 := 0%R;
  num1 := 1%R;
  numHalf := (1 / 2)%R;
  numEpsilon := (/ 10 ^ 12)%R;
  NaN := 0%R;
  add := Rplus;
  sub := Rminus;
  mul := Rmult;
  div := Rdiv;
  neg := Ropp;
  Math_exp := exp;
  Math_log := ln;
  Math_max := Rmax;
  Math_min := Rmin;
  Math_pow2 := fun x => (x ^ 2)%R;
  ofLength := INR;
|}.

(** ** Arrays *)

(** [m[i]?.[j]]: [None] is [undefined]. *)
Definition cell {A : Type} (m : list (list A)) (i j : nat) : option A :=
  m !! i ≫= (.!! j).

(** [Array.prototype.reduce] with the index passed to the callback. *)
Fixpoint reduce_from {A B : Type} (f : B -> A -> nat -> B) (k : nat) (acc : B)
    (l : list A) : B :=
  match l with
  | [] => acc
  | x :: l' => reduce_from f (S k) (f acc x k) l'
  end.

Definition reduce {A B : Type} (f : B -> A -> nat -> B) (init : B) (l : list A) : B :=
  reduce_from f 0 init l.

(** ** The engine on array values *)

Inductive TaskType := classification | regression.

#[export] Instance TaskType_eq_dec : EqDecision TaskType.
Proof. solve_decision. Defined.

Module NN.
Section Engine.
Context {N : Type} `{!JsNumber N}.
Local Open Scope num_scope.

Record NeuralNetwork := {
  weights1 : list (list N);
  weights2 : list (list N);
  biases1 : list N;
  biases2 : list N;
  learningRate : N;
  taskType : TaskType;
}.

Record Forward := {
  f_inputs : list N;
  f_hiddenPre : list N;
  f_hiddenPost : list N;
  f_outputPre : list N;
  f_outputPost : list N;
  f_weights1 : list (list N);
  f_weights2 : list (list N);
  f_biases1 : list N;
  f_biases2 : list N;
}.

Record Backward := {
  loss : N;
  outputGradients : list N;
  hiddenGradients : list N;
  weights2Gradients : list (list N);
  weights1Gradients : list (list N);
  biases2Gradients : list N;
  biases1Gradients : list N;
}.

Record After := {
  a_weights1 : list (list N);
  a_weights2 : list (list N);
  a_biases1 : list N;
  a_biases2 : list N;
}.

Record TrainingStep := {
  forward : Forward;
  backward : Backward;
  after : After;
}.

(** The object literal that [getWeights] returns and [setWeights] takes. *)
Record Weights := {
  w_weights1 : list (list N);
  w_weights2 : list (list N);
  w_biases1 : list N;
  w_biases2 : list N;
}.

(** [randomArray] and [randomMatrix], given the numbers that their calls
    of [Math.random] return: one per entry. *)
Definition randomArray (draws : list N) : list N :=
  (fun u => (u - numHalf) * numHalf) <$> draws.

Definition randomMatrix (draws : list (list N)) : list (list N) :=
  randomArray <$> draws.

(** The constructor, given the draws for the four tensors. *)
Definition construct (draws1 draws2 : list (list N)) (drawsB1 drawsB2 : list N)
    (learningRate : N) (taskType : TaskType) : NeuralNetwork :=
  {| weights1 := randomMatrix draws1;
     weights2 := randomMatrix draws2;
     biases1 := randomArray drawsB1;
     biases2 := randomArray drawsB2;
     learningRate := learningRate;
     taskType := taskType |}.

Definition sigmoid (x : N) : N := num1 / (num1 + Math_exp (- x)).

Definition sigmoidDerivative (x : N) : N :=
  let s := sigmoid x in
  s * (num1 - s).

(** The inner loop of [matrixMultiply] for column [j]: [result[j]] after
    the rows [0 .. numRowsMatrix-1] have been visited. *)
Definition column (matrix_a : list (list N)) (vector_b : list N)
    (numRowsMatrix j : nat) : N :=
  foldl (fun acc i =>
           match cell matrix_a i j, vector_b !! i with
           | Some a, Some b => acc + b * a
           | _, _ => acc
           end)
        num0 (seq 0 numRowsMatrix).

Definition matrixMultiply (matrix_a : list (list N)) (vector_b : list N) : list N :=
  match matrix_a with
  | [] => []
  | row0 :: _ =>
      let numRowsMatrix := length matrix_a in
      let numColsMatrix := length row0 in
      if decide (length vector_b ≠ numRowsMatrix)
      then replicate numColsMatrix num0
      else column matrix_a vector_b numRowsMatrix <$> seq 0 numColsMatrix
  end.

Definition vectorAdd (a b : list N) : list N :=
  imap (fun i val => match b !! i with
                     | Some y => val + y
                     | None => num0
                     end) a.

Definition predict (e : NeuralNetwork) (inputs : list N) : list N :=
  let hiddenPre := vectorAdd (matrixMultiply (weights1 e) inputs) (biases1 e) in
  let hiddenPost := sigmoid <$> hiddenPre in
  let outputPre := vectorAdd (matrixMultiply (weights2 e) hiddenPost) (biases2 e) in
  match taskType e with
  | classification => sigmoid <$> outputPre
  | regression => outputPre
  end.

(** The three local arrays of [predict], by name. *)
Definition predict_hiddenPre (e : NeuralNetwork) (inputs : list N) : list N :=
  vectorAdd (matrixMultiply (weights1 e) inputs) (biases1 e).

Definition predict_hiddenPost (e : NeuralNetwork) (inputs : list N) : list N :=
  sigmoid <$> predict_hiddenPre e inputs.

Definition predict_outputPre (e : NeuralNetwork) (inputs : list N) : list N :=
  vectorAdd (matrixMultiply (weights2 e) (predict_hiddenPost e inputs)) (biases2 e).

(** The clamped output [y] of the cross-entropy term. *)
Definition clampOutput (output : N) : N :=
  Math_max numEpsilon (Math_min (num1 - numEpsilon) output).

(** [target[i]], which the source reads unguarded. *)
Definition targetAt (target : list N) (i : nat) : N :=
  default NaN (target !! i).

Definition crossEntropyLoss (outputPost target : list N) : N :=
  reduce (fun sum output i =>
            let t := targetAt target i in
            let y := clampOutput output in
            sum - (t * Math_log y + (num1 - t) * Math_log (num1 - y)))
         num0 outputPost
  / ofLength (length outputPost).


Definition squaredErrorLoss (outputPost target : list N) : N :=
  reduce (fun sum output i =>
            sum + numHalf * Math_pow2 (targetAt target i - output))
         num0 outputPost
  / ofLength (length outputPost).

Definition outputGradientsOf (outputPost target : list N) : list N :=
  imap (fun i output => output - targetAt target i) outputPost.

Definition hiddenErrorValuesOf (e : NeuralNetwork) (outputGradients : list N) : list N :=
  (fun hIdx =>
     foldl (fun errorSum oIdx =>
              match cell (weights2 e) hIdx oIdx, outputGradients !! oIdx with
              | Some w, Some g => errorSum + g * w
              | _, _ => errorSum
              end)
           num0 (seq 0 (length (biases2 e))))
  <$> seq 0 (length (biases1 e)).

Definition hiddenGradientsOf (hiddenErrorValues hiddenPre : list N) : list N :=
  imap (fun i error =>
          match hiddenPre !! i with
          | None => num0
          | Some x => error * sigmoidDerivative x
          end) hiddenErrorValues.

(** [a.map(x => b.map(g => x * g))] *)
Definition outer (a b : list N) : list (list N) :=
  (fun x => (fun g => x * g) <$> b) <$> a.

(** The update loops: [w[i][j] -= rate * grads[i][j]] wherever both cells
    are defined. *)
Definition updateRow (rate : N) (grads : list (list N)) (i : nat) (row : list N) : list N :=
  imap (fun j x =>
          match cell grads i j with
          | Some g => x - rate * g
          | None => x
          end) row.

Definition updateMatrix (rate : N) (w grads : list (list N)) : list (list N) :=
  imap (updateRow rate grads) w.

Definition updateVector (rate : N) (b grads : list N) : list N :=
  imap (fun i x =>
          match grads !! i with
          | Some g => x - rate * g
          | None => x
          end) b.

(** [trainStep] returns the record and leaves the engine updated: the
    second component is the engine after the call. *)
Definition trainStep (e : NeuralNetwork) (inputs target : list N)
    : TrainingStep * NeuralNetwork :=
  let initialWeights1 := weights1 e in
  let initialWeights2 := weights2 e in
  let initialBiases1 := biases1 e in
  let initialBiases2 := biases2 e in
  let hiddenPre := vectorAdd (matrixMultiply (weights1 e) inputs) (biases1 e) in
  let hiddenPost := sigmoid <$> hiddenPre in
  let outputPre := vectorAdd (matrixMultiply (weights2 e) hiddenPost) (biases2 e) in
  let outputPost :=
    match taskType e with
    | classification => sigmoid <$> outputPre
    | regression => outputPre
    end in
  let loss :=
    match taskType e with
    | classification => crossEntropyLoss outputPost target
    | regression => squaredErrorLoss outputPost target
    end in
  let outputGradients := outputGradientsOf outputPost target in
  let hiddenErrorValues := hiddenErrorValuesOf e outputGradients in
  let hiddenGradients := hiddenGradientsOf hiddenErrorValues hiddenPre in
  let weights2Gradients := outer hiddenPost outputGradients in
  let weights1Gradients := outer inputs hiddenGradients in
  let biases2Gradients := outputGradients in
  let biases1Gradients := hiddenGradients in
  let e' := {|
    weights1 := updateMatrix (learningRate e) (weights1 e) weights1Gradients;
    weights2 := updateMatrix (learningRate e) (weights2 e) weights2Gradients;
    biases1 := updateVector (learningRate e) (biases1 e) biases1Gradients;
    biases2 := updateVector (learningRate e) (biases2 e) biases2Gradients;
    learningRate := learningRate e;
    taskType := taskType e;
  |} in
  ({| forward := {|
        f_inputs := inputs;
        f_hiddenPre := hiddenPre;
        f_hiddenPost := hiddenPost;
        f_outputPre := outputPre;
        f_outputPost := outputPost;
        f_weights1 := initialWeights1;
        f_weights2 := initialWeights2;
        f_biases1 := initialBiases1;
        f_biases2 := initialBiases2;
      |};
      backward := {|
        loss := loss;
        outputGradients := outputGradients;
        hiddenGradients := hiddenGradients;
        weights2Gradients := weights2Gradients;
        weights1Gradients := weights1Gradients;
        biases2Gradients := biases2Gradients;
        biases1Gradients := biases1Gradients;
      |};
      after := {|
        a_weights1 := weights1 e';
        a_weights2 := weights2 e';
        a_biases1 := biases1 e';
        a_biases2 := biases2 e';
      |};
   |}, e').

(** The engine after the four update loops have run with the given
    gradients. *)
Definition updated (e : NeuralNetwork) (g1 g2 : list (list N)) (gb1 gb2 : list N)
    : NeuralNetwork :=
  {| weights1 := updateMatrix (learningRate e) (weights1 e) g1;
     weights2 := updateMatrix (learningRate e) (weights2 e) g2;
     biases1 := updateVector (learningRate e) (biases1 e) gb1;
     biases2 := updateVector (learningRate e) (biases2 e) gb2;
     learningRate := learningRate e;
     taskType := taskType e |}.

(** On array values a copy is the value itself. *)
Definition getWeights (e : NeuralNetwork) : Weights :=
  {| w_weights1 := weights1 e; w_weights2 := weights2 e;
     w_biases1 := biases1 e; w_biases2 := biases2 e |}.

Definition setWeights (e : NeuralNetwork) (weights : Weights) : NeuralNetwork :=
  {| weights1 := w_weights1 weights; weights2 := w_weights2 weights;
     biases1 := w_biases1 weights; biases2 := w_biases2 weights;
     learningRate := learningRate e; taskType := taskType e |}.

Definition setLearningRate (e : NeuralNetwork) (rate : N) : NeuralNetwork :=
  {| weights1 := weights1 e; weights2 := weights2 e;
     biases1 := biases1 e; biases2 := biases2 e;
     learningRate := rate; taskType := taskType e |}.

Definition getTaskType (e : NeuralNetwork) : TaskType := taskType e.

(** An engine as the constructor builds it for the given sizes. *)
Record WellFormed (inputSize hiddenSize outputSize : nat) (e : NeuralNetwork) : Prop := {
  wf_inputSize : 0 < inputSize;
  wf_hiddenSize : 0 < hiddenSize;
  wf_outputSize : 0 < outputSize;
  wf_weights1 : length (weights1 e) = inputSize;
  wf_rows1 : Forall (fun row => length row = hiddenSize) (weights1 e);
  wf_weights2 : length (weights2 e) = hiddenSize;
  wf_rows2 : Forall (fun row => length row = outputSize) (weights2 e);
  wf_biases1 : length (biases1 e) = hiddenSize;
  wf_biases2 : length (biases2 e) = outputSize;
}.

End Engine.
Arguments NeuralNetwork N : clear implicits.
Arguments TrainingStep N : clear implicits.
Arguments Forward N : clear implicits.
Arguments Backward N : clear implicits.
Arguments After N : clear implicits.
Arguments Weights N : clear implicits.
End NN.

(** ** The engine over a store of arrays

    A JavaScript array is a reference.  The store maps a location to the
    array object it holds; a [number[][]] is an array of references to its
    rows.  A computation threads the store and fails ([None]) only on a
    reference that holds no object of the expected kind, which typed code
    cannot produce. *)

Module Store.

(** A location is the index of an object in the store. *)
Abbreviation loc := nat (only parsing).

Definition M (S A : Type) : Type := S -> option (A * S).

Definition ret {S A : Type} (a : A) : M S A := fun s => Some (a, s).

Definition bind {S A B : Type} (c : M S A) (k : A -> M S B) : M S B :=
  fun s => match c s with
           | Some (a, s') => k a s'
           | None => None
           end.

Notation "'let*' x := c 'in' k" := (bind c (fun x => k))
  (at level 10, x pattern, c at level 100, k at level 200).

Fixpoint forEach {S A B : Type} (f : A -> M S B) (l : list A) : M S (list B) :=
  match l with
  | [] => ret []
  | x :: l' =>
      let* y := f x in
      let* ys := forEach f l' in
      ret (y :: ys)
  end.

(** [for (let k = 0; k < n; k++) body(k)], for a bound [n] that the body
    leaves as it is. *)
Fixpoint forIndices {S : Type} (body : nat -> M S unit) (ks : list nat) : M S unit :=
  match ks with
  | [] => ret tt
  | k :: ks' =>
      let* _ := body k in
      forIndices body ks'
  end.

Definition forUpTo {S : Type} (n : nat) (body : nat -> M S unit) : M S unit :=
  forIndices body (seq 0 n).

Section Store.
Context {N : Type} `{!JsNumber N}.
Local Open Scope num_scope.

Inductive object :=
  | Numbers (xs : list N)
  | Rows (rs : list loc).

Local Abbreviation store := (list object).

(** The engine object: its tensor fields hold references. *)
Record NeuralNetwork := {
  weights1 : loc;
  weights2 : loc;
  biases1 : loc;
  biases2 : loc;
  learningRate : N;
  taskType : TaskType;
}.

(** The object literal that [getWeights] returns and [setWeights] takes. *)
Record Weights := {
  w_weights1 : loc;
  w_weights2 : loc;
  w_biases1 : loc;
  w_biases2 : loc;
}.

Record Forward := {
  f_inputs : loc;
  f_hiddenPre : loc;
  f_hiddenPost : loc;
  f_outputPre : loc;
  f_outputPost : loc;
  f_weights1 : loc;
  f_weights2 : loc;
  f_biases1 : loc;
  f_biases2 : loc;
}.

Record Backward := {
  loss : N;
  outputGradients : loc;
  hiddenGradients : loc;
  weights2Gradients : loc;
  weights1Gradients : loc;
  biases2Gradients : loc;
  biases1Gradients : loc;
}.

Record After := {
  a_weights1 : loc;
  a_weights2 : loc;
  a_biases1 : loc;
  a_biases2 : loc;
}.

Record TrainingStep := {
  forward : Forward;
  backward : Backward;
  after : After;
}.

(** *** Reading the store *)

Definition numbersAt (l : loc) (s : store) : option (list N) :=
  match s !! l with
  | Some (Numbers xs) => Some xs
  | _ => None
  end.

Definition rowsAt (l : loc) (s : store) : option (list loc) :=
  match s !! l with
  | Some (Rows rs) => Some rs
  | _ => None
  end.

(** [a[i]], [a.length], [m[i]] and [m[i]?.[j]]. *)
Definition itemAt (a : loc) (i : nat) (s : store) : option N :=
  xs ← numbersAt a s; xs !! i.

Definition lengthAt (a : loc) (s : store) : option nat :=
  length <$> numbersAt a s.

Definition rowAt (m : loc) (i : nat) (s : store) : option loc :=
  rs ← rowsAt m s; rs !! i.

Definition cellAt (m : loc) (i j : nat) (s : store) : option N :=
  r ← rowAt m i s; itemAt r j s.

(** The values of a [number[][]]. *)
Definition matrixAt (m : loc) (s : store) : option (list (list N)) :=
  rs ← rowsAt m s; mapM (fun r => numbersAt r s) rs.

(** The engine's four references, as a [Weights] object. *)
Definition refs (e : NeuralNetwork) : Weights :=
  {| w_weights1 := weights1 e; w_weights2 := weights2 e;
     w_biases1 := biases1 e; w_biases2 := biases2 e |}.

(** The values that the engine's fields refer to. *)
Definition engineAt (e : NeuralNetwork) (s : store) : option (NN.NeuralNetwork N) :=
  w1 ← matrixAt (weights1 e) s;
  w2 ← matrixAt (weights2 e) s;
  b1 ← numbersAt (biases1 e) s;
  b2 ← numbersAt (biases2 e) s;
  Some {| NN.weights1 := w1; NN.weights2 := w2;
          NN.biases1 := b1; NN.biases2 := b2;
          NN.learningRate := learningRate e; NN.taskType := taskType e |}.

(** *** Primitive operations *)

Definition read {A : Type} (f : store -> option A) : M store A :=
  fun s => match f s with
           | Some a => Some (a, s)
           | None => None
           end.

(** An expression whose value may be [undefined]. *)
Definition peek {A : Type} (f : store -> option A) : M store (option A) :=
  fun s => Some (f s, s).

(** A new array object; its location is one no earlier object has. *)
Definition alloc (o : object) : M store loc :=
  fun s => Some (length s, s ++ [o]).

(** Writing into the array at [l]: its object is replaced, its identity
    kept. *)
Definition assign (l : loc) (o : object) : M store unit :=
  fun s => if decide (l < length s) then Some (tt, <[l:=o]> s) else None.

(** [a[i] = v], for an index within the array. *)
Definition setItem (a : loc) (i : nat) (v : N) : M store unit :=
  let* xs := read (numbersAt a) in
  assign a (Numbers (<[i:=v]> xs)).

(** [[...a]] *)
Definition copyArray (a : loc) : M store loc :=
  let* xs := read (numbersAt a) in
  alloc (Numbers xs).

(** [m.map(row => [...row])] *)
Definition copyMatrix (m : loc) : M store loc :=
  let* rs := read (rowsAt m) in
  let* rs' := forEach copyArray rs in
  alloc (Rows rs').

(** A nested array built by two [map]s: every row is a new array. *)
Definition newMatrix (xss : list (list N)) : M store loc :=
  let* rs := forEach (fun xs => alloc (Numbers xs)) xss in
  alloc (Rows rs).

(** *** Methods *)

(** The constructor, given the draws of [Math.random]: it builds the four
    tensors as new arrays. *)
Definition construct (draws1 draws2 : list (list N)) (drawsB1 drawsB2 : list N)
    (learningRate : N) (taskType : TaskType) : M store NeuralNetwork :=
  let* w1 := newMatrix (NN.randomMatrix draws1) in
  let* w2 := newMatrix (NN.randomMatrix draws2) in
  let* b1 := alloc (Numbers (NN.randomArray drawsB1)) in
  let* b2 := alloc (Numbers (NN.randomArray drawsB2)) in
  ret {| weights1 := w1; weights2 := w2; biases1 := b1; biases2 := b2;
         learningRate := learningRate; taskType := taskType |}.

Definition getWeights (e : NeuralNetwork) : M store Weights :=
  let* w1 := copyMatrix (weights1 e) in
  let* w2 := copyMatrix (weights2 e) in
  let* b1 := copyArray (biases1 e) in
  let* b2 := copyArray (biases2 e) in
  ret {| w_weights1 := w1; w_weights2 := w2; w_biases1 := b1; w_biases2 := b2 |}.

(** [setWeights] reassigns the four fields; the result is the engine
    object after the call. *)
Definition setWeights (e : NeuralNetwork) (weights : Weights) : M store NeuralNetwork :=
  let* w1 := copyMatrix (w_weights1 weights) in
  let* w2 := copyMatrix (w_weights2 weights) in
  let* b1 := copyArray (w_biases1 weights) in
  let* b2 := copyArray (w_biases2 weights) in
  ret {| weights1 := w1; weights2 := w2; biases1 := b1; biases2 := b2;
         learningRate := learningRate e; taskType := taskType e |}.

(** [predict] writes nothing and returns a new array. *)
Definition predict (e : NeuralNetwork) (inputs : loc) : M store loc :=
  let* ev := read (engineAt e) in
  let* xs := read (numbersAt inputs) in
  alloc (Numbers (NN.predict ev xs)).

(** The loops
    [for i < w.length: for j < w[i].length:
       if (w[i]?.[j] !== undefined && grads[i]?.[j] !== undefined)
         w[i][j] -= rate * grads[i][j]]
    on the engine's matrix [w], cell by cell and in place. *)
Definition updateMatrix (rate : N) (w grads : loc) : M store unit :=
  let* rs := read (rowsAt w) in
  forUpTo (length rs) (fun i =>
    let* r := read (rowAt w i) in
    let* n := read (lengthAt r) in
    forUpTo n (fun j =>
      let* x := peek (cellAt w i j) in
      let* g := peek (cellAt grads i j) in
      match x, g with
      | Some x, Some g => setItem r j (x - rate * g)
      | _, _ => ret tt
      end)).

(** [for i < b.length:
       if (b[i] !== undefined && grads[i] !== undefined) b[i] -= rate * grads[i]] *)
Definition updateVector (rate : N) (b grads : loc) : M store unit :=
  let* n := read (lengthAt b) in
  forUpTo n (fun i =>
    let* x := peek (itemAt b i) in
    let* g := peek (itemAt grads i) in
    match x, g with
    | Some x, Some g => setItem b i (x - rate * g)
    | _, _ => ret tt
    end).

Definition trainStep (e : NeuralNetwork) (inputs target : loc) : M store TrainingStep :=
  let* initialWeights1 := copyMatrix (weights1 e) in
  let* initialWeights2 := copyMatrix (weights2 e) in
  let* initialBiases1 := copyArray (biases1 e) in
  let* initialBiases2 := copyArray (biases2 e) in
  let* ev := read (engineAt e) in
  let* inputsV := read (numbersAt inputs) in
  let* targetV := read (numbersAt target) in
  let hiddenPreV :=
    NN.vectorAdd (NN.matrixMultiply (NN.weights1 ev) inputsV) (NN.biases1 ev) in
  let* hiddenPre := alloc (Numbers hiddenPreV) in
  let hiddenPostV := NN.sigmoid <$> hiddenPreV in
  let* hiddenPost := alloc (Numbers hiddenPostV) in
  let outputPreV :=
    NN.vectorAdd (NN.matrixMultiply (NN.weights2 ev) hiddenPostV) (NN.biases2 ev) in
  let* outputPre := alloc (Numbers outputPreV) in
  let* outputPost :=
    match taskType e with
    | classification => alloc (Numbers (NN.sigmoid <$> outputPreV))
    | regression => copyArray outputPre
    end in
  let* outputPostV := read (numbersAt outputPost) in
  let loss :=
    match taskType e with
    | classification => NN.crossEntropyLoss outputPostV targetV
    | regression => NN.squaredErrorLoss outputPostV targetV
    end in
  let outputGradientsV := NN.outputGradientsOf outputPostV targetV in
  let* outputGradients := alloc (Numbers outputGradientsV) in
  let hiddenErrorValues := NN.hiddenErrorValuesOf ev outputGradientsV in
  let hiddenGradientsV := NN.hiddenGradientsOf hiddenErrorValues hiddenPreV in
  let* hiddenGradients := alloc (Numbers hiddenGradientsV) in
  let* weights2Gradients := newMatrix (NN.outer hiddenPostV outputGradientsV) in
  let* weights1Gradients := newMatrix (NN.outer inputsV hiddenGradientsV) in
  let* biases2Gradients := copyArray outputGradients in
  let* biases1Gradients := copyArray hiddenGradients in
  let* _ := updateMatrix (learningRate e) (weights2 e) weights2Gradients in
  let* _ := updateMatrix (learningRate e) (weights1 e) weights1Gradients in
  let* _ := updateVector (learningRate e) (biases2 e) biases2Gradients in
  let* _ := updateVector (learningRate e) (biases1 e) biases1Gradients in
  let* afterWeights1 := copyMatrix (weights1 e) in
  let* afterWeights2 := copyMatrix (weights2 e) in
  let* afterBiases1 := copyArray (biases1 e) in
  let* afterBiases2 := copyArray (biases2 e) in
  ret {| forward := {|
           f_inputs := inputs;
           f_hiddenPre := hiddenPre;
           f_hiddenPost := hiddenPost;
           f_outputPre := outputPre;
           f_outputPost := outputPost;
           f_weights1 := initialWeights1;
           f_weights2 := initialWeights2;
           f_biases1 := initialBiases1;
           f_biases2 := initialBiases2;
         |};
         backward := {|
           loss := loss;
           outputGradients := outputGradients;
           hiddenGradients := hiddenGradients;
           weights2Gradients := weights2Gradients;
           weights1Gradients := weights1Gradients;
           biases2Gradients := biases2Gradients;
           biases1Gradients := biases1Gradients;
         |};
         after := {|
           a_weights1 := afterWeights1;
           a_weights2 := afterWeights2;
           a_biases1 := afterBiases1;
           a_biases2 := afterBiases2;
         |};
      |}.

(** *** What a caller can observe *)

Definition weightsAt (w : Weights) (s : store) : option (NN.Weights N) :=
  w1 ← matrixAt (w_weights1 w) s;
  w2 ← matrixAt (w_weights2 w) s;
  b1 ← numbersAt (w_biases1 w) s;
  b2 ← numbersAt (w_biases2 w) s;
  Some {| NN.w_weights1 := w1; NN.w_weights2 := w2;
          NN.w_biases1 := b1; NN.w_biases2 := b2 |}.

(** The values of the array that [predict] returns. *)
Definition predictAt (e : NeuralNetwork) (inputs : loc) (s : store) : option (list N) :=
  match predict e inputs s with
  | Some (l, s') => numbersAt l s'
  | None => None
  end.

(** The values of a step record. *)
Definition stepAt (r : TrainingStep) (s : store) : option (NN.TrainingStep N) :=
  inputs ← numbersAt (f_inputs (forward r)) s;
  hiddenPre ← numbersAt (f_hiddenPre (forward r)) s;
  hiddenPost ← numbersAt (f_hiddenPost (forward r)) s;
  outputPre ← numbersAt (f_outputPre (forward r)) s;
  outputPost ← numbersAt (f_outputPost (forward r)) s;
  fw1 ← matrixAt (f_weights1 (forward r)) s;
  fw2 ← matrixAt (f_weights2 (forward r)) s;
  fb1 ← numbersAt (f_biases1 (forward r)) s;
  fb2 ← numbersAt (f_biases2 (forward r)) s;
  og ← numbersAt (outputGradients (backward r)) s;
  hg ← numbersAt (hiddenGradients (backward r)) s;
  w2g ← matrixAt (weights2Gradients (backward r)) s;
  w1g ← matrixAt (weights1Gradients (backward r)) s;
  b2g ← numbersAt (biases2Gradients (backward r)) s;
  b1g ← numbersAt (biases1Gradients (backward r)) s;
  aw1 ← matrixAt (a_weights1 (after r)) s;
  aw2 ← matrixAt (a_weights2 (after r)) s;
  ab1 ← numbersAt (a_biases1 (after r)) s;
  ab2 ← numbersAt (a_biases2 (after r)) s;
  Some {|
    NN.forward := {|
      NN.f_inputs := inputs;
      NN.f_hiddenPre := hiddenPre;
      NN.f_hiddenPost := hiddenPost;
      NN.f_outputPre := outputPre;
      NN.f_outputPost := outputPost;
      NN.f_weights1 := fw1;
      NN.f_weights2 := fw2;
      NN.f_biases1 := fb1;
      NN.f_biases2 := fb2;
    |};
    NN.backward := {|
      NN.loss := loss (backward r);
      NN.outputGradients := og;
      NN.hiddenGradients := hg;
      NN.weights2Gradients := w2g;
      NN.weights1Gradients := w1g;
      NN.biases2Gradients := b2g;
      NN.biases1Gradients := b1g;
    |};
    NN.after := {|
      NN.a_weights1 := aw1;
      NN.a_weights2 := aw2;
      NN.a_biases1 := ab1;
      NN.a_biases2 := ab2;
    |};
  |}.

(** The arrays reachable from a [Weights] object: the four tensors and the
    rows of the two matrices.  Mutating the object is writing one of them. *)
Definition rowsOf (l : loc) (s : store) : list loc := default [] (rowsAt l s).

Definition reachable (w : Weights) (s : store) : list loc :=
  [w_weights1 w; w_weights2 w; w_biases1 w; w_biases2 w]
  ++ rowsOf (w_weights1 w) s ++ rowsOf (w_weights2 w) s.

(** The engine's tensors are arrays of the right kind and no two of them
    are the same array: what the constructor and [setWeights] establish and
    [trainStep] keeps. *)
Definition Owned (e : NeuralNetwork) (s : store) : Prop :=
  is_Some (engineAt e s) ∧ NoDup (reachable (refs e) s).

(** *** What an operation leaves in the store *)

(** [c] runs from [s], and its result and final store satisfy [Q]. *)
Definition wp {A : Type} (c : M store A) (s : store) (Q : A -> store -> Prop) : Prop :=
  exists a s', c s = Some (a, s') /\ Q a s'.

(** [s'] is [s] except at the locations in [L]. *)
Definition SameOff (L : list loc) (s s' : store) : Prop :=
  length s' = length s /\ forall l, l ∉ L -> s' !! l = s !! l.

(** From [s] to [s'] objects were only added, among them the array [l]
    with values [xs]. *)
Definition NewNumbers (s s' : store) (l : loc) (xs : list N) : Prop :=
  s `prefix_of` s' /\ length s <= l < length s' /\ numbersAt l s' = Some xs.

(** The same for a matrix [m] and its rows. *)
Definition NewMatrix (s s' : store) (m : loc) (xss : list (list N)) : Prop :=
  s `prefix_of` s' /\ length s <= m < length s'
  /\ Forall (fun r => length s <= r < length s') (rowsOf m s')
  /\ NoDup (rowsOf m s')
  /\ matrixAt m s' = Some xss.

(** The same for the four tensors of a [Weights] object. *)
Definition NewWeights (s s' : store) (w : Weights) (wv : NN.Weights N) : Prop :=
  s `prefix_of` s'
  /\ weightsAt w s' = Some wv
  /\ Forall (fun l => length s <= l < length s') (reachable w s')
  /\ NoDup (reachable w s').

(** An array at a location from [n] on: one that the running call has
    allocated, when [n] is the size of the store at its start. *)
Definition FreshNumbers (n : nat) (s : store) (l : loc) (xs : list N) : Prop :=
  n <= l /\ numbersAt l s = Some xs.

Definition FreshMatrix (n : nat) (s : store) (m : loc) (xss : list (list N)) : Prop :=
  n <= m /\ Forall (fun r => n <= r) (rowsOf m s) /\ matrixAt m s = Some xss.

End Store.
Arguments object N : clear implicits.
Abbreviation store N := (list (object N)) (only parsing).
Arguments NeuralNetwork N : clear implicits.
Arguments TrainingStep N : clear implicits.
End Store.

(** ** The formulas of the specification *)

Module Spec.
Section Sums.
Context {N : Type} `{!JsNumber N}.
Local Open Scope num_scope.

(** The sum of [f 0 .. f (n-1)], accumulated from 0 in index order. *)
Fixpoint sum_upto (n : nat) (f : nat -> N) : N :=
  match n with
  | 0 => num0
  | S k => sum_upto k f + f k
  end.

(** [v[i]] and [m[i][j]] for indices in range. *)
Definition item (v : list N) (i : nat) : N := default num0 (v !! i).

Definition entry (m : list (list N)) (i j : nat) : N := default num0 (cell m i j).

(** [after] is [before] minus [rate] times [grads], entry by entry, over
    an [n] by [m] matrix or a vector of [n] entries. *)
Definition UpdatedMatrix (rate : N) (n m : nat) (before grads after : list (list N))
    : Prop :=
  forall i j, i < n -> j < m ->
    exists x g, cell before i j = Some x /\ cell grads i j = Some g
                /\ cell after i j = Some (x - rate * g).

Definition UpdatedVector (rate : N) (n : nat) (before grads after : list N) : Prop :=
  forall i, i < n ->
    exists x g, before !! i = Some x /\ grads !! i = Some g
                /\ after !! i = Some (x - rate * g).

(** The update rule on the record [r] of a step and the engine values
    [e'] after it: [after = forward - rate * gradient] for the four
    tensors, which keep their sizes, and [e'] holds the [after] section. *)
Definition UpdateRule (inputSize hiddenSize outputSize : nat) (rate : N)
    (r : NN.TrainingStep N) (e' : NN.NeuralNetwork N) : Prop :=
  UpdatedMatrix rate inputSize hiddenSize
    (NN.f_weights1 (NN.forward r)) (NN.weights1Gradients (NN.backward r))
    (NN.a_weights1 (NN.after r))
  /\ UpdatedMatrix rate hiddenSize outputSize
    (NN.f_weights2 (NN.forward r)) (NN.weights2Gradients (NN.backward r))
    (NN.a_weights2 (NN.after r))
  /\ UpdatedVector rate hiddenSize
    (NN.f_biases1 (NN.forward r)) (NN.biases1Gradients (NN.backward r))
    (NN.a_biases1 (NN.after r))
  /\ UpdatedVector rate outputSize
    (NN.f_biases2 (NN.forward r)) (NN.biases2Gradients (NN.backward r))
    (NN.a_biases2 (NN.after r))
  /\ (length (NN.a_weights1 (NN.after r)) = inputSize
      /\ length (NN.a_weights2 (NN.after r)) = hiddenSize
      /\ length (NN.a_biases1 (NN.after r)) = hiddenSize
      /\ length (NN.a_biases2 (NN.after r)) = outputSize)
  /\ (NN.weights1 e' = NN.a_weights1 (NN.after r)
      /\ NN.weights2 e' = NN.a_weights2 (NN.after r)
      /\ NN.biases1 e' = NN.a_biases1 (NN.after r)
      /\ NN.biases2 e' = NN.a_biases2 (NN.after r)).

(** The gradients of the record [r] of a step taken from the engine
    values [e]: the hidden gradient back-propagated through [weights2], the
    two outer products, and the bias gradients. *)
Definition Backpropagated (inputSize hiddenSize outputSize : nat)
    (e : NN.NeuralNetwork N) (r : NN.TrainingStep N) : Prop :=
  let f := NN.forward r in
  let b := NN.backward r in
  (forall h, h < hiddenSize ->
     NN.hiddenGradients b !! h
     = Some (sum_upto outputSize
               (fun o => item (NN.outputGradients b) o * entry (NN.weights2 e) h o)
             * (NN.sigmoid (item (NN.f_hiddenPre f) h)
                * (num1 - NN.sigmoid (item (NN.f_hiddenPre f) h)))))
  /\ (forall h o, h < hiddenSize -> o < outputSize ->
        cell (NN.weights2Gradients b) h o
        = Some (item (NN.f_hiddenPost f) h * item (NN.outputGradients b) o))
  /\ (forall i h, i < inputSize -> h < hiddenSize ->
        cell (NN.weights1Gradients b) i h
        = Some (item (NN.f_inputs f) i * item (NN.hiddenGradients b) h))
  /\ NN.biases2Gradients b = NN.outputGradients b
  /\ NN.biases1Gradients b = NN.hiddenGradients b.

(** Zero substituted for the missing entries of a short input: [predict]
    would answer as for the input padded with zeros to [inputSize]. *)
Definition ZeroPadded (inputSize : nat) (e : NN.NeuralNetwork N) (inputs : list N)
    : Prop :=
  NN.predict e inputs
  = NN.predict e (inputs ++ replicate (inputSize - length inputs) num0).

End Sums.

Local Open Scope R_scope.

Definition epsilon : R := / 10 ^ 12.

Definition sigmoid (x : R) : R := 1 / (1 + exp (- x)).

(** [hiddenPre = weights1ᵗ · inputs + biases1], contracted over the input
    index. *)
Definition hiddenPre (inputSize : nat) (e : NN.NeuralNetwork R) (inputs : list R)
    (h : nat) : R :=
  sum_upto inputSize (fun i => entry (NN.weights1 e) i h * item inputs i)
  + item (NN.biases1 e) h.

Definition hiddenPost (inputSize : nat) (e : NN.NeuralNetwork R) (inputs : list R)
    (h : nat) : R :=
  sigmoid (hiddenPre inputSize e inputs h).

(** [outputPre = weights2ᵗ · hiddenPost + biases2]. *)
Definition outputPre (inputSize hiddenSize : nat) (e : NN.NeuralNetwork R)
    (inputs : list R) (o : nat) : R :=
  sum_upto hiddenSize
           (fun h => entry (NN.weights2 e) h o * hiddenPost inputSize e inputs h)
  + item (NN.biases2 e) o.

Definition outputPost (inputSize hiddenSize : nat) (e : NN.NeuralNetwork R)
    (inputs : list R) (o : nat) : R :=
  match NN.taskType e with
  | classification => sigmoid (outputPre inputSize hiddenSize e inputs o)
  | regression => outputPre inputSize hiddenSize e inputs o
  end.

Definition predict (inputSize hiddenSize outputSize : nat) (e : NN.NeuralNetwork R)
    (inputs : list R) : list R :=
  outputPost inputSize hiddenSize e inputs <$> seq 0 outputSize.

(** [clamp] restricts a value to the interval from [epsilon] to
    [1 - epsilon]. *)
Definition clamp (y : R) : R :=
  if Rlt_dec y epsilon then epsilon
  else if Rlt_dec (1 - epsilon) y then 1 - epsilon
  else y.

Definition total (l : list R) : R := foldr Rplus 0 l.

Definition mean (l : list R) : R := total l / INR (length l).

Definition loss (task : TaskType) (target outputPost : list R) : R :=
  match task with
  | classification =>
      - mean (zip_with (fun t y => t * ln (clamp y) + (1 - t) * ln (clamp (1 - y)))
                       target outputPost)
  | regression =>
      mean (zip_with (fun t y => (1 / 2) * (t - y) ^ 2) target outputPost)
  end.

End Spec.

(** ** Scenario C: a single deterministic step

    All weights and biases 0.1, two inputs, one hidden unit, one output,
    classification, the constructor's default learning rate. *)

Module ScenarioC.
Local Open Scope R_scope.

Definition engine : NN.NeuralNetwork R := {|
  NN.weights1 := [[1 / 10]; [1 / 10]];
  NN.weights2 := [[1 / 10]];
  NN.biases1 := [1 / 10];
  NN.biases2 := [1 / 10];
  NN.learningRate := 1 / 10;
  NN.taskType := classification;
|}.

Definition inputs : list R := [1; 0].

Definition target : list R := [1].

(** The same engine in a store, with the caller's input and target arrays. *)
Definition store : Store.store R :=
  [ Store.Numbers [1 / 10]; Store.Numbers [1 / 10]; Store.Rows [0%nat; 1%nat];
    Store.Numbers [1 / 10]; Store.Rows [3%nat];
    Store.Numbers [1 / 10]; Store.Numbers [1 / 10];
    Store.Numbers inputs; Store.Numbers target ].

Definition engineRef : Store.NeuralNetwork R := {|
  Store.weights1 := 2%nat;
  Store.weights2 := 4%nat;
  Store.biases1 := 5%nat;
  Store.biases2 := 6%nat;
  Store.learningRate := 1 / 10;
  Store.taskType := classification;
|}.

Definition inputsRef : Store.loc := 7%nat.

Definition targetRef : Store.loc := 8%nat.

End ScenarioC.

(** ** A short input

    A regression engine with two inputs whose first weight is 1, and an
    input array with one entry. *)

Module ScenarioShort.
Local Open Scope R_scope.

Definition engine : NN.NeuralNetwork R := {|
  NN.weights1 := [[1]; [0]];
  NN.weights2 := [[1]];
  NN.biases1 := [0];
  NN.biases2 := [0];
  NN.learningRate := 1 / 10;
  NN.taskType := regression;
|}.

Definition inputs : list R := [1].

End ScenarioShort.

(** ** The loss, term by term *)

(** The loss as [trainStep] computes it from the target and [outputPost]:
    the second logarithm is taken of [1 - clamp y]. *)
Module LossFormula.
Local Open Scope R_scope.

Definition crossEntropyTerm (t y : R) : R :=
  t * ln (Spec.clamp y) + (1 - t) * ln (1 - Spec.clamp y).

Definition squaredErrorTerm (t y : R) : R := (1 / 2) * (t - y) ^ 2.

Definition loss (task : TaskType) (target outputPost : list R) : R :=
  match task with
  | classification => - Spec.mean (zip_with crossEntropyTerm target outputPost)
  | regression => Spec.mean (zip_with squaredErrorTerm target outputPost)
  end.

End LossFormula.

(** ** Numbers that may be undefined *)

(** The reals with one more value, [None], for a result that is not a
    finite number: [NaN], which is what reading a missing array entry
    gives and what every operation on it gives again, and the results of
    the operations where they have no finite value (a division by 0, the
    logarithm of a number that is not positive).  The model does not tell
    [NaN] from the infinities, and it does not round. *)
Module Partial.
Local Open Scope R_scope.





(** Arrays and an engine of finite numbers. *)
Definition numbers (l : list R) : list (option R) := Some <$> l.

Definition matrix (m : list (list R)) : list (list (option R)) := numbers <$> m.

Definition engine (e : NN.NeuralNetwork R) : NN.NeuralNetwork (option R) :=
  {| NN.weights1 := matrix (NN.weights1 e);
     NN.weights2 := matrix (NN.weights2 e);
     NN.biases1 := numbers (NN.biases1 e);
     NN.biases2 := numbers (NN.biases2 e);
     NN.learningRate := Some (NN.learningRate e);
     NN.taskType := NN.taskType e |}.

(** A step record of finite numbers. *)
Definition step (r : NN.TrainingStep R) : NN.TrainingStep (option R) :=
  {| NN.forward := {|
       NN.f_inputs := numbers (NN.f_inputs (NN.forward r));
       NN.f_hiddenPre := numbers (NN.f_hiddenPre (NN.forward r));
       NN.f_hiddenPost := numbers (NN.f_hiddenPost (NN.forward r));
       NN.f_outputPre := numbers (NN.f_outputPre (NN.forward r));
       NN.f_outputPost := numbers (NN.f_outputPost (NN.forward r));
       NN.f_weights1 := matrix (NN.f_weights1 (NN.forward r));
       NN.f_weights2 := matrix (NN.f_weights2 (NN.forward r));
       NN.f_biases1 := numbers (NN.f_biases1 (NN.forward r));
       NN.f_biases2 := numbers (NN.f_biases2 (NN.forward r)) |};
     NN.backward := {|
       NN.loss := Some (NN.loss (NN.backward r));
       NN.outputGradients := numbers (NN.outputGradients (NN.backward r));
       NN.hiddenGradients := numbers (NN.hiddenGradients (NN.backward r));
       NN.weights2Gradients := matrix (NN.weights2Gradients (NN.backward r));
       NN.weights1Gradients := matrix (NN.weights1Gradients (NN.backward r));
       NN.biases2Gradients := numbers (NN.biases2Gradients (NN.backward r));
       NN.biases1Gradients := numbers (NN.biases1Gradients (NN.backward r)) |};
     NN.after := {|
       NN.a_weights1 := matrix (NN.a_weights1 (NN.after r));
       NN.a_weights2 := matrix (NN.a_weights2 (NN.after r));
       NN.a_biases1 := numbers (NN.a_biases1 (NN.after r));
       NN.a_biases2 := numbers (NN.a_biases2 (NN.after r)) |} |}.

End Partial.


(** ** Doubles *)

(** The arithmetic of the engine on IEEE 754 binary64 numbers, which are
    the numbers of JavaScript.  [Math.exp], [Math.log] and [Math.pow] are
    approximations that the language leaves to the implementation: they
    are parameters. *)
Module Double.




End Double.

(** Three classification engines in doubles, with finite parameters, and
    an input for each: one with weights 0.5; one whose output unit has the
    bias 100, so that its output is the sigmoid of 100; and one with two
    inputs whose weights are 1e308 and -1e308. *)
Module ScenarioDouble.

Definition engine : NN.NeuralNetwork float :=
  {| NN.weights1 := [[0.5%float]];
     NN.weights2 := [[0.5%float]];
     NN.biases1 := [0%float];
     NN.biases2 := [0%float];
     NN.learningRate := 0.5%float;
     NN.taskType := classification |}.

Definition inputs : list float := [1%float].





Definition target : list float := [1%float].

End ScenarioDouble.

(** ** Math.random *)

Module Random.
Section Random.
Context {N : Type} `{!JsNumber N}.

(** [rand k] is the number that the call number [k] of [Math.random]
    returns.  An array of [n] entries built from call [k] on takes the
    calls [k .. k+n-1], a matrix takes them row by row. *)
Definition take (rand : nat -> N) (k n : nat) : list N := rand <$> seq k n.

Definition takeRows (rand : nat -> N) (k rows cols : nat) : list (list N) :=
  (fun i => take rand (k + i * cols) cols) <$> seq 0 rows.

(** [new NeuralNetwork(inputSize, hiddenSize, outputSize, learningRate,
    taskType)]: the four tensors are built in the order [weights1],
    [weights2], [biases1], [biases2]. *)
Definition newNeuralNetwork (rand : nat -> N) (inputSize hiddenSize outputSize : nat)
    (learningRate : N) (taskType : TaskType) : NN.NeuralNetwork N :=
  let k2 := inputSize * hiddenSize in
  let k3 := k2 + hiddenSize * outputSize in
  let k4 := k3 + hiddenSize in
  NN.construct (takeRows rand 0 inputSize hiddenSize)
               (takeRows rand k2 hiddenSize outputSize)
               (take rand k3 hiddenSize)
               (take rand k4 outputSize)
               learningRate taskType.

End Random.
End Random.

(** ** The playground component

    [BackpropPlayground] holds the engine and the training data in state
    cells and drives the engine from the Step button and a timer.  A state
    of the component is a record of the cells that its callbacks read and
    write; a callback is a function on states. *)

Module Playground.

Inductive DatasetName :=
  | xor | circle | linear_separable | moons | spiral | linear_regression.

Section Playground.
Context {N : Type} `{!JsNumber N}.
Local Open Scope num_scope.

Record TrainingData := {
  inputs : list N;
  targets : list N;
  label : option N;
}.

(** An entry of [lossData] and one of [lossWeightTrajectoryData]. *)
Record LossPoint := {
  lp_step : nat;
  lp_loss : N;
}.

Record TrajectoryPoint := {
  tp_step : nat;
  tp_loss : N;
  weightValue : N;
  weightGradient : N;
}.

Record State := {
  network : option (NN.NeuralNetwork N);
  currentStep : option (NN.TrainingStep N);
  stepNumber : nat;
  lossData : list LossPoint;
  trainingData : list TrainingData;
  currentDataIndex : nat;
  learningRate : N;
  hiddenSize : nat;
  datasetName : DatasetName;
  currentTaskType : TaskType;
  lossWeightTrajectoryData : list TrajectoryPoint;
}.

Definition generateXORData : list TrainingData :=
  [ {| inputs := [num0; num0]; targets := [num0]; label := Some num0 |};
    {| inputs := [num0; num1]; targets := [num1]; label := Some num1 |};
    {| inputs := [num1; num0]; targets := [num1]; label := Some num1 |};
    {| inputs := [num1; num1]; targets := [num0]; label := Some num0 |} ].

(** [if (l.length > n) return l.slice(l.length - n); return l] *)
Definition keepLast {A : Type} (n : nat) (l : list A) : list A :=
  if decide (n < length l) then drop (length l - n) l else l.

Definition inputSizeOf (name : DatasetName) : nat :=
  match name with
  | linear_regression => 1
  | _ => 2
  end.

(** [initializeNetwork], given the numbers [Math.random] returns to the
    constructor. *)
Definition initializeNetwork (rand : nat -> N) (st : State) : State :=
  let inputSize := inputSizeOf (datasetName st) in
  let outputSize := 1 in
  let newNetwork :=
    Random.newNeuralNetwork rand inputSize (hiddenSize st) outputSize
                            (learningRate st) (currentTaskType st) in
  {| network := Some newNetwork;
     currentStep := None;
     stepNumber := 0;
     lossData := [];
     trainingData := trainingData st;
     currentDataIndex := 0;
     learningRate := learningRate st;
     hiddenSize := hiddenSize st;
     datasetName := datasetName st;
     currentTaskType := currentTaskType st;
     lossWeightTrajectoryData := [] |}.

(** The point that [performTrainingStep] adds to the trajectory when
    [step.forward.weights1[0][0]] and [step.backward.weights1Gradients[0][0]]
    are defined. *)
Definition trajectoryPoint (stepNumber : nat) (step : NN.TrainingStep N)
    : option TrajectoryPoint :=
  match cell (NN.f_weights1 (NN.forward step)) 0 0,
        cell (NN.weights1Gradients (NN.backward step)) 0 0 with
  | Some w, Some g =>
      Some {| tp_step := stepNumber + 1;
              tp_loss := NN.loss (NN.backward step);
              weightValue := w;
              weightGradient := g |}
  | _, _ => None
  end.

Definition addTrajectoryPoint (p : option TrajectoryPoint) (prev : list TrajectoryPoint)
    : list TrajectoryPoint :=
  match p with
  | Some p => keepLast 100 (prev ++ [p])
  | None => prev
  end.

(** [performTrainingStep], called from the render of the state [st]: the
    callback is created anew for every render whose state differs in a cell
    it reads, so the values it closes over are those of the state its
    updates apply to.  [None] is the [TypeError] of [data.inputs] when
    [trainingData[currentDataIndex]] is undefined.  The engine is an object
    that [trainStep] updates in place: the cell [network] then holds the
    updated engine. *)
Definition performTrainingStep (st : State) : option State :=
  match network st, trainingData st with
  | None, _ | _, [] => Some st
  | Some e, _ :: _ =>
      match trainingData st !! currentDataIndex st with
      | None => None
      | Some data =>
          let (step, e') := NN.trainStep e (inputs data) (targets data) in
          let newLossData :=
            lossData st ++ [{| lp_step := stepNumber st + 1;
                               lp_loss := NN.loss (NN.backward step) |}] in
          Some {|
            network := Some e';
            currentStep := Some step;
            stepNumber := stepNumber st + 1;
            lossData := keepLast 200 newLossData;
            trainingData := trainingData st;
            currentDataIndex :=
              (currentDataIndex st + 1) `mod` length (trainingData st);
            learningRate := learningRate st;
            hiddenSize := hiddenSize st;
            datasetName := datasetName st;
            currentTaskType := currentTaskType st;
            lossWeightTrajectoryData :=
              match currentTaskType st with
              | classification =>
                  addTrajectoryPoint (trajectoryPoint (stepNumber st) step)
                                     (lossWeightTrajectoryData st)
              | regression =>
                  addTrajectoryPoint (trajectoryPoint (stepNumber st) step)
                                     (lossWeightTrajectoryData st)
              end |}
      end
  end.

(** [n] calls of [performTrainingStep], each from the render of the state
    that the one before it left. *)
Fixpoint performTrainingSteps (n : nat) (st : State) : option State :=
  match n with
  | 0 => Some st
  | S k =>
      match performTrainingSteps k st with
      | Some st' => performTrainingStep st'
      | None => None
      end
  end.

(** The learning-rate slider: [setLearningRate(lr); network?.setLearningRate(lr)]. *)
Definition changeLearningRate (lr : N) (st : State) : State :=
  {| network := (fun e => NN.setLearningRate e lr) <$> network st;
     currentStep := currentStep st;
     stepNumber := stepNumber st;
     lossData := lossData st;
     trainingData := trainingData st;
     currentDataIndex := currentDataIndex st;
     learningRate := lr;
     hiddenSize := hiddenSize st;
     datasetName := datasetName st;
     currentTaskType := currentTaskType st;
     lossWeightTrajectoryData := lossWeightTrajectoryData st |}.

(** What [getCurrentNetworkState] returns. *)
Record NetworkState := {
  ns_inputs : list N;
  ns_hiddenValues : list N;
  ns_outputs : list N;
  ns_weights : NN.Weights N;
  ns_taskType : TaskType;
}.

Definition getCurrentNetworkState (st : State) : NetworkState :=
  let inputSize := inputSizeOf (datasetName st) in
  match network st, trainingData st with
  | None, _ | _, [] =>
      let defaultWeights1 := replicate inputSize (replicate (hiddenSize st) num0) in
      let defaultBiases1 := replicate (hiddenSize st) num0 in
      let defaultWeights2 := replicate (hiddenSize st) (replicate 1 num0) in
      let defaultBiases2 := replicate 1 num0 in
      {| ns_inputs := replicate inputSize num0;
         ns_hiddenValues := replicate (hiddenSize st) num0;
         ns_outputs := [num0];
         ns_weights := {| NN.w_weights1 := defaultWeights1;
                          NN.w_weights2 := defaultWeights2;
                          NN.w_biases1 := defaultBiases1;
                          NN.w_biases2 := defaultBiases2 |};
         ns_taskType := currentTaskType st |}
  | Some e, _ :: _ =>
      let currentInputData :=
        match trainingData st !! currentDataIndex st with
        | Some data => inputs data
        | None => replicate inputSize num0
        end in
      let prediction := NN.predict e currentInputData in
      let weights := NN.getWeights e in
      let hiddenPre :=
        (fun hIdx =>
           let sum :=
             foldl (fun sum iIdx =>
                      match cell (NN.w_weights1 weights) iIdx hIdx,
                            currentInputData !! iIdx with
                      | Some w, Some x => sum + x * w
                      | _, _ => sum
                      end)
                   num0 (seq 0 inputSize) in
           match NN.w_biases1 weights !! hIdx with
           | Some b => sum + b
           | None => sum
           end)
        <$> seq 0 (hiddenSize st) in
      let hiddenValues := (fun pre => num1 / (num1 + Math_exp (- pre))) <$> hiddenPre in
      {| ns_inputs := currentInputData;
         ns_hiddenValues := hiddenValues;
         ns_outputs := prediction;
         ns_weights := weights;
         ns_taskType := NN.getTaskType e |}
  end.

End Playground.
Arguments TrainingData N : clear implicits.
Arguments State N : clear implicits.
Arguments LossPoint N : clear implicits.
Arguments TrajectoryPoint N : clear implicits.
Arguments NetworkState N : clear implicits.
End Playground.

(** ** The datasets of the playground

    The generators over the reals.  [rand k] is the number that the call
    number [k] of [Math.random] returns within one call of a generator. *)

Module Datasets.
Local Open Scope R_scope.

Definition sample (inputs targets : list R) (label : option R)
    : Playground.TrainingData R :=
  {| Playground.inputs := inputs; Playground.targets := targets;
     Playground.label := label |}.

Definition generateCircleData (rand : nat -> R) : list (Playground.TrainingData R) :=
  (fun i : nat =>
     let r := rand (2 * i)%nat * (5 / 2) in
     let angle := rand (2 * i + 1)%nat * 2 * PI in
     let x := r * cos angle in
     let y := r * sin angle in
     let isInCircle := Rlt_dec (x * x + y * y) 2 in
     sample [x; y] [if isInCircle then 1 else 0] (Some (if isInCircle then 1 else 0)))
  <$> seq 0 50.

Definition generateLinearSeparableData (rand : nat -> R)
    : list (Playground.TrainingData R) :=
  (fun i : nat =>
     let x := rand (2 * i)%nat * 4 - 2 in
     let y := rand (2 * i + 1)%nat * 4 - 2 in
     let isAboveLine := Rgt_dec y (1 / 2 * x + 2 / 10) in
     sample [x; y] [if isAboveLine then 1 else 0]
            (Some (if isAboveLine then 1 else 0)))
  <$> seq 0 50.

Definition generateMoonsData : list (Playground.TrainingData R) :=
  seq 0 50 ≫= (fun i : nat =>
    let d := INR i / 50 in
    [ sample [cos (PI * d) - 1 / 2; sin (PI * d) - 2 / 10] [0] (Some 0);
      sample [1 / 2 - cos (PI * d); 2 / 10 - sin (PI * d) - 1 / 2] [1] (Some 1) ]).

Definition generateSpiralData (rand : nat -> R) : list (Playground.TrainingData R) :=
  seq 0 25 ≫= (fun i : nat =>
    let r1 := INR i / 25 * 5 in
    let t1 := INR i / 25 * PI * (5 / 2) + rand (2 * i)%nat * (1 / 2) in
    let r2 := INR i / 25 * 5 in
    let t2 := INR i / 25 * PI * (5 / 2) + PI + rand (2 * i + 1)%nat * (1 / 2) in
    [ sample [r1 * sin t1; r1 * cos t1] [0] (Some 0);
      sample [r2 * sin t2; r2 * cos t2] [1] (Some 1) ]).

Definition generateLinearRegressionData (rand : nat -> R)
    : list (Playground.TrainingData R) :=
  (fun i : nat =>
     let slope := 18 / 10 in
     let intercept := 1 / 2 in
     let x := rand (2 * i)%nat * 2 - 1 in
     let noise := (rand (2 * i + 1)%nat - 1 / 2) * (1 / 2) in
     let y := slope * x + intercept + noise in
     sample [x] [y] None)
  <$> seq 0 50.

(** [changeDataset]: the new dataset and its task type, hidden size and
    learning rate; the engine, if any, stays until [initializeNetwork] runs. *)
Definition changeDataset (rand : nat -> R) (newDatasetName : Playground.DatasetName)
    (st : Playground.State R) : Playground.State R :=
  let '(newData, newTaskType, newHiddenSize, newLearningRate) :=
    match newDatasetName with
    | Playground.xor =>
        (Playground.generateXORData, classification, 6%nat, 5 / 100)
    | Playground.circle =>
        (generateCircleData rand, classification, 6%nat, 5 / 100)
    | Playground.linear_separable =>
        (generateLinearSeparableData rand, classification, 6%nat, 5 / 100)
    | Playground.moons =>
        (generateMoonsData, classification, 8%nat, 5 / 100)
    | Playground.spiral =>
        (generateSpiralData rand, classification, 10%nat, 1 / 10)
    | Playground.linear_regression =>
        (generateLinearRegressionData rand, regression, 2%nat, 1 / 100)
    end in
  {| Playground.network := Playground.network st;
     Playground.currentStep := None;
     Playground.stepNumber := 0;
     Playground.lossData := [];
     Playground.trainingData := newData;
     Playground.currentDataIndex := 0;
     Playground.learningRate := newLearningRate;
     Playground.hiddenSize := newHiddenSize;
     Playground.datasetName := newDatasetName;
     Playground.currentTaskType := newTaskType;
     Playground.lossWeightTrajectoryData := Playground.lossWeightTrajectoryData st |}.

(** A sample that fits an engine with [inputSize] inputs and [outputSize]
    outputs; in classification mode its targets are class labels. *)
Definition WellShaped (inputSize outputSize : nat) (task : TaskType)
    (d : Playground.TrainingData R) : Prop :=
  length (Playground.inputs d) = inputSize
  /\ length (Playground.targets d) = outputSize
  /\ (task = classification ->
      Forall (fun t => t = 0 \/ t = 1) (Playground.targets d)).

End Datasets.

(** ** The loss landscape chart

    [LossVsWeightChart] over the reals.  It drives the engine through
    [getWeights], [setWeights] and [predict]; the engine is threaded through
    the loop as the object that [setWeights] updates. *)

Module LossVsWeightChart.
Local Open Scope R_scope.

Record LandscapeDataPoint := {
  weightValue : R;
  loss : R;
}.

(** [m[i][j] = v] on a nested array in which the cell exists. *)
Definition setCell (m : list (list R)) (i j : nat) (v : R) : list (list R) :=
  match m !! i with
  | Some row => <[i := <[j := v]> row]> m
  | None => m
  end.

(** The loss of a prediction against the current target; a missing target
    entry counts as 0. *)
Definition lossOf (taskType : TaskType) (prediction currentTarget : list R) : R :=
  let epsilon := / 10 ^ 12 in
  match taskType with
  | classification =>
      reduce (fun sum pred idx =>
                let targetVal := default 0 (currentTarget !! idx) in
                let y := Rmax epsilon (Rmin (1 - epsilon) pred) in
                sum - (targetVal * ln y + (1 - targetVal) * ln (1 - y)))
             0 prediction
      / INR (length prediction)
  | regression =>
      reduce (fun sum pred idx =>
                let targetVal := default 0 (currentTarget !! idx) in
                sum + 1 / 2 * (pred - targetVal) ^ 2)
             0 prediction
      / INR (length prediction)
  end.

(** [originalWeights] with [weights1[0][0]] replaced by [testWeight]. *)
Definition withTestWeight (originalWeights : NN.Weights R) (testWeight : R)
    : NN.Weights R :=
  {| NN.w_weights1 := setCell (NN.w_weights1 originalWeights) 0 0 testWeight;
     NN.w_weights2 := NN.w_weights2 originalWeights;
     NN.w_biases1 := NN.w_biases1 originalWeights;
     NN.w_biases2 := NN.w_biases2 originalWeights |}.

(** The weight of the point number [i]: 50 points, 0.08 apart, from
    [currentWeight - 2] on. *)
Definition testWeightAt (currentWeight : R) (i : nat) : R :=
  let weightRange := 2 in
  let numPoints := 50 in
  let step := (2 * weightRange) / numPoints in
  currentWeight - weightRange + INR i * step.

(** One round of the loop: the engine after [setWeights(modifiedWeights)]
    and the point pushed, or the engine as it was and no point when
    [weights1[0][0]] does not exist.  Over the reals the copy that
    [JSON.parse(JSON.stringify(originalWeights))] makes has the values of
    [originalWeights]. *)
Definition landscapeStep (originalWeights : NN.Weights R) (currentWeight : R)
    (currentInput currentTarget : list R) (taskType : TaskType)
    (network : NN.NeuralNetwork R) (i : nat)
    : NN.NeuralNetwork R * option LandscapeDataPoint :=
  let testWeight := testWeightAt currentWeight i in
  let modifiedWeights := originalWeights in
  match cell (NN.w_weights1 modifiedWeights) 0 0 with
  | Some _ =>
      let modifiedWeights := withTestWeight modifiedWeights testWeight in
      let network := NN.setWeights network modifiedWeights in
      let prediction := NN.predict network currentInput in
      (network, Some {| weightValue := testWeight;
                        loss := lossOf taskType prediction currentTarget |})
  | None => (network, None)
  end.

Fixpoint landscapeLoop (originalWeights : NN.Weights R) (currentWeight : R)
    (currentInput currentTarget : list R) (taskType : TaskType)
    (network : NN.NeuralNetwork R) (indices : list nat)
    : NN.NeuralNetwork R * list LandscapeDataPoint :=
  match indices with
  | [] => (network, [])
  | i :: indices' =>
      let (network, p) :=
        landscapeStep originalWeights currentWeight currentInput currentTarget
                      taskType network i in
      let (network, ps) :=
        landscapeLoop originalWeights currentWeight currentInput currentTarget
                      taskType network indices' in
      (network, match p with Some p => p :: ps | None => ps end)
  end.

(** [landscapeData]: the points of the curve, and the engine as the
    computation leaves it.  [data[data.length - 1]?.weightValue || 0] is the
    last weight of the trajectory (a real number that is falsy is 0). *)
Definition landscapeData (network : option (NN.NeuralNetwork R))
    (data : list (Playground.TrajectoryPoint R))
    (currentInput currentTarget : option (list R)) (taskType : TaskType)
    : list LandscapeDataPoint * option (NN.NeuralNetwork R) :=
  match network, data, currentInput, currentTarget with
  | Some network, _ :: _, Some currentInput, Some currentTarget =>
      let currentWeight := default 0 (Playground.weightValue <$> last data) in
      let originalWeights := NN.getWeights network in
      let (network, landscapePoints) :=
        landscapeLoop originalWeights currentWeight currentInput currentTarget
                      taskType network (seq 0 50) in
      let network := NN.setWeights network originalWeights in
      (landscapePoints, Some network)
  | _, _, _, _ => ([], network)
  end.

End LossVsWeightChart.

(** ** The scatter plot

    [DataScatterPlot] over the reals: the points it plots, the domains of
    its axes and the fitted line of a regression. *)

Module DataScatterPlot.
Local Open Scope R_scope.








End DataScatterPlot.

(** ** A playground on the XOR data

    The engine of scenario C in a playground that has just been reset. *)

Module ScenarioXor.
Local Open Scope R_scope.

Definition state : Playground.State R := {|
  Playground.network := Some ScenarioC.engine;
  Playground.currentStep := None;
  Playground.stepNumber := 0;
  Playground.lossData := [];
  Playground.trainingData := Playground.generateXORData;
  Playground.currentDataIndex := 0;
  Playground.learningRate := 1 / 10;
  Playground.hiddenSize := 1;
  Playground.datasetName := Playground.xor;
  Playground.currentTaskType := classification;
  Playground.lossWeightTrajectoryData := [];
|}.

Definition trajectory : list (Playground.TrajectoryPoint R) :=
  [ {| Playground.tp_step := 1; Playground.tp_loss := 1;
       Playground.weightValue := 1 / 10; Playground.weightGradient := 0 |} ].

End ScenarioXor.

(** ** One parameter at a time

    The engine with one weight or one bias replaced, and the loss that a
    training step reports: the functions of which back-propagation computes
    the derivatives. *)

Module Perturbed.
Local Open Scope R_scope.

Definition withWeight1 (e : NN.NeuralNetwork R) (i h : nat) (w : R) : NN.NeuralNetwork R :=
  {| NN.weights1 := LossVsWeightChart.setCell (NN.weights1 e) i h w;
     NN.weights2 := NN.weights2 e;
     NN.biases1 := NN.biases1 e;
     NN.biases2 := NN.biases2 e;
     NN.learningRate := NN.learningRate e;
     NN.taskType := NN.taskType e |}.

Definition withWeight2 (e : NN.NeuralNetwork R) (h o : nat) (w : R) : NN.NeuralNetwork R :=
  {| NN.weights1 := NN.weights1 e;
     NN.weights2 := LossVsWeightChart.setCell (NN.weights2 e) h o w;
     NN.biases1 := NN.biases1 e;
     NN.biases2 := NN.biases2 e;
     NN.learningRate := NN.learningRate e;
     NN.taskType := NN.taskType e |}.

Definition withBias1 (e : NN.NeuralNetwork R) (h : nat) (b : R) : NN.NeuralNetwork R :=
  {| NN.weights1 := NN.weights1 e;
     NN.weights2 := NN.weights2 e;
     NN.biases1 := <[h := b]> (NN.biases1 e);
     NN.biases2 := NN.biases2 e;
     NN.learningRate := NN.learningRate e;
     NN.taskType := NN.taskType e |}.

Definition withBias2 (e : NN.NeuralNetwork R) (o : nat) (b : R) : NN.NeuralNetwork R :=
  {| NN.weights1 := NN.weights1 e;
     NN.weights2 := NN.weights2 e;
     NN.biases1 := NN.biases1 e;
     NN.biases2 := <[o := b]> (NN.biases2 e);
     NN.learningRate := NN.learningRate e;
     NN.taskType := NN.taskType e |}.

(** The loss that [trainStep] reports for the engine [e]. *)
Definition lossAt (e : NN.NeuralNetwork R) (inputs target : list R) : R :=
  NN.loss (NN.backward (NN.trainStep e inputs target).1).

(** The term of one output in the loss, as a function of its
    pre-activation [z], and the activation of the output layer. *)
Definition activation (task : TaskType) (z : R) : R :=
  match task with
  | classification => Spec.sigmoid z
  | regression => z
  end.

Definition lossTerm (task : TaskType) (t z : R) : R :=
  match task with
  | classification =>
      - (t * ln (Spec.clamp (Spec.sigmoid z))
         + (1 - t) * ln (Spec.clamp (1 - Spec.sigmoid z)))
  | regression => 1 / 2 * (t - z) ^ 2
  end.

(** No output is clamped by the loss. *)
Definition Unclamped (outputPost : list R) : Prop :=
  Forall (fun y => Spec.epsilon < y < 1 - Spec.epsilon) outputPost.

(** The derivatives of the forward pass in a parameter, from the
    derivatives [dW1], [dB1], [dW2], [dB2] of the entries of the four
    tensors in it. *)
Definition dHiddenPre (inputSize : nat) (inputs : list R)
    (dW1 : nat -> nat -> R) (dB1 : nat -> R) (h : nat) : R :=
  Spec.sum_upto inputSize (fun i => dW1 i h * Spec.item inputs i) + dB1 h.

Definition dHiddenPost (inputSize : nat) (e : NN.NeuralNetwork R) (inputs : list R)
    (dW1 : nat -> nat -> R) (dB1 : nat -> R) (h : nat) : R :=
  Spec.hiddenPost inputSize e inputs h * (1 - Spec.hiddenPost inputSize e inputs h)
  * dHiddenPre inputSize inputs dW1 dB1 h.

Definition dOutputPre (inputSize hiddenSize : nat) (e : NN.NeuralNetwork R)
    (inputs : list R) (dW1 : nat -> nat -> R) (dB1 : nat -> R)
    (dW2 : nat -> nat -> R) (dB2 : nat -> R) (o : nat) : R :=
  Spec.sum_upto hiddenSize
    (fun h => dW2 h o * Spec.hiddenPost inputSize e inputs h
              + Spec.entry (NN.weights2 e) h o * dHiddenPost inputSize e inputs dW1 dB1 h)
  + dB2 o.

Definition dLoss (inputSize hiddenSize outputSize : nat) (e : NN.NeuralNetwork R)
    (inputs target : list R) (dW1 : nat -> nat -> R) (dB1 : nat -> R)
    (dW2 : nat -> nat -> R) (dB2 : nat -> R) : R :=
  Spec.sum_upto outputSize
    (fun o => (Spec.outputPost inputSize hiddenSize e inputs o - Spec.item target o)
              * dOutputPre inputSize hiddenSize e inputs dW1 dB1 dW2 dB2 o)
  / INR outputSize.

(** The loss as the mean of the loss terms of the outputs. *)
Definition meanLoss (inputSize hiddenSize outputSize : nat) (e : NN.NeuralNetwork R)
    (inputs target : list R) : R :=
  Spec.sum_upto outputSize
    (fun o => lossTerm (NN.taskType e) (Spec.item target o)
                       (Spec.outputPre inputSize hiddenSize e inputs o))
  / INR outputSize.

End Perturbed.

(** ** The arrays of a step record *)

Module Record.
Section Record.
Context {N : Type} `{!JsNumber N}.

(** The arrays that a step record refers to, [forward.inputs] apart: the
    twelve vectors, the six matrices and the rows of the matrices. *)
Definition arrays (r : Store.TrainingStep N) (s : Store.store N) : list Store.loc :=
  let f := Store.forward r in
  let b := Store.backward r in
  let a := Store.after r in
  [ Store.f_hiddenPre f; Store.f_hiddenPost f; Store.f_outputPre f;
    Store.f_outputPost f; Store.f_biases1 f; Store.f_biases2 f;
    Store.outputGradients b; Store.hiddenGradients b;
    Store.biases2Gradients b; Store.biases1Gradients b;
    Store.a_biases1 a; Store.a_biases2 a;
    Store.f_weights1 f; Store.f_weights2 f;
    Store.weights2Gradients b; Store.weights1Gradients b;
    Store.a_weights1 a; Store.a_weights2 a ]
  ++ Store.rowsOf (Store.f_weights1 f) s ++ Store.rowsOf (Store.f_weights2 f) s
  ++ Store.rowsOf (Store.weights2Gradients b) s
  ++ Store.rowsOf (Store.weights1Gradients b) s
  ++ Store.rowsOf (Store.a_weights1 a) s ++ Store.rowsOf (Store.a_weights2 a) s.

End Record.
End Record.

(** ** The caller of the engine

    A world is the engine object, the store, and the arrays that the code
    around the engine holds a reference to.  The caller gets references
    from what the methods return and from the arrays it builds itself, and
    it can write to any array it holds. *)

Module Client.
Section Client.
Context {N : Type} `{!JsNumber N}.

Record World := {
  engine : Store.NeuralNetwork N;
  heap : Store.store N;
  known : list Store.loc;
}.

(** An array object that the caller can build from what it holds: numbers,
    or rows that are arrays it holds. *)
Definition Buildable (known : list Store.loc) (o : Store.object N) : Prop :=
  match o with
  | Store.Numbers _ => True
  | Store.Rows rs => Forall (fun r => r ∈ known) rs
  end.

(** [setLearningRate] on the engine object. *)
Definition setLearningRate (e : Store.NeuralNetwork N) (rate : N) : Store.NeuralNetwork N :=
  {| Store.weights1 := Store.weights1 e; Store.weights2 := Store.weights2 e;
     Store.biases1 := Store.biases1 e; Store.biases2 := Store.biases2 e;
     Store.learningRate := rate; Store.taskType := Store.taskType e |}.

(** One action of the caller: a call of a public method with arrays it
    holds, or the building or the writing of an array of its own. *)
Inductive Call : World -> World -> Prop :=
  | call_predict w inputs l s' :
      inputs ∈ known w ->
      Store.predict (engine w) inputs (heap w) = Some (l, s') ->
      Call w {| engine := engine w; heap := s'; known := l :: known w |}
  | call_trainStep w inputs target r s' :
      inputs ∈ known w -> target ∈ known w ->
      is_Some (Store.numbersAt inputs (heap w)) ->
      is_Some (Store.numbersAt target (heap w)) ->
      Store.trainStep (engine w) inputs target (heap w) = Some (r, s') ->
      Call w {| engine := engine w; heap := s';
                known := Record.arrays r s' ++ known w |}
  | call_getWeights w weights s' :
      Store.getWeights (engine w) (heap w) = Some (weights, s') ->
      Call w {| engine := engine w; heap := s';
                known := Store.reachable weights s' ++ known w |}
  | call_setWeights w weights e' s' :
      is_Some (Store.weightsAt weights (heap w)) ->
      Store.setWeights (engine w) weights (heap w) = Some (e', s') ->
      Call w {| engine := e'; heap := s'; known := known w |}
  | call_setLearningRate w rate :
      Call w {| engine := setLearningRate (engine w) rate; heap := heap w;
                known := known w |}
  | client_builds w o :
      Buildable (known w) o ->
      Call w {| engine := engine w; heap := heap w ++ [o];
                known := length (heap w) :: known w |}
  | client_writes w l o :
      l ∈ known w -> Buildable (known w) o ->
      Call w {| engine := engine w; heap := <[l := o]> (heap w); known := known w |}.

(** A session: any number of calls and client actions, one after the
    other. *)
Inductive Calls : World -> World -> Prop :=
  | calls_none w : Calls w w
  | calls_then w1 w2 w3 : Calls w1 w2 -> Call w2 w3 -> Calls w1 w3.

(** The engine's arrays are its own: it owns them, and the caller holds
    none of them, directly or as the row of a matrix it holds. *)
Definition Private (w : World) : Prop :=
  Store.Owned (engine w) (heap w)
  /\ Forall (fun l => l < length (heap w)
                      /\ l ∉ Store.reachable (Store.refs (engine w)) (heap w))
            (known w)
  /\ (forall l x, l ∈ known w -> x ∈ Store.rowsOf l (heap w) -> x ∈ known w).

End Client.
Arguments World N : clear implicits.
End Client.

(** * Properties *)

(** ** Arrays and sums *)

Section ArrayFacts.
Context {N : Type} `{!JsNumber N}.
Local Open Scope num_scope.

Lemma cell_Some {A : Type} (m : list (list A)) (i j : nat) (x : A) :
  cell m i j = Some x <-> exists row, m !! i = Some row /\ row !! j = Some x.
Proof.
  unfold cell. destruct (m !! i) as [row|]; simpl.
  - split; [eauto | intros (r & [= <-] & ?); done].
  - split; [done | intros (r & ? & ?); done].
Qed.

Lemma cell_is_Some {A : Type} (m : list (list A)) (n i j : nat) :
  Forall (fun row => length row = n) m ->
  i < length m -> j < n -> is_Some (cell m i j).
Proof.
  intros Hrows Hi Hj.
  destruct (lookup_lt_is_Some_2 m i Hi) as [row Hrow].
  assert (length row = n) as Hlen by exact (Forall_lookup_1 _ _ _ _ Hrows Hrow).
  destruct (lookup_lt_is_Some_2 row j ltac:(lia)) as [x Hx].
  exists x. apply cell_Some. eauto.
Qed.

(** A loop that skips undefined cells adds every term when all cells are
    defined. *)
Lemma foldl_defined_sum (n : nat) (a b : nat -> option N) :
  (forall i, i < n -> is_Some (a i) /\ is_Some (b i)) ->
  foldl (fun acc i => match a i, b i with
                      | Some x, Some y => acc + y * x
                      | _, _ => acc
                      end) num0 (seq 0 n)
  = Spec.sum_upto n (fun i => default num0 (b i) * default num0 (a i)).
Proof.
  induction n as [|n IH]; intros Hdef; [done|].
  rewrite seq_S, foldl_app. simpl. rewrite IH by (intros; apply Hdef; lia).
  destruct (Hdef n ltac:(lia)) as [[x ->] [y ->]]. done.
Qed.

Lemma lookup_item (v : list N) (i : nat) :
  i < length v -> v !! i = Some (Spec.item v i).
Proof.
  intros Hi. destruct (lookup_lt_is_Some_2 v i Hi) as [x Hx].
  unfold Spec.item. by rewrite Hx.
Qed.

Lemma sum_upto_ext (n : nat) (f g : nat -> N) :
  (forall i, i < n -> f i = g i) -> Spec.sum_upto n f = Spec.sum_upto n g.
Proof.
  induction n as [|n IH]; intros Hfg; [done|].
  simpl. rewrite IH by (intros; apply Hfg; lia). by rewrite Hfg by lia.
Qed.

End ArrayFacts.

(** ** Shapes of the forward and backward pass *)

Section Shapes.
Context {N : Type} `{!JsNumber N}.
Local Open Scope num_scope.
Implicit Types (e : NN.NeuralNetwork N) (inputs target : list N).

Lemma length_vectorAdd (a b : list N) : length (NN.vectorAdd a b) = length a.
Proof. apply length_imap. Qed.

Lemma lookup_vectorAdd (a b : list N) (i : nat) (x y : N) :
  a !! i = Some x -> b !! i = Some y -> NN.vectorAdd a b !! i = Some (x + y).
Proof.
  intros Ha Hb. unfold NN.vectorAdd. rewrite list_lookup_imap, Ha. simpl.
  by rewrite Hb.
Qed.

Lemma length_matrixMultiply (m : list (list N)) (v : list N) (n : nat) :
  m <> [] -> Forall (fun row => length row = n) m ->
  length (NN.matrixMultiply m v) = n.
Proof.
  intros Hne Hrows. destruct m as [|row0 m]; [done|].
  assert (length row0 = n) as Hn by (by inversion Hrows).
  unfold NN.matrixMultiply. case_decide.
  - by rewrite length_replicate.
  - by rewrite length_fmap, length_seq.
Qed.

Lemma lookup_matrixMultiply (m : list (list N)) (v : list N) (n j : nat) :
  m <> [] -> Forall (fun row => length row = n) m ->
  length v = length m -> j < n ->
  NN.matrixMultiply m v !! j
  = Some (Spec.sum_upto (length m) (fun i => Spec.item v i * Spec.entry m i j)).
Proof.
  intros Hne Hrows Hv Hj. destruct m as [|row0 m]; [done|].
  assert (length row0 = n) as Hn by (by inversion Hrows).
  unfold NN.matrixMultiply. case_decide; [done|].
  rewrite list_lookup_fmap, lookup_seq_lt by lia. simpl.
  f_equal. unfold NN.column.
  rewrite (foldl_defined_sum _ (fun i => cell (row0 :: m) i j) (fun i => v !! i)).
  - done.
  - intros i Hi. split.
    + by apply (cell_is_Some _ n).
    + apply lookup_lt_is_Some_2. simpl in *. lia.
Qed.

Lemma matrixMultiply_mismatch (m : list (list N)) (v : list N) (row0 : list N) :
  m !! 0 = Some row0 -> length v <> length m ->
  NN.matrixMultiply m v = replicate (length row0) num0.
Proof.
  intros Hrow Hlen. destruct m as [|r m]; [done|]. injection Hrow as ->.
  unfold NN.matrixMultiply. by case_decide.
Qed.

(** The constructor, with draws for the sizes it is given, builds a
    well-formed engine. *)
Lemma construct_wellFormed (inputSize hiddenSize outputSize : nat)
    (draws1 draws2 : list (list N)) (drawsB1 drawsB2 : list N)
    (rate : N) (task : TaskType) :
  0 < inputSize -> 0 < hiddenSize -> 0 < outputSize ->
  length draws1 = inputSize -> Forall (fun row => length row = hiddenSize) draws1 ->
  length draws2 = hiddenSize -> Forall (fun row => length row = outputSize) draws2 ->
  length drawsB1 = hiddenSize -> length drawsB2 = outputSize ->
  NN.WellFormed inputSize hiddenSize outputSize
    (NN.construct draws1 draws2 drawsB1 drawsB2 rate task).
Proof.
  intros ? ? ? H1 Hr1 H2 Hr2 Hb1 Hb2.
  split; simpl; unfold NN.randomMatrix, NN.randomArray;
    rewrite ?length_fmap; try done.
  - apply Forall_fmap. eapply Forall_impl; [exact Hr1|].
    intros row Hrow. simpl. by rewrite length_fmap.
  - apply Forall_fmap. eapply Forall_impl; [exact Hr2|].
    intros row Hrow. simpl. by rewrite length_fmap.
Qed.

Section WellFormed.
Variables (inputSize hiddenSize outputSize : nat).
Variable e : NN.NeuralNetwork N.
Hypothesis Hwf : NN.WellFormed inputSize hiddenSize outputSize e.

Lemma weights1_nonempty : NN.weights1 e <> [].
Proof.
  destruct Hwf. intros Heq. rewrite Heq in *. simpl in *. lia.
Qed.

Lemma weights2_nonempty : NN.weights2 e <> [].
Proof.
  destruct Hwf. intros Heq. rewrite Heq in *. simpl in *. lia.
Qed.

Lemma length_hiddenPre inputs : length (NN.predict_hiddenPre e inputs) = hiddenSize.
Proof.
  unfold NN.predict_hiddenPre. rewrite length_vectorAdd.
  apply length_matrixMultiply; [apply weights1_nonempty | apply Hwf].
Qed.

Lemma length_outputPre inputs : length (NN.predict_outputPre e inputs) = outputSize.
Proof.
  unfold NN.predict_outputPre. rewrite length_vectorAdd.
  apply length_matrixMultiply; [apply weights2_nonempty | apply Hwf].
Qed.

Lemma length_outputPost inputs target :
  length (NN.f_outputPost (NN.forward (NN.trainStep e inputs target).1)) = outputSize.
Proof.
  simpl. destruct (NN.taskType e); rewrite ?length_fmap; apply length_outputPre.
Qed.

Lemma length_outputGradients inputs target :
  length (NN.outputGradients (NN.backward (NN.trainStep e inputs target).1))
  = outputSize.
Proof.
  simpl. unfold NN.outputGradientsOf. rewrite length_imap.
  apply (length_outputPost inputs target).
Qed.

Lemma length_hiddenGradients inputs target :
  length (NN.hiddenGradients (NN.backward (NN.trainStep e inputs target).1))
  = hiddenSize.
Proof.
  simpl. unfold NN.hiddenGradientsOf, NN.hiddenErrorValuesOf.
  rewrite length_imap, length_fmap, length_seq. apply Hwf.
Qed.

End WellFormed.
End Shapes.

(** ** The update step *)

Section Update.
Context {N : Type} `{!JsNumber N}.
Local Open Scope num_scope.
Implicit Types (e : NN.NeuralNetwork N) (inputs target : list N).

Lemma cell_outer (a b : list N) (i j : nat) (x g : N) :
  a !! i = Some x -> b !! j = Some g -> cell (NN.outer a b) i j = Some (x * g).
Proof.
  intros Ha Hb. unfold cell, NN.outer.
  rewrite list_lookup_fmap, Ha. simpl. by rewrite list_lookup_fmap, Hb.
Qed.

Lemma cell_updateMatrix (rate : N) (w grads : list (list N)) (i j : nat) (x g : N) :
  cell w i j = Some x -> cell grads i j = Some g ->
  cell (NN.updateMatrix rate w grads) i j = Some (x - rate * g).
Proof.
  intros (row & Hrow & Hx)%cell_Some Hg. unfold cell, NN.updateMatrix.
  rewrite list_lookup_imap, Hrow. simpl. unfold NN.updateRow.
  by rewrite list_lookup_imap, Hx, Hg.
Qed.

Lemma lookup_updateVector (rate : N) (b grads : list N) (i : nat) (x g : N) :
  b !! i = Some x -> grads !! i = Some g ->
  NN.updateVector rate b grads !! i = Some (x - rate * g).
Proof.
  intros Hx Hg. unfold NN.updateVector. by rewrite list_lookup_imap, Hx, Hg.
Qed.

Lemma updatedMatrix_intro (rate : N) (n m : nat) (w : list (list N)) (a b : list N) :
  length w = n -> Forall (fun row => length row = m) w ->
  length a = n -> length b = m ->
  Spec.UpdatedMatrix rate n m w (NN.outer a b) (NN.updateMatrix rate w (NN.outer a b)).
Proof.
  intros Hw Hrows Ha Hb i j Hi Hj.
  destruct (cell_is_Some w m i j Hrows ltac:(lia) Hj) as [x Hx].
  destruct (lookup_lt_is_Some_2 a i ltac:(lia)) as [y Hy].
  destruct (lookup_lt_is_Some_2 b j ltac:(lia)) as [g Hg].
  exists x, (y * g). pose proof (cell_outer _ _ _ _ _ _ Hy Hg) as Hc.
  split_and!; [done | done |]. by apply cell_updateMatrix.
Qed.

Lemma updatedVector_intro (rate : N) (n : nat) (b grads : list N) :
  length b = n -> length grads = n ->
  Spec.UpdatedVector rate n b grads (NN.updateVector rate b grads).
Proof.
  intros Hb Hg i Hi.
  destruct (lookup_lt_is_Some_2 b i ltac:(lia)) as [x Hx].
  destruct (lookup_lt_is_Some_2 grads i ltac:(lia)) as [g Hgi].
  exists x, g. split_and!; [done | done |]. by apply lookup_updateVector.
Qed.

Lemma length_updateMatrix (rate : N) (w grads : list (list N)) :
  length (NN.updateMatrix rate w grads) = length w.
Proof. apply length_imap. Qed.

Lemma length_updateVector (rate : N) (b grads : list N) :
  length (NN.updateVector rate b grads) = length b.
Proof. apply length_imap. Qed.

(** The update rule on array values. *)
Lemma trainStep_updated_values (inputSize hiddenSize outputSize : nat) e inputs target :
  NN.WellFormed inputSize hiddenSize outputSize e ->
  length inputs = inputSize ->
  Spec.UpdateRule inputSize hiddenSize outputSize (NN.learningRate e)
    (NN.trainStep e inputs target).1 (NN.trainStep e inputs target).2.
Proof.
  intros Hwf Hin. unfold Spec.UpdateRule.
  set (r := (NN.trainStep e inputs target).1).
  set (e' := (NN.trainStep e inputs target).2).
  pose proof (length_hiddenGradients _ _ _ e Hwf inputs target) as Hhg.
  pose proof (length_outputGradients _ _ _ e Hwf inputs target) as Hog.
  pose proof (length_hiddenPre _ _ _ e Hwf inputs) as Hhp.
  destruct Hwf as [? ? ? Hw1 Hr1 Hw2 Hr2 Hb1 Hb2].
  split_and!; try reflexivity.
  - apply updatedMatrix_intro; done.
  - apply updatedMatrix_intro; try done.
    rewrite length_fmap. exact Hhp.
  - apply updatedVector_intro; done.
  - apply updatedVector_intro; done.
  - subst r. simpl. by rewrite length_updateMatrix.
  - subst r. simpl. by rewrite length_updateMatrix.
  - subst r. simpl. by rewrite length_updateVector.
  - subst r. simpl. by rewrite length_updateVector.
Qed.

(** C2.  For either task type, every entry of [outputGradients] is the
    entry of [outputPost] minus the entry of the target. *)
Theorem trainStep_outputGradients e inputs target (o : nat) (y t : N) :
  NN.f_outputPost (NN.forward (NN.trainStep e inputs target).1) !! o = Some y ->
  target !! o = Some t ->
  NN.outputGradients (NN.backward (NN.trainStep e inputs target).1) !! o
  = Some (y - t).
Proof.
  intros Hy Ht. simpl in *. unfold NN.outputGradientsOf.
  rewrite list_lookup_imap, Hy. simpl. unfold NN.targetAt. by rewrite Ht.
Qed.

(** The forward pass of [trainStep] and the body of [predict] are the same
    computation. *)
Lemma forward_is_predict_values e inputs target :
  let f := NN.forward (NN.trainStep e inputs target).1 in
  NN.f_outputPost f = NN.predict e inputs
  /\ NN.f_hiddenPre f = NN.predict_hiddenPre e inputs
  /\ NN.f_hiddenPost f = NN.predict_hiddenPost e inputs
  /\ NN.f_outputPre f = NN.predict_outputPre e inputs.
Proof.
  simpl. unfold NN.predict. by destruct (NN.taskType e).
Qed.

End Update.

Lemma scenarioC_wellFormed : NN.WellFormed 2 1 1 ScenarioC.engine.
Proof.
  split; simpl; try lia; repeat constructor.
Defined.

Lemma trainStep_outputGradients_witness :
  exists y : R,
    NN.f_outputPost
      (NN.forward (NN.trainStep ScenarioC.engine ScenarioC.inputs ScenarioC.target).1)
      !! 0 = Some y
    /\ NN.outputGradients
         (NN.backward (NN.trainStep ScenarioC.engine ScenarioC.inputs ScenarioC.target).1)
         !! 0 = Some (y - 1)%R.
Proof.
  eexists. split; [reflexivity|].
  exact (trainStep_outputGradients ScenarioC.engine ScenarioC.inputs ScenarioC.target
           0 _ 1%R eq_refl eq_refl).
Defined.

(** ** The forward pass over the reals *)

Section ForwardReal.
Local Open Scope R_scope.
Variables (inputSize hiddenSize outputSize : nat).
Variable e : NN.NeuralNetwork R.
Hypothesis Hwf : NN.WellFormed inputSize hiddenSize outputSize e.
Variable inputs : list R.
Hypothesis Hinputs : length inputs = inputSize.

Lemma lookup_hiddenPre (h : nat) :
  (h < hiddenSize)%nat ->
  NN.predict_hiddenPre e inputs !! h = Some (Spec.hiddenPre inputSize e inputs h).
Proof.
  intros Hh. destruct Hwf as [? ? ? Hw1 Hr1 Hw2 Hr2 Hb1 Hb2].
  unfold NN.predict_hiddenPre, Spec.hiddenPre.
  erewrite lookup_vectorAdd; cycle 1.
  - apply (lookup_matrixMultiply _ _ hiddenSize); try done.
    + intros Heq. rewrite Heq in Hw1. simpl in Hw1. lia.
    + congruence.
  - apply lookup_item. lia.
  - simpl. do 2 f_equal. rewrite Hw1.
    apply sum_upto_ext. intros i _. simpl. apply Rmult_comm.
Qed.

Lemma lookup_hiddenPost (h : nat) :
  (h < hiddenSize)%nat ->
  NN.predict_hiddenPost e inputs !! h = Some (Spec.hiddenPost inputSize e inputs h).
Proof.
  intros Hh. unfold NN.predict_hiddenPost.
  by rewrite list_lookup_fmap, lookup_hiddenPre.
Qed.

Lemma length_hiddenPost : length (NN.predict_hiddenPost e inputs) = hiddenSize.
Proof.
  unfold NN.predict_hiddenPost. rewrite length_fmap.
  by apply (length_hiddenPre inputSize hiddenSize outputSize).
Qed.

Lemma lookup_outputPre (o : nat) :
  (o < outputSize)%nat ->
  NN.predict_outputPre e inputs !! o
  = Some (Spec.outputPre inputSize hiddenSize e inputs o).
Proof.
  intros Ho. pose proof length_hiddenPost as Hhp.
  destruct Hwf as [? ? ? Hw1 Hr1 Hw2 Hr2 Hb1 Hb2].
  unfold NN.predict_outputPre, Spec.outputPre.
  erewrite lookup_vectorAdd; cycle 1.
  - apply (lookup_matrixMultiply _ _ outputSize); try done.
    + intros Heq. rewrite Heq in Hw2. simpl in Hw2. lia.
    + congruence.
  - apply lookup_item. lia.
  - simpl. do 2 f_equal. rewrite Hw2.
    apply sum_upto_ext. intros h Hh. simpl.
    unfold Spec.item at 1. rewrite lookup_hiddenPost by done. simpl.
    apply Rmult_comm.
Qed.

(** C3.  With an input of [inputSize] entries, [predict] returns the
    [outputSize] values that the specification's formulas give. *)
Theorem predict_formula :
  NN.predict e inputs = Spec.predict inputSize hiddenSize outputSize e inputs.
Proof.
  apply list_eq. intros o. unfold Spec.predict.
  rewrite list_lookup_fmap.
  pose proof (length_outputPre _ _ _ e Hwf inputs) as Hlen.
  change (NN.predict e inputs)
    with (match NN.taskType e with
          | classification => NN.sigmoid <$> NN.predict_outputPre e inputs
          | regression => NN.predict_outputPre e inputs
          end).
  destruct (decide (o < outputSize)%nat) as [Ho|Ho].
  - rewrite lookup_seq_lt by done. simpl. unfold Spec.outputPost.
    destruct (NN.taskType e).
    + by rewrite list_lookup_fmap, lookup_outputPre.
    + by rewrite lookup_outputPre.
  - rewrite lookup_seq_ge by lia. simpl.
    apply lookup_ge_None_2.
    destruct (NN.taskType e); rewrite ?length_fmap; lia.
Qed.

End ForwardReal.

(** ** The loss over the reals *)

Section LossReal.
Local Open Scope R_scope.

Lemma epsilon_bounds : 0 < Spec.epsilon < 1 / 2.
Proof.
  unfold Spec.epsilon.
  assert (10 ^ 12 = 1000000000000) as -> by (simpl; lra).
  lra.
Qed.

Lemma clampOutput_real (output : R) : NN.clampOutput output = Spec.clamp output.
Proof.
  pose proof epsilon_bounds as Heps.
  change (NN.clampOutput output)
    with (Rmax Spec.epsilon (Rmin (1 - Spec.epsilon) output)).
  unfold Spec.clamp, Rmax, Rmin.
  repeat (destruct (Rle_dec _ _)); repeat (destruct (Rlt_dec _ _)); lra.
Qed.

Lemma clamp_range (y : R) : Spec.epsilon <= Spec.clamp y <= 1 - Spec.epsilon.
Proof.
  pose proof epsilon_bounds as Heps. unfold Spec.clamp.
  repeat (destruct (Rlt_dec _ _)); lra.
Qed.

Lemma clamp_complement (y : R) : 1 - Spec.clamp y = Spec.clamp (1 - y).
Proof.
  pose proof epsilon_bounds as Heps. unfold Spec.clamp.
  repeat (destruct (Rlt_dec _ _)); lra.
Qed.

Lemma ln_clamp_nonpos (y : R) : ln (Spec.clamp y) <= 0.
Proof.
  pose proof epsilon_bounds as Heps. pose proof (clamp_range y) as Hy.
  rewrite <- ln_1. left. apply ln_increasing; lra.
Qed.

(** The accumulating loops of the two losses, as sums over the outputs
    paired with the targets. *)
Lemma reduce_from_minus (g : R -> R -> R) (target : list R) (k : nat) (acc : R)
    (l : list R) :
  (k + length l <= length target)%nat ->
  reduce_from (fun sum output i => sum - g (NN.targetAt target i) output) k acc l
  = acc - Spec.total (zip_with g (drop k target) l).
Proof.
  revert k acc. induction l as [|x l IH]; intros k acc Hlen; simpl in *.
  - destruct (drop k target); simpl; lra.
  - destruct (lookup_lt_is_Some_2 target k ltac:(lia)) as [t Ht].
    rewrite (drop_S _ _ _ Ht). simpl. rewrite IH by lia.
    unfold NN.targetAt. rewrite Ht. simpl. lra.
Qed.

Lemma reduce_from_plus (g : R -> R -> R) (target : list R) (k : nat) (acc : R)
    (l : list R) :
  (k + length l <= length target)%nat ->
  reduce_from (fun sum output i => sum + g (NN.targetAt target i) output) k acc l
  = acc + Spec.total (zip_with g (drop k target) l).
Proof.
  revert k acc. induction l as [|x l IH]; intros k acc Hlen; simpl in *.
  - destruct (drop k target); simpl; lra.
  - destruct (lookup_lt_is_Some_2 target k ltac:(lia)) as [t Ht].
    rewrite (drop_S _ _ _ Ht). simpl. rewrite IH by lia.
    unfold NN.targetAt. rewrite Ht. simpl. lra.
Qed.

Lemma zip_with_ext_all {A B C : Type} (f g : A -> B -> C) (l : list A) (k : list B) :
  (forall x y, f x y = g x y) -> zip_with f l k = zip_with g l k.
Proof.
  intros Hfg. revert k. induction l as [|x l IH]; intros [|y k]; simpl; try done.
  by rewrite Hfg, IH.
Qed.

Lemma crossEntropyLoss_formula (outputPost target : list R) :
  length target = length outputPost ->
  NN.crossEntropyLoss outputPost target
  = Spec.loss classification target outputPost.
Proof.
  intros Hlen. unfold NN.crossEntropyLoss, reduce, Spec.loss, Spec.mean.
  rewrite length_zip_with_l_eq by done. rewrite Hlen.
  cbn [add sub mul div Math_log num0 num1 ofLength R_JsNumber].
  rewrite (reduce_from_minus
             (fun t output => t * ln (NN.clampOutput output)
                              + (1 - t) * ln (1 - NN.clampOutput output)))
    by (simpl; lia).
  rewrite drop_0.
  rewrite (zip_with_ext_all _
             (fun t y => t * ln (Spec.clamp y) + (1 - t) * ln (Spec.clamp (1 - y)))).
  - unfold Rdiv. lra.
  - intros t y. by rewrite clampOutput_real, clamp_complement.
Qed.


Lemma squaredErrorLoss_formula (outputPost target : list R) :
  length target = length outputPost ->
  NN.squaredErrorLoss outputPost target
  = Spec.loss regression target outputPost.
Proof.
  intros Hlen. unfold NN.squaredErrorLoss, reduce, Spec.loss, Spec.mean.
  rewrite length_zip_with_l_eq by done. rewrite Hlen.
  cbn [add sub mul div Math_pow2 num0 numHalf ofLength R_JsNumber].
  rewrite (reduce_from_plus (fun t output => 1 / 2 * (t - output) ^ 2))
    by (simpl; lia).
  rewrite drop_0. unfold Rdiv. lra.
Qed.

Lemma total_zip_with_nonneg (g : R -> R -> R) (target l : list R) (P : R -> Prop) :
  Forall P target -> (forall t y, P t -> 0 <= g t y) ->
  0 <= Spec.total (zip_with g target l).
Proof.
  intros Htarget Hg. revert l.
  induction Htarget as [|t target Ht _ IH]; intros [|y l]; simpl; try lra.
  specialize (IH l). specialize (Hg t y Ht). lra.
Qed.

Lemma mean_nonneg (l : list R) : 0 <= Spec.total l -> 0 <= Spec.mean l.
Proof.
  intros Hl. unfold Spec.mean. destruct l as [|x l].
  - simpl. unfold Rdiv. rewrite Rmult_0_l. lra.
  - apply Rmult_le_pos; [done|]. left. apply Rinv_0_lt_compat.
    apply lt_0_INR. simpl. lia.
Qed.

Lemma total_opp (g : R -> R -> R) (target l : list R) :
  Spec.total (zip_with (fun t y => - g t y) target l)
  = - Spec.total (zip_with g target l).
Proof.
  revert l. induction target as [|t target IH]; intros [|y l]; simpl; try lra.
  rewrite IH. lra.
Qed.

Lemma loss_nonneg (task : TaskType) (target outputPost : list R) :
  (task = classification -> Forall (fun t => 0 <= t <= 1) target) ->
  0 <= Spec.loss task target outputPost.
Proof.
  intros Htarget. destruct task; simpl.
  - specialize (Htarget eq_refl).
    set (g := fun t y => t * ln (Spec.clamp y) + (1 - t) * ln (Spec.clamp (1 - y))).
    assert (0 <= Spec.mean (zip_with (fun t y => - g t y) target outputPost)) as Hm.
    { apply mean_nonneg.
      apply (total_zip_with_nonneg _ _ _ (fun t => 0 <= t <= 1)); [done|].
      intros t y Ht. unfold g.
      pose proof (ln_clamp_nonpos y). pose proof (ln_clamp_nonpos (1 - y)). nra. }
    unfold Spec.mean in *. rewrite total_opp in Hm.
    rewrite !length_zip_with in Hm |- *. unfold Rdiv in *. lra.
  - apply mean_nonneg.
    apply (total_zip_with_nonneg _ _ _ (fun _ => True)).
    + by apply Forall_true.
    + intros t y _. pose proof (pow2_ge_0 (t - y)). lra.
Qed.

Variables (inputSize hiddenSize outputSize : nat).
Variable e : NN.NeuralNetwork R.
Hypothesis Hwf : NN.WellFormed inputSize hiddenSize outputSize e.
Variables inputs target : list R.
Hypothesis Hinputs : length inputs = inputSize.
Hypothesis Htarget : length target = outputSize.

Lemma loss_is_spec_loss :
  NN.loss (NN.backward (NN.trainStep e inputs target).1)
  = Spec.loss (NN.taskType e) target
      (NN.f_outputPost (NN.forward (NN.trainStep e inputs target).1)).
Proof.
  pose proof (length_outputPost _ _ _ e Hwf inputs target) as Hlen.
  simpl in *. destruct (NN.taskType e).
  - apply crossEntropyLoss_formula. congruence.
  - apply squaredErrorLoss_formula. congruence.
Qed.


(** C6.  On a well-formed engine and a target with one entry per output,
    the loss of the record is never negative: for regression with any
    target, for classification with every target entry between 0 and 1. *)
Theorem trainStep_loss_nonneg :
  (NN.taskType e = classification -> Forall (fun t => 0 <= t <= 1) target) ->
  0 <= NN.loss (NN.backward (NN.trainStep e inputs target).1).
Proof.
  intros Hrange. rewrite loss_is_spec_loss. by apply loss_nonneg.
Qed.

End LossReal.

Section Clamping.
Local Open Scope R_scope.


End Clamping.

(** ** Inputs of the wrong length *)

Section Mismatch.
Context {N : Type} `{!JsNumber N}.
Local Open Scope num_scope.

Lemma vectorAdd_zeros (n : nat) (b : list N) :
  length b = n ->
  NN.vectorAdd (replicate n num0) b = (fun y => num0 + y) <$> b.
Proof.
  intros Hlen. apply list_eq. intros i. unfold NN.vectorAdd.
  rewrite list_lookup_imap, list_lookup_fmap.
  destruct (decide (i < n)) as [Hi|Hi].
  - rewrite lookup_replicate_2 by done.
    destruct (lookup_lt_is_Some_2 b i ltac:(lia)) as [y Hy]. by rewrite Hy.
  - rewrite (lookup_ge_None_2 b) by lia.
    by rewrite (proj1 (lookup_replicate_None n num0 i)) by lia.
Qed.

(** C9, as the code has it.  When the length of the input differs from
    [inputSize], [predict] still returns [outputSize] values, and no entry
    of the input contributes to them: the product with [weights1] is
    replaced by zeros as a whole, [hiddenPre] is [0 + biases1], and every
    input of a wrong length gets the same answer. *)
Theorem predict_length_mismatch (inputSize hiddenSize outputSize : nat)
    (e : NN.NeuralNetwork N) (inputs : list N) :
  NN.WellFormed inputSize hiddenSize outputSize e ->
  length inputs <> inputSize ->
  length (NN.predict e inputs) = outputSize
  /\ NN.predict_hiddenPre e inputs = (fun b => num0 + b) <$> NN.biases1 e
  /\ forall inputs', length inputs' <> inputSize ->
       NN.predict e inputs' = NN.predict e inputs.
Proof.
  intros Hwf Hlen.
  assert (forall v, length v <> inputSize ->
            NN.predict_hiddenPre e v = (fun b => num0 + b) <$> NN.biases1 e) as Hpre.
  { intros v Hv. destruct Hwf as [? ? ? Hw1 Hr1 Hw2 Hr2 Hb1 Hb2].
    destruct (lookup_lt_is_Some_2 (NN.weights1 e) 0 ltac:(lia)) as [row0 Hrow0].
    unfold NN.predict_hiddenPre.
    rewrite (matrixMultiply_mismatch _ _ row0) by (done || congruence).
    apply vectorAdd_zeros.
    rewrite Hb1. symmetry. exact (Forall_lookup_1 _ _ _ _ Hr1 Hrow0). }
  assert (forall v, NN.predict e v
            = match NN.taskType e with
              | classification => NN.sigmoid <$> NN.predict_outputPre e v
              | regression => NN.predict_outputPre e v
              end) as Hpredict by done.
  split_and!.
  - rewrite Hpredict.
    pose proof (length_outputPre _ _ _ e Hwf inputs) as Hout.
    destruct (NN.taskType e); by rewrite ?length_fmap.
  - by apply Hpre.
  - intros inputs' Hlen'. rewrite !Hpredict.
    unfold NN.predict_outputPre, NN.predict_hiddenPost.
    by rewrite (Hpre inputs), (Hpre inputs').
Qed.

End Mismatch.

Section MismatchReal.
Local Open Scope R_scope.

Lemma predict_length_mismatch_witness :
  NN.predict_hiddenPre ScenarioC.engine [1] = [0 + 1 / 10].
Proof.
  refine (proj1 (proj2 (predict_length_mismatch 2 1 1 ScenarioC.engine [1]
                          scenarioC_wellFormed _))).
  simpl. lia.
Defined.

Lemma scenarioShort_wellFormed : NN.WellFormed 2 1 1 ScenarioShort.engine.
Proof.
  split; simpl; try lia; repeat constructor.
Defined.

(** The claim C9 as stated fails: a short input is not answered as the
    input padded with zeros.  The engine of [ScenarioShort] ignores the
    entry that is present. *)
Lemma predict_short_input_counterexample :
  NN.WellFormed 2 1 1 ScenarioShort.engine
  /\ (length ScenarioShort.inputs < 2)%nat
  /\ ~ Spec.ZeroPadded 2 ScenarioShort.engine ScenarioShort.inputs.
Proof.
  split; [exact scenarioShort_wellFormed|]. split; [simpl; lia|].
  unfold Spec.ZeroPadded. simpl. intros Heq. injection Heq as Heq.
  unfold NN.column in Heq. simpl in Heq.
  replace (- (0 + 0)) with 0 in Heq by lra.
  replace (- (0 + 1 * 1 + 0 * 0 + 0)) with (- 1) in Heq by lra.
  rewrite exp_0 in Heq.
  pose proof (exp_pos (- 1)) as Hpos.
  pose proof (exp_increasing (- 1) 0 ltac:(lra)) as Hlt. rewrite exp_0 in Hlt.
  assert (/ (1 + 1) < / (1 + exp (- 1))) as Hinv
    by (apply Rinv_lt_contravar; nra).
  unfold Rdiv in Heq. lra.
Qed.

End MismatchReal.

Section Witnesses.
Local Open Scope R_scope.

Lemma predict_formula_witness :
  NN.predict ScenarioC.engine ScenarioC.inputs
  = Spec.predict 2 1 1 ScenarioC.engine ScenarioC.inputs.
Proof.
  exact (predict_formula 2 1 1 ScenarioC.engine scenarioC_wellFormed
           ScenarioC.inputs eq_refl).
Defined.


Lemma trainStep_loss_nonneg_witness :
  0 <= NN.loss (NN.backward
                  (NN.trainStep ScenarioC.engine ScenarioC.inputs ScenarioC.target).1).
Proof.
  apply (trainStep_loss_nonneg 2 1 1 ScenarioC.engine scenarioC_wellFormed
           ScenarioC.inputs ScenarioC.target eq_refl).
  intros _. constructor; [lra | constructor].
Defined.


End Witnesses.

(** ** Reading the store *)

Section StoreReads.
Context {N : Type} `{!JsNumber N}.
Implicit Types (s : Store.store N) (l m : Store.loc) (o : Store.object N).
Implicit Types (xs : list N) (xss : list (list N)) (rs : list Store.loc).
Implicit Types (w : Store.Weights) (e : Store.NeuralNetwork N).

Lemma numbersAt_Some l s xs :
  Store.numbersAt l s = Some xs <-> s !! l = Some (Store.Numbers xs).
Proof.
  unfold Store.numbersAt. destruct (s !! l) as [[]|]; naive_solver.
Qed.

Lemma rowsAt_Some l s rs :
  Store.rowsAt l s = Some rs <-> s !! l = Some (Store.Rows rs).
Proof.
  unfold Store.rowsAt. destruct (s !! l) as [[]|]; naive_solver.
Qed.

Lemma matrixAt_Some m s xss :
  Store.matrixAt m s = Some xss
  <-> exists rs, Store.rowsAt m s = Some rs
                 /\ Forall2 (fun r xs => Store.numbersAt r s = Some xs) rs xss.
Proof.
  unfold Store.matrixAt. rewrite bind_Some.
  split; intros (rs & Hrs & Hxss); exists rs; split; try done.
  - by apply mapM_Some_1.
  - by apply mapM_Some_2.
Qed.

Lemma rowsOf_Some m s rs : Store.rowsAt m s = Some rs -> Store.rowsOf m s = rs.
Proof. unfold Store.rowsOf. by intros ->. Qed.

Lemma numbersAt_lt l s xs : Store.numbersAt l s = Some xs -> l < length s.
Proof. rewrite numbersAt_Some. apply lookup_lt_Some. Qed.

Lemma rowsAt_lt l s rs : Store.rowsAt l s = Some rs -> l < length s.
Proof. rewrite rowsAt_Some. apply lookup_lt_Some. Qed.

Lemma matrixAt_lt m s xss :
  Store.matrixAt m s = Some xss ->
  m < length s /\ Forall (fun r => r < length s) (Store.rowsOf m s).
Proof.
  intros (rs & Hrs & Hxss)%matrixAt_Some. rewrite (rowsOf_Some _ _ _ Hrs).
  split; [by eapply rowsAt_lt|]. clear Hrs.
  induction Hxss as [|r xs rs xss Hr _ IH]; [constructor|].
  constructor; [|done].
  by eapply numbersAt_lt.
Qed.

(** A row and its matrix are objects of different kinds. *)
Lemma matrixAt_not_row m s xss : Store.matrixAt m s = Some xss -> m ∉ Store.rowsOf m s.
Proof.
  intros (rs & Hrs & Hxss)%matrixAt_Some. rewrite (rowsOf_Some _ _ _ Hrs).
  intros Hin. apply rowsAt_Some in Hrs.
  destruct (proj1 (list_elem_of_lookup _ _) Hin) as [i Hi].
  destruct (Forall2_lookup_l _ _ _ _ _ Hxss Hi) as (xs & _ & Hxs).
  apply numbersAt_Some in Hxs. congruence.
Qed.

(** *** Allocation keeps what is there *)

Lemma numbersAt_prefix s s' l xs :
  s `prefix_of` s' -> Store.numbersAt l s = Some xs -> Store.numbersAt l s' = Some xs.
Proof.
  rewrite !numbersAt_Some. intros Hpre Hl. by eapply prefix_lookup_Some.
Qed.

Lemma rowsAt_prefix s s' l rs :
  s `prefix_of` s' -> Store.rowsAt l s = Some rs -> Store.rowsAt l s' = Some rs.
Proof.
  rewrite !rowsAt_Some. intros Hpre Hl. by eapply prefix_lookup_Some.
Qed.

Lemma matrixAt_prefix s s' m xss :
  s `prefix_of` s' -> Store.matrixAt m s = Some xss -> Store.matrixAt m s' = Some xss.
Proof.
  intros Hpre (rs & Hrs & Hxss)%matrixAt_Some. apply matrixAt_Some.
  exists rs. split; [by eapply rowsAt_prefix|].
  eapply Forall2_impl; [exact Hxss|]. intros r xs. by apply numbersAt_prefix.
Qed.

Lemma rowsOf_prefix s s' m xss :
  s `prefix_of` s' -> Store.matrixAt m s = Some xss ->
  Store.rowsOf m s' = Store.rowsOf m s.
Proof.
  intros Hpre (rs & Hrs & _)%matrixAt_Some.
  by rewrite (rowsOf_Some _ _ _ Hrs), (rowsOf_Some _ _ _ (rowsAt_prefix _ _ _ _ Hpre Hrs)).
Qed.

(** *** Writes elsewhere keep what is there *)

Lemma SameOff_refl L s : Store.SameOff L s s.
Proof. by split. Qed.

Lemma SameOff_trans L s1 s2 s3 :
  Store.SameOff L s1 s2 -> Store.SameOff L s2 s3 -> Store.SameOff L s1 s3.
Proof.
  intros [Hl1 H1] [Hl2 H2]. split; [congruence|].
  intros l Hl. by rewrite H2, H1.
Qed.

Lemma SameOff_mono L L' s s' : L ⊆ L' -> Store.SameOff L s s' -> Store.SameOff L' s s'.
Proof.
  intros Hsub [Hlen Hs]. split; [done|]. intros l Hl. apply Hs.
  intros Hin. by apply Hl, Hsub.
Qed.

Lemma SameOff_insert l o s : Store.SameOff [l] s (<[l:=o]> s).
Proof.
  split; [apply length_insert|]. intros l' Hl'.
  apply list_lookup_insert_ne. intros ->. apply Hl'. by left.
Qed.

Lemma numbersAt_sameOff L s s' l :
  Store.SameOff L s s' -> l ∉ L -> Store.numbersAt l s' = Store.numbersAt l s.
Proof. intros [_ Hs] Hl. unfold Store.numbersAt. by rewrite Hs. Qed.

Lemma rowsAt_sameOff L s s' l :
  Store.SameOff L s s' -> l ∉ L -> Store.rowsAt l s' = Store.rowsAt l s.
Proof. intros [_ Hs] Hl. unfold Store.rowsAt. by rewrite Hs. Qed.

Lemma matrixAt_sameOff L s s' m :
  Store.SameOff L s s' -> m ∉ L -> (forall r, r ∈ Store.rowsOf m s -> r ∉ L) ->
  Store.matrixAt m s' = Store.matrixAt m s.
Proof.
  intros Hs Hm Hrows. unfold Store.matrixAt.
  rewrite (rowsAt_sameOff L s s') by done.
  unfold Store.rowsOf in Hrows.
  destruct (Store.rowsAt m s) as [rs|]; [|done]. simpl in *.
  apply Forall_mapM_ext. apply Forall_forall. intros r Hr.
  apply (numbersAt_sameOff L); [done|]. by apply Hrows.
Qed.

End StoreReads.

Section StoreRuns.
Context {N : Type} `{!JsNumber N}.
Implicit Types (s : Store.store N) (l m : Store.loc) (o : Store.object N).
Implicit Types (xs : list N) (xss : list (list N)) (rs : list Store.loc).
Implicit Types (w : Store.Weights) (e : Store.NeuralNetwork N).

Lemma bind_run {S A B : Type} (c : Store.M S A) (k : A -> Store.M S B) (s s1 : S) (a : A) :
  c s = Some (a, s1) -> Store.bind c k s = k a s1.
Proof. unfold Store.bind. by intros ->. Qed.

Lemma read_run {A : Type} (f : Store.store N -> option A) s (a : A) :
  f s = Some a -> Store.read f s = Some (a, s).
Proof. unfold Store.read. by intros ->. Qed.

Lemma alloc_spec xs s :
  exists l s', Store.alloc (Store.Numbers xs) s = Some (l, s') /\ Store.NewNumbers s s' l xs.
Proof.
  exists (length s), (s ++ [Store.Numbers xs]). split; [done|].
  split_and!.
  - by apply prefix_app_r.
  - lia.
  - rewrite length_app. simpl. lia.
  - apply numbersAt_Some. by rewrite lookup_app_r, Nat.sub_diag by lia.
Qed.

Lemma copyArray_spec a s xs :
  Store.numbersAt a s = Some xs ->
  exists l s', Store.copyArray a s = Some (l, s') /\ Store.NewNumbers s s' l xs.
Proof.
  intros Ha. unfold Store.copyArray.
  rewrite (bind_run _ _ _ _ _ (read_run _ _ _ Ha)). apply alloc_spec.
Qed.

Lemma forEach_alloc xss s :
  Store.forEach (fun xs => Store.alloc (Store.Numbers xs)) xss s
  = Some (seq (length s) (length xss), s ++ (Store.Numbers <$> xss)).
Proof.
  revert s. induction xss as [|xs xss IH]; intros s; simpl.
  - by rewrite app_nil_r.
  - unfold Store.bind at 1. simpl. unfold Store.bind at 1. rewrite IH.
    rewrite length_app, <- app_assoc. simpl.
    by replace (length s + 1) with (S (length s)) by lia.
Qed.

Lemma forEach_copyArray rs xss s :
  Forall2 (fun r xs => Store.numbersAt r s = Some xs) rs xss ->
  Store.forEach Store.copyArray rs s
  = Some (seq (length s) (length xss), s ++ (Store.Numbers <$> xss)).
Proof.
  intros Hxss. revert s Hxss. revert xss.
  induction rs as [|r rs IH]; intros xss s Hxss.
  - inversion Hxss; subst. simpl. by rewrite app_nil_r.
  - inversion Hxss as [|? xs ? xss' Hr Hrest]; subst. simpl.
    unfold Store.bind at 1. unfold Store.copyArray at 1.
    rewrite (bind_run _ _ _ _ _ (read_run _ _ _ Hr)). simpl.
    unfold Store.bind at 1. rewrite (IH xss').
    + rewrite length_app, <- app_assoc. simpl.
      by replace (length s + 1) with (S (length s)) by lia.
    + eapply Forall2_impl; [exact Hrest|]. intros r' xs'.
      apply numbersAt_prefix. by apply prefix_app_r.
Qed.

(** The objects that a new matrix with rows [xss] adds to [s]. *)
Lemma matrix_block xss s :
  Store.NewMatrix s (s ++ (Store.Numbers <$> xss) ++ [Store.Rows (seq (length s) (length xss))])
            (length s + length xss) xss.
Proof.
  set (s' := s ++ _).
  assert (Store.rowsAt (length s + length xss) s' = Some (seq (length s) (length xss)))
    as Hrows.
  { apply rowsAt_Some. subst s'. rewrite lookup_app_r by lia.
    rewrite lookup_app_r by (rewrite length_fmap; lia).
    rewrite length_fmap. by replace (_ - _ - _) with 0 by lia. }
  assert (length s' = S (length s + length xss)) as Hlen.
  { subst s'. rewrite !length_app, length_fmap. simpl. lia. }
  split_and!.
  - by apply prefix_app_r.
  - lia.
  - lia.
  - rewrite (rowsOf_Some _ _ _ Hrows). apply Forall_seq. lia.
  - rewrite (rowsOf_Some _ _ _ Hrows). apply NoDup_seq.
  - apply matrixAt_Some. eexists. split; [exact Hrows|].
    apply Forall2_same_length_lookup_2.
    + by rewrite length_seq.
    + intros i r xs [-> Hi]%lookup_seq Hxs. apply numbersAt_Some. subst s'.
      rewrite lookup_app_r by lia. rewrite lookup_app_l by (rewrite length_fmap; lia).
      replace (length s + i - length s) with i by lia.
      by rewrite list_lookup_fmap, Hxs.
Qed.

Lemma newMatrix_spec xss s :
  exists m s', Store.newMatrix xss s = Some (m, s') /\ Store.NewMatrix s s' m xss.
Proof.
  eexists _, _. split; [|apply matrix_block].
  unfold Store.newMatrix. rewrite (bind_run _ _ _ _ _ (forEach_alloc _ _)).
  unfold Store.alloc. by rewrite length_app, length_fmap, <- app_assoc.
Qed.

Lemma copyMatrix_spec m0 xss s :
  Store.matrixAt m0 s = Some xss ->
  exists m s', Store.copyMatrix m0 s = Some (m, s') /\ Store.NewMatrix s s' m xss.
Proof.
  intros (rs & Hrs & Hxss)%matrixAt_Some.
  eexists _, _. split; [|apply matrix_block].
  unfold Store.copyMatrix. rewrite (bind_run _ _ _ _ _ (read_run _ _ _ Hrs)).
  rewrite (bind_run _ _ _ _ _ (forEach_copyArray _ _ _ Hxss)).
  unfold Store.alloc. by rewrite length_app, length_fmap, <- app_assoc.
Qed.

End StoreRuns.

Section StoreWeights.
Context {N : Type} `{!JsNumber N}.
Implicit Types (s : Store.store N) (l m : Store.loc) (o : Store.object N).
Implicit Types (xs : list N) (xss : list (list N)) (rs : list Store.loc).
Implicit Types (w : Store.Weights) (e : Store.NeuralNetwork N).
Implicit Types (wv : NN.Weights N) (ev : NN.NeuralNetwork N).

Lemma weightsAt_Some w s wv :
  Store.weightsAt w s = Some wv
  <-> Store.matrixAt (Store.w_weights1 w) s = Some (NN.w_weights1 wv)
      /\ Store.matrixAt (Store.w_weights2 w) s = Some (NN.w_weights2 wv)
      /\ Store.numbersAt (Store.w_biases1 w) s = Some (NN.w_biases1 wv)
      /\ Store.numbersAt (Store.w_biases2 w) s = Some (NN.w_biases2 wv).
Proof.
  unfold Store.weightsAt. destruct wv as [v1 v2 c1 c2]. simpl. split.
  - intros Hw.
    destruct (Store.matrixAt (Store.w_weights1 w) s) as [w1|]; simpl in Hw; [|done].
    destruct (Store.matrixAt (Store.w_weights2 w) s) as [w2|]; simpl in Hw; [|done].
    destruct (Store.numbersAt (Store.w_biases1 w) s) as [b1|]; simpl in Hw; [|done].
    destruct (Store.numbersAt (Store.w_biases2 w) s) as [b2|]; simpl in Hw; [|done].
    by injection Hw as -> -> -> ->.
  - by intros (-> & -> & -> & ->).
Qed.

Lemma engineAt_Some e s ev :
  Store.engineAt e s = Some ev
  <-> Store.weightsAt (Store.refs e) s = Some (NN.getWeights ev)
      /\ NN.learningRate ev = Store.learningRate e
      /\ NN.taskType ev = Store.taskType e.
Proof.
  rewrite weightsAt_Some. unfold Store.engineAt. destruct ev as [v1 v2 c1 c2 r t].
  simpl. split.
  - intros He.
    destruct (Store.matrixAt (Store.weights1 e) s) as [w1|]; simpl in He; [|done].
    destruct (Store.matrixAt (Store.weights2 e) s) as [w2|]; simpl in He; [|done].
    destruct (Store.numbersAt (Store.biases1 e) s) as [b1|]; simpl in He; [|done].
    destruct (Store.numbersAt (Store.biases2 e) s) as [b2|]; simpl in He; [|done].
    by injection He as -> -> -> -> -> ->.
  - by intros ((-> & -> & -> & ->) & -> & ->).
Qed.

Lemma weightsAt_prefix s s' w wv :
  s `prefix_of` s' -> Store.weightsAt w s = Some wv -> Store.weightsAt w s' = Some wv.
Proof.
  rewrite !weightsAt_Some. intros Hpre (H1 & H2 & H3 & H4).
  eauto 8 using matrixAt_prefix, numbersAt_prefix.
Qed.

Lemma engineAt_prefix s s' e ev :
  s `prefix_of` s' -> Store.engineAt e s = Some ev -> Store.engineAt e s' = Some ev.
Proof.
  rewrite !engineAt_Some. intros Hpre (Hw & ? & ?). eauto using weightsAt_prefix.
Qed.

Lemma reachable_prefix s s' w wv :
  s `prefix_of` s' -> Store.weightsAt w s = Some wv ->
  Store.reachable w s' = Store.reachable w s.
Proof.
  intros Hpre (H1 & H2 & _)%weightsAt_Some. unfold Store.reachable.
  by rewrite (rowsOf_prefix _ _ _ _ Hpre H1), (rowsOf_prefix _ _ _ _ Hpre H2).
Qed.

Lemma reachable_lt w s wv :
  Store.weightsAt w s = Some wv ->
  Forall (fun l => l < length s) (Store.reachable w s).
Proof.
  intros (H1 & H2 & H3 & H4)%weightsAt_Some. unfold Store.reachable.
  destruct (matrixAt_lt _ _ _ H1) as [? ?]. destruct (matrixAt_lt _ _ _ H2) as [? ?].
  apply numbersAt_lt in H3. apply numbersAt_lt in H4.
  apply Forall_app. split; [by repeat constructor|]. apply Forall_app. by split.
Qed.

Lemma weightsAt_sameOff L s s' w :
  Store.SameOff L s s' -> (forall l, l ∈ Store.reachable w s -> l ∉ L) ->
  Store.weightsAt w s' = Store.weightsAt w s.
Proof.
  intros Hs Hoff. unfold Store.weightsAt.
  assert (forall l, l ∈ [Store.w_weights1 w; Store.w_weights2 w;
                         Store.w_biases1 w; Store.w_biases2 w] -> l ∉ L) as Htop.
  { intros l Hl. apply Hoff. unfold Store.reachable. apply elem_of_app. by left. }
  rewrite (matrixAt_sameOff L s s' (Store.w_weights1 w)); [|done| |].
  rewrite (matrixAt_sameOff L s s' (Store.w_weights2 w)); [|done| |].
  rewrite (numbersAt_sameOff L s s' (Store.w_biases1 w)); [|done|].
  rewrite (numbersAt_sameOff L s s' (Store.w_biases2 w)); [|done|].
  - done.
  - apply Htop. set_unfold. tauto.
  - apply Htop. set_unfold. tauto.
  - apply Htop. set_unfold. tauto.
  - intros r Hr. apply Hoff. unfold Store.reachable. set_unfold. tauto.
  - apply Htop. set_unfold. tauto.
  - intros r Hr. apply Hoff. unfold Store.reachable. set_unfold. tauto.
Qed.

Lemma engineAt_sameOff L s s' e :
  Store.SameOff L s s' -> (forall l, l ∈ Store.reachable (Store.refs e) s -> l ∉ L) ->
  Store.engineAt e s' = Store.engineAt e s.
Proof.
  intros Hs Hoff. pose proof (weightsAt_sameOff L s s' (Store.refs e) Hs Hoff) as Hw.
  destruct (Store.engineAt e s) as [ev|] eqn:He.
  - apply engineAt_Some in He as (He & ? & ?). apply engineAt_Some.
    by rewrite Hw.
  - destruct (Store.engineAt e s') as [ev|] eqn:He'; [|done].
    apply engineAt_Some in He' as (He' & ? & ?). rewrite Hw in He'.
    assert (Store.engineAt e s = Some ev) as Hev by (by apply engineAt_Some).
    congruence.
Qed.

End StoreWeights.

Section StoreCopies.
Context {N : Type} `{!JsNumber N}.
Implicit Types (s : Store.store N) (l m : Store.loc) (o : Store.object N).
Implicit Types (xs : list N) (xss : list (list N)) (rs : list Store.loc).
Implicit Types (w : Store.Weights) (e : Store.NeuralNetwork N).
Implicit Types (wv : NN.Weights N) (ev : NN.NeuralNetwork N).

Lemma Forall_range_weaken (a b a' b' : nat) (l : list nat) :
  a' <= a -> b <= b' -> Forall (fun x => a <= x < b) l ->
  Forall (fun x => a' <= x < b') l.
Proof.
  intros Ha Hb Hl. eapply Forall_impl; [exact Hl|]. intros x. simpl. lia.
Qed.

(** Four tensors allocated one after the other are the tensors of a new
    [Weights] object. *)
Lemma new_weights s s1 s2 s3 s4 (m1 m2 c1 c2 : Store.loc) wv :
  Store.NewMatrix s s1 m1 (NN.w_weights1 wv) ->
  Store.NewMatrix s1 s2 m2 (NN.w_weights2 wv) ->
  Store.NewNumbers s2 s3 c1 (NN.w_biases1 wv) ->
  Store.NewNumbers s3 s4 c2 (NN.w_biases2 wv) ->
  Store.NewWeights s s4
    {| Store.w_weights1 := m1; Store.w_weights2 := m2;
       Store.w_biases1 := c1; Store.w_biases2 := c2 |} wv.
Proof.
  intros (Hp1 & Hr1 & Hrows1 & Hnd1 & Hm1) (Hp2 & Hr2 & Hrows2 & Hnd2 & Hm2)
         (Hp3 & Hr3 & Hb1) (Hp4 & Hr4 & Hb2).
  assert (s2 `prefix_of` s4) as Hp24 by (by etrans).
  assert (s1 `prefix_of` s4) as Hp14 by (by etrans).
  assert (s `prefix_of` s4) as Hp04 by (by etrans).
  pose proof (prefix_length _ _ Hp1). pose proof (prefix_length _ _ Hp2).
  pose proof (prefix_length _ _ Hp3). pose proof (prefix_length _ _ Hp4).
  pose proof (matrixAt_prefix _ _ _ _ Hp24 Hm2) as Hm2'.
  pose proof (matrixAt_prefix _ _ _ _ Hp14 Hm1) as Hm1'.
  pose proof (matrixAt_not_row _ _ _ Hm1) as Hnr1.
  pose proof (matrixAt_not_row _ _ _ Hm2) as Hnr2.
  unfold Store.NewWeights, Store.reachable. simpl.
  rewrite (rowsOf_prefix _ _ _ _ Hp14 Hm1), (rowsOf_prefix _ _ _ _ Hp24 Hm2).
  split_and!.
  - done.
  - apply weightsAt_Some. simpl. split_and!; try done.
    exact (numbersAt_prefix _ _ _ _ Hp4 Hb1).
  - repeat (apply Forall_cons; split; [lia|]). apply Forall_app. split.
    + eapply Forall_range_weaken; [| |exact Hrows1]; lia.
    + eapply Forall_range_weaken; [| |exact Hrows2]; lia.
  - rewrite Forall_forall in Hrows1, Hrows2.
    repeat (apply NoDup_cons; split).
    + rewrite !not_elem_of_cons, not_elem_of_app. split_and!; try lia; try done.
      intros Hin. specialize (Hrows2 _ Hin). lia.
    + rewrite !not_elem_of_cons, not_elem_of_app. split_and!; try lia; try done.
      intros Hin. specialize (Hrows1 _ Hin). lia.
    + rewrite !not_elem_of_cons, not_elem_of_app. split_and!; try lia.
      * intros Hin. specialize (Hrows1 _ Hin). lia.
      * intros Hin. specialize (Hrows2 _ Hin). lia.
    + rewrite not_elem_of_app. split.
      * intros Hin. specialize (Hrows1 _ Hin). lia.
      * intros Hin. specialize (Hrows2 _ Hin). lia.
    + apply NoDup_app. split_and!; try done.
      intros x Hx Hx'. specialize (Hrows1 _ Hx). specialize (Hrows2 _ Hx'). lia.
Qed.

(** The four copies that [getWeights] and [setWeights] make. *)
Lemma copies_run {B : Type} (k : Store.Weights -> B) w s wv :
  Store.weightsAt w s = Some wv ->
  exists w' s',
    (Store.bind (Store.copyMatrix (Store.w_weights1 w)) (fun m1 =>
     Store.bind (Store.copyMatrix (Store.w_weights2 w)) (fun m2 =>
     Store.bind (Store.copyArray (Store.w_biases1 w)) (fun c1 =>
     Store.bind (Store.copyArray (Store.w_biases2 w)) (fun c2 =>
     Store.ret (k {| Store.w_weights1 := m1; Store.w_weights2 := m2;
                     Store.w_biases1 := c1; Store.w_biases2 := c2 |})))))) s
    = Some (k w', s')
    /\ Store.NewWeights s s' w' wv.
Proof.
  intros (H1 & H2 & H3 & H4)%weightsAt_Some.
  destruct (copyMatrix_spec _ _ _ H1) as (m1 & s1 & Hrun1 & Hnew1).
  pose proof (proj1 Hnew1) as Hp1.
  destruct (copyMatrix_spec _ _ s1 (matrixAt_prefix _ _ _ _ Hp1 H2))
    as (m2 & s2 & Hrun2 & Hnew2).
  assert (s `prefix_of` s2) as Hp02 by (etrans; [exact Hp1|exact (proj1 Hnew2)]).
  destruct (copyArray_spec _ s2 _ (numbersAt_prefix _ _ _ _ Hp02 H3))
    as (c1 & s3 & Hrun3 & Hnew3).
  assert (s `prefix_of` s3) as Hp03 by (etrans; [exact Hp02|exact (proj1 Hnew3)]).
  destruct (copyArray_spec _ s3 _ (numbersAt_prefix _ _ _ _ Hp03 H4))
    as (c2 & s4 & Hrun4 & Hnew4).
  eexists _, s4. split; [|exact (new_weights _ _ _ _ _ _ _ _ _ _ Hnew1 Hnew2 Hnew3 Hnew4)].
  rewrite (bind_run _ _ _ _ _ Hrun1), (bind_run _ _ _ _ _ Hrun2).
  by rewrite (bind_run _ _ _ _ _ Hrun3), (bind_run _ _ _ _ _ Hrun4).
Qed.

Lemma getWeights_spec e s wv :
  Store.weightsAt (Store.refs e) s = Some wv ->
  exists w s', Store.getWeights e s = Some (w, s') /\ Store.NewWeights s s' w wv.
Proof. intros Hw. exact (copies_run (fun w => w) _ _ _ Hw). Qed.

Lemma setWeights_spec e w s wv :
  Store.weightsAt w s = Some wv ->
  exists e' s',
    Store.setWeights e w s = Some (e', s')
    /\ Store.NewWeights s s' (Store.refs e') wv
    /\ Store.learningRate e' = Store.learningRate e
    /\ Store.taskType e' = Store.taskType e.
Proof.
  intros Hw.
  destruct (copies_run
              (fun w' => {| Store.weights1 := Store.w_weights1 w';
                            Store.weights2 := Store.w_weights2 w';
                            Store.biases1 := Store.w_biases1 w';
                            Store.biases2 := Store.w_biases2 w';
                            Store.learningRate := Store.learningRate e;
                            Store.taskType := Store.taskType e |}) _ _ _ Hw)
    as (w' & s' & Hrun & Hnew).
  eexists _, s'. split; [exact Hrun|]. split; [|done]. by destruct w'.
Qed.

(** What [setWeights] establishes: the engine owns its arrays. *)
Lemma setWeights_owned e w s wv e' s' :
  Store.weightsAt w s = Some wv ->
  Store.setWeights e w s = Some (e', s') ->
  Store.Owned e' s'.
Proof.
  intros Hw Hrun.
  destruct (setWeights_spec e w s wv Hw) as (e2 & s2 & Hrun2 & Hnew & Hrate & Htask).
  rewrite Hrun in Hrun2. injection Hrun2 as <- <-.
  destruct Hnew as (_ & Hwv & _ & Hnd). split; [|done].
  exists {| NN.weights1 := NN.w_weights1 wv; NN.weights2 := NN.w_weights2 wv;
            NN.biases1 := NN.w_biases1 wv; NN.biases2 := NN.w_biases2 wv;
            NN.learningRate := Store.learningRate e';
            NN.taskType := Store.taskType e' |}.
  apply engineAt_Some. simpl. split; [|done]. by destruct wv.
Qed.

(** What the constructor establishes: the engine owns its arrays and
    holds the values drawn. *)
Lemma construct_spec (draws1 draws2 : list (list N)) (drawsB1 drawsB2 : list N)
    (rate : N) (task : TaskType) s :
  exists e s',
    Store.construct draws1 draws2 drawsB1 drawsB2 rate task s = Some (e, s')
    /\ s `prefix_of` s'
    /\ Store.engineAt e s'
       = Some (NN.construct draws1 draws2 drawsB1 drawsB2 rate task)
    /\ Store.Owned e s'.
Proof.
  destruct (newMatrix_spec (NN.randomMatrix draws1) s) as (m1 & s1 & Hrun1 & Hnew1).
  destruct (newMatrix_spec (NN.randomMatrix draws2) s1) as (m2 & s2 & Hrun2 & Hnew2).
  destruct (alloc_spec (NN.randomArray drawsB1) s2) as (c1 & s3 & Hrun3 & Hnew3).
  destruct (alloc_spec (NN.randomArray drawsB2) s3) as (c2 & s4 & Hrun4 & Hnew4).
  destruct (new_weights s s1 s2 s3 s4 m1 m2 c1 c2
              (NN.getWeights (NN.construct draws1 draws2 drawsB1 drawsB2 rate task))
              Hnew1 Hnew2 Hnew3 Hnew4) as (Hp & Hw & _ & Hnd).
  assert (Store.engineAt
            {| Store.weights1 := m1; Store.weights2 := m2;
               Store.biases1 := c1; Store.biases2 := c2;
               Store.learningRate := rate; Store.taskType := task |} s4
          = Some (NN.construct draws1 draws2 drawsB1 drawsB2 rate task)) as He.
  { by apply engineAt_Some. }
  eexists _, s4. split_and!; [|exact Hp|exact He|split; [by eexists|exact Hnd]].
  unfold Store.construct.
  rewrite (bind_run _ _ _ _ _ Hrun1), (bind_run _ _ _ _ _ Hrun2).
  by rewrite (bind_run _ _ _ _ _ Hrun3), (bind_run _ _ _ _ _ Hrun4).
Qed.

Lemma predictAt_value e s ev inputs xs :
  Store.engineAt e s = Some ev -> Store.numbersAt inputs s = Some xs ->
  Store.predictAt e inputs s = Some (NN.predict ev xs).
Proof.
  intros He Hxs. unfold Store.predictAt, Store.predict.
  rewrite (bind_run _ _ _ _ _ (read_run _ _ _ He)).
  rewrite (bind_run _ _ _ _ _ (read_run _ _ _ Hxs)).
  destruct (alloc_spec (NN.predict ev xs) s) as (l & s' & -> & _ & _ & Hl). done.
Qed.

Lemma predictAt_None e s inputs :
  Store.numbersAt inputs s = None -> Store.predictAt e inputs s = None.
Proof.
  intros Hxs. unfold Store.predictAt, Store.predict, Store.bind, Store.read.
  destruct (Store.engineAt e s); [|done]. by rewrite Hxs.
Qed.

(** C8.  For an engine that holds the values [ev]: [getWeights]
    followed by [setWeights] of the object it returned leaves an engine
    that holds the same values, so that [predict] returns the same values
    as before for every input array; no write to an array reachable from
    the object that [getWeights] returned changes the values the engine
    holds; and after [setWeights weights], no write to an array reachable
    from [weights] changes the values the engine holds. *)
Theorem getWeights_setWeights_copies e s ev weights wv :
  Store.engineAt e s = Some ev ->
  Store.weightsAt weights s = Some wv ->
  (exists w s1 e2 s2,
     Store.getWeights e s = Some (w, s1)
     /\ Store.setWeights e w s1 = Some (e2, s2)
     /\ Store.engineAt e2 s2 = Some ev
     /\ (forall inputs, inputs < length s ->
           Store.predictAt e2 inputs s2 = Store.predictAt e inputs s)
     /\ (forall l o, l ∈ Store.reachable w s1 ->
           Store.engineAt e (<[l:=o]> s1) = Some ev))
  /\ (exists e3 s3,
        Store.setWeights e weights s = Some (e3, s3)
        /\ Store.engineAt e3 s3 = Some (NN.setWeights ev wv)
        /\ (forall l o, l ∈ Store.reachable weights s3 ->
              Store.engineAt e3 (<[l:=o]> s3) = Some (NN.setWeights ev wv))).
Proof.
  intros He Hweights. pose proof He as (Hw & Hrate & Htask)%engineAt_Some. split.
  - destruct (getWeights_spec e s _ Hw) as (w & s1 & Hget & Hp1 & Hw1 & Hfresh1 & _).
    destruct (setWeights_spec e w s1 _ Hw1)
      as (e2 & s2 & Hset & (Hp2 & Hw2 & _ & _) & Hrate2 & Htask2).
    assert (Store.engineAt e2 s2 = Some ev) as He2.
    { apply engineAt_Some. split; [done|]. split; congruence. }
    exists w, s1, e2, s2. split_and!; try done.
    + intros inputs Hin.
      destruct (Store.numbersAt inputs s) as [xs|] eqn:Hxs.
      * rewrite (predictAt_value e s ev inputs xs) by done.
        apply predictAt_value; [done|].
        eapply numbersAt_prefix; [|exact Hxs]. by etrans.
      * rewrite (predictAt_None e s) by done. apply predictAt_None.
        unfold Store.numbersAt in *.
        rewrite <- (prefix_lookup_lt s s2 inputs) by (done || by etrans). done.
    + intros l o Hl.
      rewrite (engineAt_sameOff [l] s1 (<[l:=o]> s1)).
      * by eapply engineAt_prefix.
      * apply SameOff_insert.
      * intros l' Hl' ->%list_elem_of_singleton.
        rewrite (reachable_prefix _ _ _ _ Hp1 Hw) in Hl'.
        pose proof (reachable_lt _ _ _ Hw) as Hlt.
        rewrite Forall_forall in Hlt, Hfresh1.
        specialize (Hlt _ Hl'). specialize (Hfresh1 _ Hl). lia.
  - destruct (setWeights_spec e weights s _ Hweights)
      as (e3 & s3 & Hset & (Hp3 & Hw3 & Hfresh3 & _) & Hrate3 & Htask3).
    assert (Store.engineAt e3 s3 = Some (NN.setWeights ev wv)) as He3.
    { apply engineAt_Some. split_and!.
      - by destruct wv.
      - simpl. congruence.
      - simpl. congruence. }
    exists e3, s3. split_and!; try done.
    intros l o Hl.
    rewrite (engineAt_sameOff [l] s3 (<[l:=o]> s3)); [done|apply SameOff_insert|].
    intros l' Hl' ->%list_elem_of_singleton.
    rewrite (reachable_prefix _ _ _ _ Hp3 Hweights) in Hl.
    pose proof (reachable_lt _ _ _ Hweights) as Hlt.
    rewrite Forall_forall in Hlt, Hfresh3.
    specialize (Hlt _ Hl). specialize (Hfresh3 _ Hl'). lia.
Qed.

End StoreCopies.

Section StoreUpdates.
Context {N : Type} `{!JsNumber N}.
Implicit Types (s : Store.store N) (l m : Store.loc) (o : Store.object N).
Implicit Types (xs : list N) (xss : list (list N)) (rs : list Store.loc).
Implicit Types (w : Store.Weights) (e : Store.NeuralNetwork N).
Implicit Types (wv : NN.Weights N) (ev : NN.NeuralNetwork N).

Lemma assign_run l o s :
  l < length s -> Store.assign l o s = Some (tt, <[l:=o]> s).
Proof. intros Hl. unfold Store.assign. by case_decide. Qed.

Lemma numbersAt_insert_eq l xs s :
  l < length s -> Store.numbersAt l (<[l:=Store.Numbers xs]> s) = Some xs.
Proof.
  intros Hl. apply numbersAt_Some. by apply list_lookup_insert_eq.
Qed.

Lemma peek_run {A : Type} (f : Store.store N -> option A) s :
  Store.peek f s = Some (f s, s).
Proof. done. Qed.

Lemma setItem_run (a : Store.loc) (i : nat) (v : N) (cur : list N) s :
  a < length s ->
  Store.setItem a i v (<[a:=Store.Numbers cur]> s)
  = Some (tt, <[a:=Store.Numbers (<[i:=v]> cur)]> s).
Proof.
  intros Ha. unfold Store.setItem.
  rewrite (bind_run _ _ _ _ _ (read_run _ _ _ (numbersAt_insert_eq a cur s Ha))).
  rewrite assign_run by (by rewrite length_insert).
  by rewrite list_insert_insert_eq.
Qed.

Lemma forIndices_app {T : Type} (body : nat -> Store.M T unit) (ks ks' : list nat) (s : T) :
  Store.forIndices body (ks ++ ks') s
  = Store.bind (Store.forIndices body ks) (fun _ => Store.forIndices body ks') s.
Proof.
  revert s. induction ks as [|k ks IH]; intros s; [done|].
  simpl. unfold Store.bind in *. destruct (body k s) as [[[] s1]|]; [|done].
  apply IH.
Qed.

Lemma forUpTo_S {T : Type} (n : nat) (body : nat -> Store.M T unit) (s s1 : T) :
  Store.forUpTo n body s = Some (tt, s1) ->
  Store.forUpTo (S n) body s = body n s1.
Proof.
  intros Hn. unfold Store.forUpTo in *. rewrite seq_S, forIndices_app.
  rewrite (bind_run _ _ _ _ _ Hn). simpl.
  unfold Store.bind. destruct (body n s1) as [[[] s2]|]; done.
Qed.

(** The next cell of an array that a loop has rewritten up to [k]. *)
Lemma rewritten_next (upd xs : list N) (k : nat) (v : N) :
  length upd = length xs -> k < length xs -> upd !! k = Some v ->
  <[k:=v]> (take k upd ++ drop k xs) = take (S k) upd ++ drop (S k) xs.
Proof.
  intros Hlen Hk Hv.
  destruct (lookup_lt_is_Some_2 xs k Hk) as [x Hx].
  rewrite (drop_S _ _ _ Hx), (take_S_r _ _ _ Hv), <- app_assoc. simpl.
  rewrite insert_app_r_alt by (rewrite length_take; lia).
  rewrite length_take. by replace (k - k `min` length upd) with 0 by lia.
Qed.

Lemma rewritten_lookup (upd xs : list N) (k : nat) :
  length upd = length xs -> k <= length xs ->
  (take k upd ++ drop k xs) !! k = xs !! k.
Proof.
  intros Hlen Hk. rewrite lookup_app_r by (rewrite length_take; lia).
  rewrite length_take, lookup_drop. f_equal. lia.
Qed.

(** A loop over the indices of the array at [a] whose body rewrites cell
    [k] to [upd k x], where [x] is the value the cell has, maps [upd] over
    the array in place. *)
Lemma inplace_loop (a : Store.loc) (xs : list N) (upd : nat -> N -> N)
    (body : nat -> Store.M (Store.store N) unit) s :
  Store.numbersAt a s = Some xs ->
  (forall k x cur, xs !! k = Some x -> cur !! k = Some x ->
     body k (<[a:=Store.Numbers cur]> s)
     = Some (tt, <[a:=Store.Numbers (<[k:=upd k x]> cur)]> s)) ->
  Store.forUpTo (length xs) body s = Some (tt, <[a:=Store.Numbers (imap upd xs)]> s).
Proof.
  intros Ha Hbody.
  assert (forall k, k <= length xs ->
            Store.forUpTo k body s
            = Some (tt, <[a:=Store.Numbers (take k (imap upd xs) ++ drop k xs)]> s))
    as Hloop.
  { induction k as [|k IH]; intros Hk.
    - simpl. rewrite drop_0. unfold Store.forUpTo. simpl. unfold Store.ret.
      rewrite list_insert_id; [done|]. by apply numbersAt_Some.
    - rewrite (forUpTo_S _ _ _ _ (IH ltac:(lia))).
      destruct (lookup_lt_is_Some_2 xs k ltac:(lia)) as [x Hx].
      rewrite (Hbody k x) by
        (done || (rewrite rewritten_lookup by (rewrite ?length_imap; lia); done)).
      rewrite rewritten_next; [done| |lia|].
      + by rewrite length_imap.
      + by rewrite list_lookup_imap, Hx. }
  rewrite (Hloop (length xs)) by lia.
  rewrite take_ge by (rewrite length_imap; lia).
  rewrite drop_ge by lia. by rewrite app_nil_r.
Qed.


Lemma cellAt_matrixAt (m : Store.loc) (i j : nat) s xss :
  Store.matrixAt m s = Some xss -> Store.cellAt m i j s = cell xss i j.
Proof.
  intros (rs & Hrs & Hxss)%matrixAt_Some.
  unfold Store.cellAt, Store.rowAt, Store.itemAt, cell. rewrite Hrs. simpl.
  destruct (rs !! i) as [r|] eqn:Hr; simpl.
  - destruct (Forall2_lookup_l _ _ _ _ _ Hxss Hr) as (xs & -> & ->). done.
  - apply lookup_ge_None in Hr. rewrite (Forall2_length _ _ _ Hxss) in Hr.
    by rewrite (lookup_ge_None_2 xss i).
Qed.

Lemma itemAt_numbersAt (a : Store.loc) (i : nat) s xs :
  Store.numbersAt a s = Some xs -> Store.itemAt a i s = xs !! i.
Proof. unfold Store.itemAt. by intros ->. Qed.

(** The inner loop on row [i] of the engine's matrix [mw]. *)
Lemma updateRow_run (rate : N) (mw mg : Store.loc) (i : nat) (r : Store.loc) s xs
    (g : list (list N)) :
  Store.rowAt mw i s = Some r ->
  Store.numbersAt r s = Some xs ->
  Store.matrixAt mg s = Some g ->
  r ∉ Store.rowsOf mg s ->
  Store.forUpTo (length xs) (fun j =>
    Store.bind (Store.peek (Store.cellAt mw i j)) (fun x =>
    Store.bind (Store.peek (Store.cellAt mg i j)) (fun gv =>
    match x, gv with
    | Some x, Some gv => Store.setItem r j (sub x (mul rate gv))
    | _, _ => Store.ret tt
    end))) s
  = Some (tt, <[r:=Store.Numbers (NN.updateRow rate g i xs)]> s).
Proof.
  intros Hrow Hr Hg Hnotin. pose proof (numbersAt_lt _ _ _ Hr) as Hlt.
  apply (inplace_loop r xs
           (fun j x => match cell g i j with
                       | Some gv => sub x (mul rate gv)
                       | None => x
                       end)); [done|].
  intros k x cur Hx Hcur.
  assert (Store.SameOff [r] s (<[r:=Store.Numbers cur]> s)) as Hs by apply SameOff_insert.
  assert (mw <> r) as Hmw.
  { intros ->. unfold Store.rowAt in Hrow. apply numbersAt_Some in Hr.
    unfold Store.rowsAt in Hrow. by rewrite Hr in Hrow. }
  assert (mg <> r) as Hmg.
  { intros ->. apply numbersAt_Some in Hr.
    apply matrixAt_Some in Hg as (rs & Hrs%rowsAt_Some & _). congruence. }
  assert (Store.cellAt mw i k (<[r:=Store.Numbers cur]> s) = Some x) as Hcw.
  { unfold Store.cellAt, Store.rowAt.
    rewrite (rowsAt_sameOff [r] s) by (done || by intros ?%list_elem_of_singleton).
    unfold Store.rowAt in Hrow. rewrite Hrow. simpl.
    by rewrite (itemAt_numbersAt r k _ cur) by (by apply numbersAt_insert_eq). }
  assert (Store.cellAt mg i k (<[r:=Store.Numbers cur]> s) = cell g i k) as Hcg.
  { apply cellAt_matrixAt. rewrite (matrixAt_sameOff [r] s); [done|done| |].
    - by intros ?%list_elem_of_singleton.
    - intros r' Hr' ->%list_elem_of_singleton. done. }
  rewrite (bind_run _ _ _ _ _ (peek_run _ _)), Hcw.
  rewrite (bind_run _ _ _ _ _ (peek_run _ _)), Hcg.
  destruct (cell g i k) as [gv|].
  - by apply setItem_run.
  - unfold Store.ret. by rewrite (list_insert_id cur k x).
Qed.

Lemma updateMatrix_spec (rate : N) (mw mg : Store.loc) s xss (g : list (list N)) :
  Store.matrixAt mw s = Some xss ->
  NoDup (Store.rowsOf mw s) ->
  Store.matrixAt mg s = Some g ->
  mg ∉ Store.rowsOf mw s ->
  (forall r, r ∈ Store.rowsOf mg s -> r ∉ Store.rowsOf mw s) ->
  exists s',
    Store.updateMatrix rate mw mg s = Some (tt, s')
    /\ Store.SameOff (Store.rowsOf mw s) s s'
    /\ Store.matrixAt mw s' = Some (NN.updateMatrix rate xss g).
Proof.
  intros Hw Hnd Hg Hmg Hgrows. pose proof (matrixAt_not_row _ _ _ Hw) as Hnr.
  destruct (proj1 (matrixAt_Some _ _ _) Hw) as (rs & Hrs & Hxss).
  rewrite (rowsOf_Some _ _ _ Hrs) in *.
  pose proof (Forall2_length _ _ _ Hxss) as Hlen.
  set (upd := NN.updateMatrix rate xss g).
  set (body := fun i : nat =>
    Store.bind (Store.read (Store.rowAt mw i)) (fun r =>
    Store.bind (Store.read (Store.lengthAt r)) (fun n =>
    Store.forUpTo n (fun j =>
      Store.bind (Store.peek (Store.cellAt mw i j)) (fun x =>
      Store.bind (Store.peek (Store.cellAt mg i j)) (fun gv =>
      match x, gv with
      | Some x, Some gv => Store.setItem r j (sub x (mul rate gv))
      | _, _ => Store.ret tt
      end)))))).
  assert (forall k, k <= length rs ->
            exists s', Store.forUpTo k body s = Some (tt, s')
                       /\ Store.SameOff rs s s'
                       /\ forall j r, rs !! j = Some r ->
                            Store.numbersAt r s'
                            = if decide (j < k) then upd !! j else xss !! j)
    as Hloop.
  { induction k as [|k IH]; intros Hk.
    - exists s. split_and!; [done|apply SameOff_refl|].
      intros j r Hj. rewrite decide_False by lia.
      destruct (Forall2_lookup_l _ _ _ _ _ Hxss Hj) as (xs & -> & ->). done.
    - destruct (IH ltac:(lia)) as (s1 & Hrun & Hsame & Hinv).
      destruct (lookup_lt_is_Some_2 rs k ltac:(lia)) as [r Hr].
      destruct (Forall2_lookup_l _ _ _ _ _ Hxss Hr) as (xs & Hxs & _).
      assert (Store.numbersAt r s1 = Some xs) as Hr1.
      { rewrite (Hinv k r Hr). by rewrite decide_False by lia. }
      assert (r ∈ rs) as Hrin by (by eapply list_elem_of_lookup_2).
      assert (Store.rowAt mw k s1 = Some r) as Hrow.
      { unfold Store.rowAt. rewrite (rowsAt_sameOff rs s s1) by done.
        rewrite Hrs. done. }
      assert (Store.matrixAt mg s1 = Some g /\ Store.rowsOf mg s1 = Store.rowsOf mg s)
        as [Hg1 Hgrows1].
      { split.
        - rewrite (matrixAt_sameOff rs s s1); done.
        - unfold Store.rowsOf. by rewrite (rowsAt_sameOff rs s s1). }
      pose proof (updateRow_run rate mw mg k r s1 xs g Hrow Hr1 Hg1
                    ltac:(rewrite Hgrows1; intros Hin; by apply (Hgrows r))) as Hinner.
      eexists. split_and!.
      + rewrite (forUpTo_S _ _ _ _ Hrun). unfold body at 1.
        rewrite (bind_run _ _ _ _ _ (read_run _ _ _ Hrow)).
        assert (Store.lengthAt r s1 = Some (length xs)) as Hlr
          by (unfold Store.lengthAt; by rewrite Hr1).
        rewrite (bind_run _ _ _ _ _ (read_run _ _ _ Hlr)). exact Hinner.
      + eapply SameOff_trans; [exact Hsame|].
        eapply SameOff_mono; [|apply SameOff_insert].
        by intros x ->%list_elem_of_singleton.
      + intros j r' Hj.
        destruct (decide (j = k)) as [->|Hne].
        * assert (r' = r) as -> by congruence.
          rewrite decide_True by lia.
          rewrite numbersAt_insert_eq by (by eapply numbersAt_lt).
          unfold upd, NN.updateMatrix. by rewrite list_lookup_imap, Hxs.
        * assert (r' <> r) as Hrr.
          { intros ->. by apply Hne, (NoDup_lookup rs j k r). }
          rewrite (numbersAt_sameOff [r] s1).
          -- rewrite (Hinv j r' Hj). repeat case_decide; done || lia.
          -- apply SameOff_insert.
          -- by intros ?%list_elem_of_singleton. }
  destruct (Hloop (length rs) ltac:(lia)) as (s' & Hrun & Hsame & Hinv).
  exists s'. split_and!; [|done|].
  - unfold Store.updateMatrix. by rewrite (bind_run _ _ _ _ _ (read_run _ _ _ Hrs)).
  - apply matrixAt_Some. exists rs. split.
    + by rewrite (rowsAt_sameOff rs s s').
    + apply Forall2_same_length_lookup. split.
      * unfold upd, NN.updateMatrix. by rewrite length_imap.
      * intros j r xs Hj Hxs. rewrite (Hinv j r Hj).
        rewrite decide_True by (by eapply lookup_lt_Some). done.
Qed.

Lemma updateVector_spec (rate : N) (b bg : Store.loc) s xs (g : list N) :
  Store.numbersAt b s = Some xs ->
  Store.numbersAt bg s = Some g ->
  b <> bg ->
  exists s',
    Store.updateVector rate b bg s = Some (tt, s')
    /\ Store.SameOff [b] s s'
    /\ Store.numbersAt b s' = Some (NN.updateVector rate xs g).
Proof.
  intros Hb Hg Hne. pose proof (numbersAt_lt _ _ _ Hb) as Hlt.
  eexists. split_and!.
  - unfold Store.updateVector.
    assert (Store.lengthAt b s = Some (length xs)) as Hlen
      by (unfold Store.lengthAt; by rewrite Hb).
    rewrite (bind_run _ _ _ _ _ (read_run _ _ _ Hlen)).
    apply (inplace_loop b xs
             (fun i x => match g !! i with
                         | Some gv => sub x (mul rate gv)
                         | None => x
                         end)); [done|].
    intros k x cur Hx Hcur.
    rewrite (bind_run _ _ _ _ _ (peek_run _ _)).
    rewrite (itemAt_numbersAt b k _ cur) by (by apply numbersAt_insert_eq).
    rewrite Hcur.
    rewrite (bind_run _ _ _ _ _ (peek_run _ _)).
    rewrite (itemAt_numbersAt bg k _ g); cycle 1.
    { rewrite (numbersAt_sameOff [b] s); [done|apply SameOff_insert|].
      intros ?%list_elem_of_singleton. congruence. }
    destruct (g !! k) as [gv|].
    + by apply setItem_run.
    + unfold Store.ret. by rewrite (list_insert_id cur k x).
  - apply SameOff_insert.
  - by apply numbersAt_insert_eq.
Qed.

End StoreUpdates.

Section StoreFresh.
Context {N : Type} `{!JsNumber N}.
Implicit Types (s : Store.store N) (l m : Store.loc) (o : Store.object N).
Implicit Types (xs : list N) (xss : list (list N)) (rs : list Store.loc).
Implicit Types (w : Store.Weights) (e : Store.NeuralNetwork N).
Implicit Types (wv : NN.Weights N) (ev : NN.NeuralNetwork N).

Lemma NewNumbers_fresh n s s' l xs :
  Store.NewNumbers s s' l xs -> n <= length s -> Store.FreshNumbers n s' l xs.
Proof. intros (_ & Hr & Hl) Hn. split; [lia|done]. Qed.

Lemma NewMatrix_fresh n s s' m xss :
  Store.NewMatrix s s' m xss -> n <= length s -> Store.FreshMatrix n s' m xss.
Proof.
  intros (_ & Hr & Hrows & _ & Hm) Hn. split_and!; [lia| |done].
  eapply Forall_impl; [exact Hrows|]. intros r. simpl. lia.
Qed.

Lemma FreshNumbers_prefix n s s' l xs :
  s `prefix_of` s' -> Store.FreshNumbers n s l xs -> Store.FreshNumbers n s' l xs.
Proof. intros Hp [Hn Hl]. split; [done|]. by eapply numbersAt_prefix. Qed.

Lemma FreshMatrix_prefix n s s' m xss :
  s `prefix_of` s' -> Store.FreshMatrix n s m xss -> Store.FreshMatrix n s' m xss.
Proof.
  intros Hp (Hn & Hrows & Hm). split_and!; [done| |by eapply matrixAt_prefix].
  by rewrite (rowsOf_prefix _ _ _ _ Hp Hm).
Qed.

Lemma below_not_fresh (n : nat) (L : list nat) (l : nat) :
  Forall (fun x => x < n) L -> n <= l -> l ∉ L.
Proof.
  rewrite Forall_forall. intros HL Hl Hin. specialize (HL _ Hin). lia.
Qed.

Lemma FreshNumbers_sameOff n L s s' l xs :
  Store.SameOff L s s' -> Forall (fun x => x < n) L ->
  Store.FreshNumbers n s l xs -> Store.FreshNumbers n s' l xs.
Proof.
  intros Hs HL [Hn Hl]. split; [done|].
  rewrite (numbersAt_sameOff L s s'); [done|done|]. by eapply below_not_fresh.
Qed.

Lemma matrixAt_sameOff_rows L s s' m xss :
  Store.SameOff L s s' -> Store.matrixAt m s = Some xss ->
  m ∉ L -> (forall r, r ∈ Store.rowsOf m s -> r ∉ L) ->
  Store.matrixAt m s' = Some xss /\ Store.rowsOf m s' = Store.rowsOf m s.
Proof.
  intros Hs Hm HmL Hrows. split.
  - by rewrite (matrixAt_sameOff L s s').
  - unfold Store.rowsOf. by rewrite (rowsAt_sameOff L s s').
Qed.

Lemma FreshMatrix_sameOff n L s s' m xss :
  Store.SameOff L s s' -> Forall (fun x => x < n) L ->
  Store.FreshMatrix n s m xss -> Store.FreshMatrix n s' m xss.
Proof.
  intros Hs HL (Hn & Hrows & Hm).
  destruct (matrixAt_sameOff_rows L s s' m xss Hs Hm) as [Hm' Hrows'].
  - by eapply below_not_fresh.
  - intros r Hr. eapply below_not_fresh; [done|].
    rewrite Forall_forall in Hrows. by apply Hrows.
  - split_and!; [done| |done]. by rewrite Hrows'.
Qed.

Lemma FreshMatrix_apart n L s m xss :
  Store.FreshMatrix n s m xss -> Forall (fun x => x < n) L ->
  (m ∉ L) /\ forall r, r ∈ Store.rowsOf m s -> r ∉ L.
Proof.
  intros (Hn & Hrows & _) HL. split; [by eapply below_not_fresh|].
  intros r Hr. eapply below_not_fresh; [done|].
  rewrite Forall_forall in Hrows. by apply Hrows.
Qed.

Lemma updates_run e s ev (n : nat) (mg2 mg1 lb2 lb1 : Store.loc)
    (g2 g1 : list (list N)) (gb2 gb1 : list N) :
  Store.engineAt e s = Some ev ->
  NoDup (Store.reachable (Store.refs e) s) ->
  Forall (fun x => x < n) (Store.reachable (Store.refs e) s) ->
  Store.FreshMatrix n s mg2 g2 -> Store.FreshMatrix n s mg1 g1 ->
  Store.FreshNumbers n s lb2 gb2 -> Store.FreshNumbers n s lb1 gb1 ->
  exists s1 s2 s3 s4,
    Store.updateMatrix (NN.learningRate ev) (Store.weights2 e) mg2 s = Some (tt, s1)
    /\ Store.updateMatrix (NN.learningRate ev) (Store.weights1 e) mg1 s1 = Some (tt, s2)
    /\ Store.updateVector (NN.learningRate ev) (Store.biases2 e) lb2 s2 = Some (tt, s3)
    /\ Store.updateVector (NN.learningRate ev) (Store.biases1 e) lb1 s3 = Some (tt, s4)
    /\ Store.SameOff (Store.reachable (Store.refs e) s) s s4
    /\ Store.engineAt e s4 = Some (NN.updated ev g1 g2 gb1 gb2)
    /\ Store.reachable (Store.refs e) s4 = Store.reachable (Store.refs e) s.
Proof.
  intros He Hnd Hlt Hg2 Hg1 Hgb2 Hgb1.
  pose proof He as ((Hw1 & Hw2 & Hb1 & Hb2)%weightsAt_Some & Hrate & Htask)%engineAt_Some.
  simpl in Hw1, Hw2, Hb1, Hb2.
  unfold Store.reachable in *. simpl in Hnd, Hlt |- *.
  pose proof (matrixAt_not_row _ _ _ Hw1) as Hnr1.
  pose proof (matrixAt_not_row _ _ _ Hw2) as Hnr2.
  set (rows1 := Store.rowsOf (Store.weights1 e) s) in *.
  set (rows2 := Store.rowsOf (Store.weights2 e) s) in *.
  assert (Forall (fun x => x < n) rows1 /\ Forall (fun x => x < n) rows2
          /\ Store.biases1 e < n /\ Store.biases2 e < n) as (Hlt1 & Hlt2 & Hltb1 & Hltb2).
  { rewrite !Forall_cons, Forall_app in Hlt. tauto. }
  assert (NoDup rows1 /\ NoDup rows2 /\ (forall x, x ∈ rows1 -> x ∉ rows2)
          /\ (Store.weights1 e ∉ rows2) /\ (Store.weights2 e ∉ rows1)
          /\ (Store.biases1 e ∉ rows1) /\ (Store.biases1 e ∉ rows2)
          /\ (Store.biases2 e ∉ rows1) /\ (Store.biases2 e ∉ rows2)
          /\ Store.weights1 e <> Store.biases1 e /\ Store.weights1 e <> Store.biases2 e
          /\ Store.weights2 e <> Store.biases1 e /\ Store.weights2 e <> Store.biases2 e
          /\ Store.biases1 e <> Store.biases2 e)
    as (Hnd1 & Hnd2 & Hdisj & Hw1r2 & Hw2r1 & Hb1r1 & Hb1r2 & Hb2r1 & Hb2r2
        & Hw1b1 & Hw1b2 & Hw2b1 & Hw2b2 & Hb1b2).
  { rewrite !NoDup_cons, NoDup_app, !not_elem_of_cons, !not_elem_of_app in Hnd.
    tauto. }
  (* weights2 *)
  destruct (FreshMatrix_apart n rows2 _ _ _ Hg2 Hlt2) as [Hg2a Hg2b].
  destruct (updateMatrix_spec (NN.learningRate ev) _ mg2 s _ g2 Hw2 Hnd2
              (proj2 (proj2 Hg2)) Hg2a Hg2b)
    as (s1 & Hrun1 & Hs1 & Hw2').
  fold rows2 in Hs1.
  destruct (matrixAt_sameOff_rows rows2 s s1 _ _ Hs1 Hw1 Hw1r2 Hdisj) as [Hw1' Hrows1'].
  assert (Store.rowsOf (Store.weights2 e) s1 = rows2) as Hrows2'.
  { unfold Store.rowsOf. by rewrite (rowsAt_sameOff rows2 s s1). }
  pose proof (FreshMatrix_sameOff n _ _ _ _ _ Hs1 Hlt2 Hg1) as Hg1'.
  pose proof (FreshNumbers_sameOff n _ _ _ _ _ Hs1 Hlt2 Hgb2) as Hgb2'.
  pose proof (FreshNumbers_sameOff n _ _ _ _ _ Hs1 Hlt2 Hgb1) as Hgb1'.
  (* weights1 *)
  destruct (FreshMatrix_apart n rows1 _ _ _ Hg1' Hlt1) as [Hg1a Hg1b].
  destruct (updateMatrix_spec (NN.learningRate ev) _ mg1 s1 _ g1 Hw1'
              ltac:(by rewrite Hrows1') (proj2 (proj2 Hg1'))
              ltac:(by rewrite Hrows1') ltac:(by rewrite Hrows1'))
    as (s2 & Hrun2 & Hs2 & Hw1'').
  rewrite Hrows1' in Hs2. fold rows1 in Hs2.
  destruct (matrixAt_sameOff_rows rows1 s1 s2 _ _ Hs2 Hw2' Hw2r1) as [Hw2'' Hrows2''].
  { rewrite Hrows2'. intros r Hr Hr'. by apply (Hdisj r). }
  assert (Store.rowsOf (Store.weights1 e) s2 = rows1) as Hrows1''.
  { unfold Store.rowsOf. rewrite (rowsAt_sameOff rows1 s1 s2); [|done|done].
    exact Hrows1'. }
  pose proof (FreshNumbers_sameOff n _ _ _ _ _ Hs2 Hlt1 Hgb2') as Hgb2''.
  pose proof (FreshNumbers_sameOff n _ _ _ _ _ Hs2 Hlt1 Hgb1') as Hgb1''.
  assert (Store.SameOff (rows1 ++ rows2) s s2) as Hs02.
  { eapply SameOff_trans.
    - eapply SameOff_mono; [|exact Hs1]. intros x Hx. apply elem_of_app. by right.
    - eapply SameOff_mono; [|exact Hs2]. intros x Hx. apply elem_of_app. by left. }
  assert (Store.numbersAt (Store.biases2 e) s2 = Some (NN.biases2 ev)) as Hb2'.
  { rewrite (numbersAt_sameOff _ _ _ _ Hs02); [done|].
    rewrite not_elem_of_app. done. }
  assert (Store.numbersAt (Store.biases1 e) s2 = Some (NN.biases1 ev)) as Hb1'.
  { rewrite (numbersAt_sameOff _ _ _ _ Hs02); [done|].
    rewrite not_elem_of_app. done. }
  (* biases2 *)
  destruct (updateVector_spec (NN.learningRate ev) _ lb2 s2 _ gb2 Hb2' (proj2 Hgb2'')
              ltac:(pose proof (proj1 Hgb2''); lia))
    as (s3 & Hrun3 & Hs3 & Hb2'').
  assert (Forall (fun x => x < n) [Store.biases2 e]) as Hltb2' by (by repeat constructor).
  pose proof (FreshNumbers_sameOff n _ _ _ _ _ Hs3 Hltb2' Hgb1'') as Hgb1'''.
  destruct (matrixAt_sameOff_rows [Store.biases2 e] s2 s3 _ _ Hs3 Hw1'')
    as [Hw1_3 Hrows1_3].
  { intros Heq%list_elem_of_singleton. congruence. }
  { rewrite Hrows1''. by intros r Hr ->%list_elem_of_singleton. }
  destruct (matrixAt_sameOff_rows [Store.biases2 e] s2 s3 _ _ Hs3 Hw2'')
    as [Hw2_3 Hrows2_3].
  { intros Heq%list_elem_of_singleton. congruence. }
  { rewrite Hrows2'', Hrows2'. by intros r Hr ->%list_elem_of_singleton. }
  assert (Store.numbersAt (Store.biases1 e) s3 = Some (NN.biases1 ev)) as Hb1''.
  { rewrite (numbersAt_sameOff _ _ _ _ Hs3); [done|].
    intros Heq%list_elem_of_singleton. congruence. }
  (* biases1 *)
  destruct (updateVector_spec (NN.learningRate ev) _ lb1 s3 _ gb1 Hb1'' (proj2 Hgb1''')
              ltac:(pose proof (proj1 Hgb1'''); lia))
    as (s4 & Hrun4 & Hs4 & Hb1''').
  destruct (matrixAt_sameOff_rows [Store.biases1 e] s3 s4 _ _ Hs4 Hw1_3)
    as [Hw1_4 Hrows1_4].
  { intros Heq%list_elem_of_singleton. congruence. }
  { rewrite Hrows1_3, Hrows1''. by intros r Hr ->%list_elem_of_singleton. }
  destruct (matrixAt_sameOff_rows [Store.biases1 e] s3 s4 _ _ Hs4 Hw2_3)
    as [Hw2_4 Hrows2_4].
  { intros Heq%list_elem_of_singleton. congruence. }
  { rewrite Hrows2_3, Hrows2'', Hrows2'. by intros r Hr ->%list_elem_of_singleton. }
  assert (Store.numbersAt (Store.biases2 e) s4 = Some
            (NN.updateVector (NN.learningRate ev) (NN.biases2 ev) gb2)) as Hb2'''.
  { rewrite (numbersAt_sameOff _ _ _ _ Hs4); [done|].
    intros Heq%list_elem_of_singleton. congruence. }
  exists s1, s2, s3, s4. split_and!; try done.
  - eapply SameOff_trans; [|eapply SameOff_trans].
    + eapply SameOff_mono; [|exact Hs02]. intros x Hx. set_unfold. tauto.
    + eapply SameOff_mono; [|exact Hs3]. intros x Hx. set_unfold. tauto.
    + eapply SameOff_mono; [|exact Hs4]. intros x Hx. set_unfold. tauto.
  - apply engineAt_Some. split; [|done]. apply weightsAt_Some. by simpl.
  - rewrite Hrows1_4, Hrows1_3, Hrows1'', Hrows2_4, Hrows2_3, Hrows2'', Hrows2'. done.
Qed.

End StoreFresh.

Section StoreTrainStep.
Context {N : Type} `{!JsNumber N}.
Implicit Types (s : Store.store N) (l m : Store.loc) (o : Store.object N).
Implicit Types (xs : list N) (xss : list (list N)) (rs : list Store.loc).
Implicit Types (w : Store.Weights) (e : Store.NeuralNetwork N).
Implicit Types (wv : NN.Weights N) (ev : NN.NeuralNetwork N).

Lemma wp_intro {A : Type} (c : Store.M (Store.store N) A) s s' (a : A)
    (Q : A -> Store.store N -> Prop) :
  c s = Some (a, s') -> Q a s' -> Store.wp c s Q.
Proof. intros Hc HQ. by exists a, s'. Qed.

Lemma wp_bind {A B : Type} (c : Store.M (Store.store N) A)
    (k : A -> Store.M (Store.store N) B) s (Q : B -> Store.store N -> Prop) :
  Store.wp c s (fun a s1 => Store.wp (k a) s1 Q) -> Store.wp (Store.bind c k) s Q.
Proof.
  intros (a & s1 & Hc & b & s2 & Hk & HQ). exists b, s2. split; [|done].
  by rewrite (bind_run _ _ _ _ _ Hc).
Qed.

Lemma wp_ret {A : Type} (a : A) s (Q : A -> Store.store N -> Prop) :
  Q a s -> Store.wp (Store.ret a) s Q.
Proof. intros HQ. by exists a, s. Qed.

Lemma outputPost_run (task : TaskType) (outputPre : Store.loc) s xs :
  Store.numbersAt outputPre s = Some xs ->
  exists l s',
    match task with
    | classification => Store.alloc (Store.Numbers (NN.sigmoid <$> xs))
    | regression => Store.copyArray outputPre
    end s = Some (l, s')
    /\ Store.NewNumbers s s' l match task with
                         | classification => NN.sigmoid <$> xs
                         | regression => xs
                         end.
Proof.
  intros Hxs. destruct task; [apply alloc_spec | by apply copyArray_spec].
Qed.

Lemma engine_parts e s ev :
  Store.engineAt e s = Some ev ->
  Store.matrixAt (Store.weights1 e) s = Some (NN.weights1 ev)
  /\ Store.matrixAt (Store.weights2 e) s = Some (NN.weights2 ev)
  /\ Store.numbersAt (Store.biases1 e) s = Some (NN.biases1 ev)
  /\ Store.numbersAt (Store.biases2 e) s = Some (NN.biases2 ev).
Proof. by intros ((? & ? & ? & ?)%weightsAt_Some & _)%engineAt_Some. Qed.

Ltac run H := apply wp_bind; apply (wp_intro _ _ _ _ _ H); cbv beta.

(** Facts about the current store are carried over an allocation. *)
Ltac forward Hp :=
  lazymatch type of Hp with
  | ?s0 `prefix_of` ?s1 =>
      repeat match goal with
        | H : Store.FreshNumbers _ s0 _ _ |- _ => apply (FreshNumbers_prefix _ _ _ _ _ Hp) in H
        | H : Store.FreshMatrix _ s0 _ _ |- _ => apply (FreshMatrix_prefix _ _ _ _ _ Hp) in H
        | H : Store.engineAt _ s0 = Some _ |- _ => apply (engineAt_prefix _ _ _ _ Hp) in H
        | H : Store.numbersAt _ s0 = Some _ |- _ => apply (numbersAt_prefix _ _ _ _ Hp) in H
        | H : _ `prefix_of` s0 |- _ => apply (fun H' => transitivity H' Hp) in H
        end
  end.

Ltac allocated Hrun Hnew :=
  pose proof (prefix_length _ _ (proj1 Hnew));
  pose proof (proj1 (proj2 Hnew));
  forward (proj1 Hnew);
  run Hrun; clear Hrun.

Ltac step_numbers s0 :=
  let l := fresh "l" in
  let s' := fresh "s" in
  let Hrun := fresh "Hrun" in
  let Hnew := fresh "Hnew" in
  lazymatch goal with
  | |- Store.wp (Store.bind (Store.alloc (Store.Numbers ?v)) _) ?s _ =>
      destruct (alloc_spec v s) as (l & s' & Hrun & Hnew)
  | |- Store.wp (Store.bind (Store.copyArray ?a) _) ?s _ =>
      lazymatch goal with
      | H : Store.FreshNumbers _ s a ?xs |- _ =>
          destruct (copyArray_spec a s xs (proj2 H)) as (l & s' & Hrun & Hnew)
      | H : Store.engineAt ?e s = Some ?ev |- _ =>
          first
            [ destruct (copyArray_spec a s _ (proj1 (proj2 (proj2 (engine_parts e s ev H)))))
                as (l & s' & Hrun & Hnew)
            | destruct (copyArray_spec a s _ (proj2 (proj2 (proj2 (engine_parts e s ev H)))))
                as (l & s' & Hrun & Hnew) ]
      end
  end;
  allocated Hrun Hnew;
  apply (NewNumbers_fresh (length s0)) in Hnew; [|lia].

Ltac step_matrix s0 :=
  let l := fresh "m" in
  let s' := fresh "s" in
  let Hrun := fresh "Hrun" in
  let Hnew := fresh "Hnew" in
  lazymatch goal with
  | |- Store.wp (Store.bind (Store.newMatrix ?v) _) ?s _ =>
      destruct (newMatrix_spec v s) as (l & s' & Hrun & Hnew)
  | |- Store.wp (Store.bind (Store.copyMatrix ?a) _) ?s _ =>
      lazymatch goal with
      | H : Store.engineAt ?e s = Some ?ev |- _ =>
          first
            [ destruct (copyMatrix_spec a _ s (proj1 (engine_parts e s ev H)))
                as (l & s' & Hrun & Hnew)
            | destruct (copyMatrix_spec a _ s (proj1 (proj2 (engine_parts e s ev H))))
                as (l & s' & Hrun & Hnew) ]
      end
  end;
  allocated Hrun Hnew;
  apply (NewMatrix_fresh (length s0)) in Hnew; [|lia].

Ltac step_read :=
  lazymatch goal with
  | |- Store.wp (Store.bind (Store.read (Store.engineAt ?e)) _) ?s _ =>
      lazymatch goal with
      | H : Store.engineAt e s = Some _ |- _ => run (read_run _ _ _ H)
      end
  | |- Store.wp (Store.bind (Store.read (Store.numbersAt ?l)) _) ?s _ =>
      lazymatch goal with
      | H : Store.numbersAt l s = Some _ |- _ => run (read_run _ _ _ H)
      | H : Store.FreshNumbers _ s l _ |- _ => run (read_run _ _ _ (proj2 H))
      end
  end.

(** [trainStep] on the store refines [trainStep] on array values.  From
    an engine that owns its arrays and holds the values [ev], the step
    runs; the record it returns reads, in the final store, as the record
    of [NN.trainStep]; the engine then holds the values of the engine that
    [NN.trainStep] returns and still owns its arrays; the store has only
    grown, and no array other than the engine's own was written; the bias
    gradients are arrays other than the output and hidden gradients; the
    record holds the caller's input array itself, and every other array of
    the record was allocated by the call. *)
Lemma trainStep_run_full e s ev inputs target inputsV targetV :
  Store.engineAt e s = Some ev ->
  NoDup (Store.reachable (Store.refs e) s) ->
  Store.numbersAt inputs s = Some inputsV ->
  Store.numbersAt target s = Some targetV ->
  inputs ∉ Store.reachable (Store.refs e) s ->
  Store.wp (Store.trainStep e inputs target) s (fun r s' =>
    Store.stepAt r s' = Some (NN.trainStep ev inputsV targetV).1
    /\ Store.engineAt e s' = Some (NN.trainStep ev inputsV targetV).2
    /\ NoDup (Store.reachable (Store.refs e) s')
    /\ length s <= length s'
    /\ (forall l, l < length s -> l ∉ Store.reachable (Store.refs e) s ->
          s' !! l = s !! l)
    /\ Store.biases2Gradients (Store.backward r)
       <> Store.outputGradients (Store.backward r)
    /\ Store.biases1Gradients (Store.backward r)
       <> Store.hiddenGradients (Store.backward r)
    /\ Store.f_inputs (Store.forward r) = inputs
    /\ Forall (fun l => length s <= l) (Record.arrays r s')
    /\ Store.reachable (Store.refs e) s' = Store.reachable (Store.refs e) s).
Proof.
  intros He Hnd Hin Htg Hoff.
  pose proof He as (Hw & Hrate & Htask)%engineAt_Some.
  pose proof (reachable_lt _ _ _ Hw) as Hlt.
  assert (s `prefix_of` s) as Hp0 by done.
  unfold Store.trainStep. cbv zeta. rewrite <- Hrate, <- Htask.
  (* the snapshot of the parameters *)
  step_matrix s. step_matrix s. step_numbers s. step_numbers s.
  (* the forward pass *)
  step_read. step_read. step_read.
  step_numbers s. step_numbers s. step_numbers s.
  lazymatch goal with
  | H : Store.FreshNumbers _ ?s0 ?l ?xs
    |- Store.wp (Store.bind (match _ with classification => _ | regression => Store.copyArray ?l end) _) ?s0 _ =>
      destruct (outputPost_run (NN.taskType ev) l s0 xs (proj2 H))
        as (lpost & spost & Hrunpost & Hnewpost)
  end.
  allocated Hrunpost Hnewpost.
  apply (NewNumbers_fresh (length s)) in Hnewpost; [|lia].
  step_read.
  (* the gradients *)
  step_numbers s. step_numbers s. step_matrix s. step_matrix s.
  step_numbers s. step_numbers s.
  (* the update loops *)
  pose proof (reachable_prefix _ _ _ _ Hp0 Hw) as Hreach.
  lazymatch goal with
  | Hg2 : Store.FreshMatrix _ ?s0 ?mg2 _, Hg1 : Store.FreshMatrix _ ?s0 ?mg1 _,
    Hgb2 : Store.FreshNumbers _ ?s0 ?lb2 _, Hgb1 : Store.FreshNumbers _ ?s0 ?lb1 _
    |- Store.wp (Store.bind (Store.updateMatrix _ _ ?mg2) (fun _ =>
           Store.bind (Store.updateMatrix _ _ ?mg1) (fun _ =>
           Store.bind (Store.updateVector _ _ ?lb2) (fun _ =>
           Store.bind (Store.updateVector _ _ ?lb1) _)))) ?s0 _ =>
      destruct (updates_run e s0 ev (length s) mg2 mg1 lb2 lb1 _ _ _ _ He
                  ltac:(by rewrite Hreach) ltac:(by rewrite Hreach) Hg2 Hg1 Hgb2 Hgb1)
        as (u1 & u2 & u3 & u4 & Hu1 & Hu2 & Hu3 & Hu4 & Hsame & He' & Hreach')
  end.
  run Hu1. run Hu2. run Hu3. run Hu4.
  rewrite Hreach in Hsame, Hreach'.
  repeat match goal with
    | H : Store.FreshNumbers _ ?s0 _ _, Hs : Store.SameOff _ ?s0 _ |- _ =>
        apply (FreshNumbers_sameOff _ _ _ _ _ _ Hs Hlt) in H
    | H : Store.FreshMatrix _ ?s0 _ _, Hs : Store.SameOff _ ?s0 _ |- _ =>
        apply (FreshMatrix_sameOff _ _ _ _ _ _ Hs Hlt) in H
    end.
  rewrite <- (numbersAt_sameOff _ _ _ _ Hsame Hoff) in Hin.
  pose proof (proj1 Hsame) as Hlen.
  pose proof (proj1 (proj1 (engineAt_Some _ _ _) He')) as Hwu.
  assert (u4 `prefix_of` u4) as Hpu by done.
  (* the snapshot of the NN.updated parameters *)
  step_matrix s. step_matrix s. step_numbers s. step_numbers s.
  apply wp_ret.
  pose proof (prefix_length _ _ Hp0). pose proof (prefix_length _ _ Hpu).
  split_and!.
  - repeat match goal with
      | H : Store.FreshNumbers _ _ _ _ |- _ => destruct H as [_ H]
      | H : Store.FreshMatrix _ _ _ _ |- _ => destruct H as (_ & _ & H)
      end.
    unfold Store.stepAt.
    cbn [Store.forward Store.backward Store.after Store.f_inputs Store.f_hiddenPre
         Store.f_hiddenPost Store.f_outputPre Store.f_outputPost Store.f_weights1
         Store.f_weights2 Store.f_biases1 Store.f_biases2 Store.loss
         Store.outputGradients Store.hiddenGradients Store.weights2Gradients
         Store.weights1Gradients Store.biases2Gradients Store.biases1Gradients
         Store.a_weights1 Store.a_weights2 Store.a_biases1 Store.a_biases2].
    repeat match goal with
      | H : Store.numbersAt ?l ?s0 = Some _ |- context [Store.numbersAt ?l ?s0] =>
          rewrite H; cbn [mbind option_bind]
      | H : Store.matrixAt ?l ?s0 = Some _ |- context [Store.matrixAt ?l ?s0] =>
          rewrite H; cbn [mbind option_bind]
      end.
    reflexivity.
  - exact He'.
  - by rewrite (reachable_prefix _ _ _ _ Hpu Hwu), Hreach'.
  - lia.
  - intros x Hx Hnot.
    transitivity (u4 !! x).
    { symmetry. apply prefix_lookup_lt; [lia|exact Hpu]. }
    rewrite (proj2 Hsame x Hnot).
    symmetry. apply prefix_lookup_lt; [lia|exact Hp0].
  - cbn [Store.backward Store.biases2Gradients Store.outputGradients]. lia.
  - cbn [Store.backward Store.biases1Gradients Store.hiddenGradients]. lia.
  - reflexivity.
  - unfold Record.arrays.
    cbn [Store.forward Store.backward Store.after Store.f_inputs Store.f_hiddenPre
         Store.f_hiddenPost Store.f_outputPre Store.f_outputPost Store.f_weights1
         Store.f_weights2 Store.f_biases1 Store.f_biases2 Store.loss
         Store.outputGradients Store.hiddenGradients Store.weights2Gradients
         Store.weights1Gradients Store.biases2Gradients Store.biases1Gradients
         Store.a_weights1 Store.a_weights2 Store.a_biases1 Store.a_biases2].
    repeat match goal with
      | H : Store.FreshNumbers _ _ _ _ |- _ => destruct H as [H _]
      | H : Store.FreshMatrix _ _ _ _ |- _ =>
          let Hrows := fresh "Hrows" in destruct H as (H & Hrows & _)
      end.
    repeat (apply Forall_app; split); [|done..].
    repeat (apply Forall_cons; split; [done|]). constructor.
  - by rewrite (reachable_prefix _ _ _ _ Hpu Hwu), Hreach'.
Qed.

Lemma trainStep_run e s ev inputs target inputsV targetV :
  Store.engineAt e s = Some ev ->
  NoDup (Store.reachable (Store.refs e) s) ->
  Store.numbersAt inputs s = Some inputsV ->
  Store.numbersAt target s = Some targetV ->
  inputs ∉ Store.reachable (Store.refs e) s ->
  Store.wp (Store.trainStep e inputs target) s (fun r s' =>
    Store.stepAt r s' = Some (NN.trainStep ev inputsV targetV).1
    /\ Store.engineAt e s' = Some (NN.trainStep ev inputsV targetV).2
    /\ NoDup (Store.reachable (Store.refs e) s')
    /\ length s <= length s'
    /\ (forall l, l < length s -> l ∉ Store.reachable (Store.refs e) s ->
          s' !! l = s !! l)
    /\ Store.biases2Gradients (Store.backward r)
       <> Store.outputGradients (Store.backward r)
    /\ Store.biases1Gradients (Store.backward r)
       <> Store.hiddenGradients (Store.backward r)).
Proof.
  intros He Hnd Hin Htg Hoff.
  destruct (trainStep_run_full e s ev inputs target inputsV targetV He Hnd Hin Htg Hoff)
    as (r & s' & Hrun & Hstep & He' & Hnd' & Hlen & Hkeep & Hb2 & Hb1 & _).
  by exists r, s'.
Qed.

(** [trainStep] keeps the engine the owner of its arrays. *)
Lemma trainStep_keeps_owned e s inputs target r s' :
  Store.Owned e s ->
  is_Some (Store.numbersAt inputs s) ->
  is_Some (Store.numbersAt target s) ->
  inputs ∉ Store.reachable (Store.refs e) s ->
  Store.trainStep e inputs target s = Some (r, s') ->
  Store.Owned e s'.
Proof.
  intros [[ev He] Hnd] [inputsV Hin] [targetV Htg] Hoff Hrun.
  destruct (trainStep_run e s ev inputs target inputsV targetV He Hnd Hin Htg Hoff)
    as (r' & s'' & Hrun' & _ & He' & Hnd' & _).
  rewrite Hrun in Hrun'. injection Hrun' as <- <-. split; [by eexists|done].
Qed.

End StoreTrainStep.

Section Backward.
Context {N : Type} `{!JsNumber N}.
Local Open Scope num_scope.

Lemma trainStep_backpropagated (inputSize hiddenSize outputSize : nat)
    (ev : NN.NeuralNetwork N) (inputs target : list N) :
  NN.WellFormed inputSize hiddenSize outputSize ev ->
  length inputs = inputSize ->
  Spec.Backpropagated inputSize hiddenSize outputSize ev (NN.trainStep ev inputs target).1.
Proof.
  intros Hwf Hin.
  pose proof (length_hiddenGradients _ _ _ ev Hwf inputs target) as Hhg.
  pose proof (length_outputGradients _ _ _ ev Hwf inputs target) as Hog.
  pose proof (length_hiddenPre _ _ _ ev Hwf inputs) as Hhp.
  destruct Hwf as [? ? ? Hw1 Hr1 Hw2 Hr2 Hb1 Hb2].
  unfold Spec.Backpropagated. cbn zeta.
  set (r := (NN.trainStep ev inputs target).1) in *.
  split_and!; try reflexivity.
  - intros h Hh.
    change (NN.hiddenGradients (NN.backward r))
      with (NN.hiddenGradientsOf
              (NN.hiddenErrorValuesOf ev (NN.outputGradients (NN.backward r)))
              (NN.predict_hiddenPre ev inputs)).
    change (NN.f_hiddenPre (NN.forward r)) with (NN.predict_hiddenPre ev inputs).
    unfold NN.hiddenGradientsOf, NN.hiddenErrorValuesOf.
    rewrite list_lookup_imap, list_lookup_fmap, lookup_seq_lt by lia. simpl.
    rewrite (lookup_item (NN.predict_hiddenPre ev inputs) h) by lia.
    f_equal. f_equal. rewrite Hb2.
    apply (foldl_defined_sum outputSize
             (fun o => cell (NN.weights2 ev) h o)
             (fun o => NN.outputGradients (NN.backward r) !! o)).
    intros o Ho. split.
    + by apply (cell_is_Some _ outputSize); [|lia|].
    + apply lookup_lt_is_Some_2. lia.
  - intros h o Hh Ho. apply cell_outer; apply lookup_item.
    + change (NN.f_hiddenPost (NN.forward r)) with (NN.predict_hiddenPost ev inputs).
      unfold NN.predict_hiddenPost. rewrite length_fmap. lia.
    + lia.
  - intros i h Hi Hh. apply cell_outer; apply lookup_item.
    + change (NN.f_inputs (NN.forward r)) with inputs. lia.
    + lia.
Qed.

End Backward.

Section StoreClaims.
Context {N : Type} `{!JsNumber N}.

(** C4.  A step on an engine that owns its arrays and holds the
    well-formed values [ev], with an input array of [inputSize] entries,
    returns a record whose gradients are those of the specification,
    written over the values [ev] that the engine held before the step:
    [hiddenGradients] is the sum over the outputs of
    [outputGradients[o] * weights2[h][o]], times
    [sigmoid(hiddenPre[h]) * (1 - sigmoid(hiddenPre[h]))];
    [weights2Gradients[h][o]] is [hiddenPost[h] * outputGradients[o]];
    [weights1Gradients[i][h]] is [inputs[i] * hiddenGradients[h]];
    [biases2Gradients] and [biases1Gradients] have the values of
    [outputGradients] and [hiddenGradients] and are other arrays than
    those. *)
Theorem trainStep_backward_pass (inputSize hiddenSize outputSize : nat)
    (e : Store.NeuralNetwork N) (s : Store.store N) (ev : NN.NeuralNetwork N)
    (inputs target : Store.loc) (inputsV targetV : list N) :
  Store.Owned e s ->
  Store.engineAt e s = Some ev ->
  NN.WellFormed inputSize hiddenSize outputSize ev ->
  Store.numbersAt inputs s = Some inputsV ->
  Store.numbersAt target s = Some targetV ->
  inputs ∉ Store.reachable (Store.refs e) s ->
  length inputsV = inputSize ->
  exists r s' rv,
    Store.trainStep e inputs target s = Some (r, s')
    /\ Store.stepAt r s' = Some rv
    /\ Spec.Backpropagated inputSize hiddenSize outputSize ev rv
    /\ Store.biases2Gradients (Store.backward r)
       <> Store.outputGradients (Store.backward r)
    /\ Store.biases1Gradients (Store.backward r)
       <> Store.hiddenGradients (Store.backward r).
Proof.
  intros [_ Hnd] He Hwf Hin Htg Hoff Hlen.
  destruct (trainStep_run e s ev inputs target inputsV targetV He Hnd Hin Htg Hoff)
    as (r & s' & Hrun & Hstep & _ & _ & _ & _ & Hb2 & Hb1).
  exists r, s', (NN.trainStep ev inputsV targetV).1. split_and!; try done.
  by apply trainStep_backpropagated.
Qed.

(** C1.  A step on an engine that owns its arrays and holds the
    well-formed values [ev], with an input array of [inputSize] entries and
    a target array of [outputSize] entries, returns a record in which every
    entry of the [after] section is the entry of the [forward] section
    minus the learning rate times the entry of the gradient, for
    [weights1], [weights2], [biases1] and [biases2]; the [after] tensors
    have the sizes of the engine's; and the values that the engine holds
    after the call are those of the [after] section. *)
Theorem trainStep_update_rule (inputSize hiddenSize outputSize : nat)
    (e : Store.NeuralNetwork N) (s : Store.store N) (ev : NN.NeuralNetwork N)
    (inputs target : Store.loc) (inputsV targetV : list N) :
  Store.Owned e s ->
  Store.engineAt e s = Some ev ->
  NN.WellFormed inputSize hiddenSize outputSize ev ->
  Store.numbersAt inputs s = Some inputsV ->
  Store.numbersAt target s = Some targetV ->
  inputs ∉ Store.reachable (Store.refs e) s ->
  length inputsV = inputSize ->
  length targetV = outputSize ->
  exists r s' rv ev',
    Store.trainStep e inputs target s = Some (r, s')
    /\ Store.stepAt r s' = Some rv
    /\ Store.engineAt e s' = Some ev'
    /\ Spec.UpdateRule inputSize hiddenSize outputSize (Store.learningRate e) rv ev'.
Proof.
  intros [_ Hnd] He Hwf Hin Htg Hoff Hlen _.
  destruct (trainStep_run e s ev inputs target inputsV targetV He Hnd Hin Htg Hoff)
    as (r & s' & Hrun & Hstep & He' & _).
  exists r, s', (NN.trainStep ev inputsV targetV).1, (NN.trainStep ev inputsV targetV).2.
  split_and!; try done.
  apply engineAt_Some in He as (_ & <- & _).
  by apply trainStep_updated_values.
Qed.

(** C10.  The [forward] section of the record that a step returns is the
    forward pass of [predict] on the parameters the engine held before the
    step: [outputPost] has the values that [predict] returns for the same
    input array in the store before the step, and [hiddenPre],
    [hiddenPost] and [outputPre] have the values of the local arrays of
    those names in [predict]. *)
Theorem trainStep_forward_is_predict (e : Store.NeuralNetwork N) (s : Store.store N)
    (ev : NN.NeuralNetwork N) (inputs target : Store.loc) (inputsV targetV : list N) :
  Store.Owned e s ->
  Store.engineAt e s = Some ev ->
  Store.numbersAt inputs s = Some inputsV ->
  Store.numbersAt target s = Some targetV ->
  inputs ∉ Store.reachable (Store.refs e) s ->
  exists r s' rv,
    Store.trainStep e inputs target s = Some (r, s')
    /\ Store.stepAt r s' = Some rv
    /\ Store.predictAt e inputs s = Some (NN.f_outputPost (NN.forward rv))
    /\ NN.f_hiddenPre (NN.forward rv) = NN.predict_hiddenPre ev inputsV
    /\ NN.f_hiddenPost (NN.forward rv) = NN.predict_hiddenPost ev inputsV
    /\ NN.f_outputPre (NN.forward rv) = NN.predict_outputPre ev inputsV.
Proof.
  intros [_ Hnd] He Hin Htg Hoff.
  destruct (trainStep_run e s ev inputs target inputsV targetV He Hnd Hin Htg Hoff)
    as (r & s' & Hrun & Hstep & _).
  exists r, s', (NN.trainStep ev inputsV targetV).1.
  destruct (forward_is_predict_values ev inputsV targetV) as (Hpost & Hpre & Hhid & Hout).
  split_and!; try done.
  rewrite (predictAt_value e s ev inputs inputsV He Hin). by rewrite Hpost.
Qed.

End StoreClaims.

(** ** Scenario C in the store *)

Section StoreWitnesses.
Local Open Scope R_scope.

Lemma scenarioC_engineAt :
  Store.engineAt ScenarioC.engineRef ScenarioC.store = Some ScenarioC.engine.
Proof. reflexivity. Defined.

Lemma scenarioC_weightsAt :
  Store.weightsAt (Store.refs ScenarioC.engineRef) ScenarioC.store
  = Some (NN.getWeights ScenarioC.engine).
Proof. reflexivity. Defined.

Lemma scenarioC_owned : Store.Owned ScenarioC.engineRef ScenarioC.store.
Proof.
  split; [by exists ScenarioC.engine|].
  apply (bool_decide_unpack _). by vm_compute.
Defined.

Lemma scenarioC_inputs_apart :
  ScenarioC.inputsRef ∉ Store.reachable (Store.refs ScenarioC.engineRef) ScenarioC.store.
Proof.
  apply (bool_decide_unpack _). by vm_compute.
Defined.

Lemma trainStep_backward_pass_witness :
  exists r s' rv,
    Store.trainStep ScenarioC.engineRef ScenarioC.inputsRef ScenarioC.targetRef
      ScenarioC.store = Some (r, s')
    /\ Store.stepAt r s' = Some rv
    /\ Spec.Backpropagated 2 1 1 ScenarioC.engine rv
    /\ Store.biases2Gradients (Store.backward r)
       <> Store.outputGradients (Store.backward r)
    /\ Store.biases1Gradients (Store.backward r)
       <> Store.hiddenGradients (Store.backward r).
Proof.
  exact (trainStep_backward_pass 2 1 1 ScenarioC.engineRef ScenarioC.store
           ScenarioC.engine ScenarioC.inputsRef ScenarioC.targetRef
           ScenarioC.inputs ScenarioC.target
           scenarioC_owned scenarioC_engineAt scenarioC_wellFormed
           eq_refl eq_refl scenarioC_inputs_apart eq_refl).
Defined.

Lemma trainStep_update_rule_witness :
  exists r s' rv ev',
    Store.trainStep ScenarioC.engineRef ScenarioC.inputsRef ScenarioC.targetRef
      ScenarioC.store = Some (r, s')
    /\ Store.stepAt r s' = Some rv
    /\ Store.engineAt ScenarioC.engineRef s' = Some ev'
    /\ Spec.UpdateRule 2 1 1 (1 / 10) rv ev'.
Proof.
  exact (trainStep_update_rule 2 1 1 ScenarioC.engineRef ScenarioC.store
           ScenarioC.engine ScenarioC.inputsRef ScenarioC.targetRef
           ScenarioC.inputs ScenarioC.target
           scenarioC_owned scenarioC_engineAt scenarioC_wellFormed
           eq_refl eq_refl scenarioC_inputs_apart eq_refl eq_refl).
Defined.

Lemma trainStep_forward_is_predict_witness :
  exists r s' rv,
    Store.trainStep ScenarioC.engineRef ScenarioC.inputsRef ScenarioC.targetRef
      ScenarioC.store = Some (r, s')
    /\ Store.stepAt r s' = Some rv
    /\ Store.predictAt ScenarioC.engineRef ScenarioC.inputsRef ScenarioC.store
       = Some (NN.f_outputPost (NN.forward rv))
    /\ NN.f_hiddenPre (NN.forward rv)
       = NN.predict_hiddenPre ScenarioC.engine ScenarioC.inputs
    /\ NN.f_hiddenPost (NN.forward rv)
       = NN.predict_hiddenPost ScenarioC.engine ScenarioC.inputs
    /\ NN.f_outputPre (NN.forward rv)
       = NN.predict_outputPre ScenarioC.engine ScenarioC.inputs.
Proof.
  exact (trainStep_forward_is_predict ScenarioC.engineRef ScenarioC.store
           ScenarioC.engine ScenarioC.inputsRef ScenarioC.targetRef
           ScenarioC.inputs ScenarioC.target
           scenarioC_owned scenarioC_engineAt eq_refl eq_refl scenarioC_inputs_apart).
Defined.

Lemma getWeights_setWeights_copies_witness :
  exists w s1 e2 s2,
    Store.getWeights ScenarioC.engineRef ScenarioC.store = Some (w, s1)
    /\ Store.setWeights ScenarioC.engineRef w s1 = Some (e2, s2)
    /\ Store.engineAt e2 s2 = Some ScenarioC.engine
    /\ (forall inputs, (inputs < length ScenarioC.store)%nat ->
          Store.predictAt e2 inputs s2
          = Store.predictAt ScenarioC.engineRef inputs ScenarioC.store)
    /\ (forall l o, l ∈ Store.reachable w s1 ->
          Store.engineAt ScenarioC.engineRef (<[l:=o]> s1) = Some ScenarioC.engine).
Proof.
  exact (proj1 (getWeights_setWeights_copies ScenarioC.engineRef ScenarioC.store
                  ScenarioC.engine (Store.refs ScenarioC.engineRef)
                  (NN.getWeights ScenarioC.engine)
                  scenarioC_engineAt scenarioC_weightsAt)).
Defined.

End StoreWitnesses.

(** ** The loss is defined *)

Section PartialNumbers.
Local Open Scope R_scope.
Implicit Types (e : NN.NeuralNetwork R) (inputs target : list R).





























End PartialNumbers.

(** ** The loss in doubles *)

Section Doubles.
Variables exp64 log64 pow64 : float -> float.






End Doubles.

(** ** The logarithms of the loss *)

Section LossDefined.
Local Open Scope R_scope.



End LossDefined.



(** * Further properties of the code *)

(** ** The constructor *)

Section ConstructorFacts.
Context {N : Type} `{!JsNumber N}.

Lemma length_take (rand : nat -> N) (k n : nat) : length (Random.take rand k n) = n.
Proof. unfold Random.take. by rewrite length_fmap, length_seq. Qed.

Lemma length_takeRows (rand : nat -> N) (k rows cols : nat) :
  length (Random.takeRows rand k rows cols) = rows.
Proof. unfold Random.takeRows. by rewrite length_fmap, length_seq. Qed.

Lemma takeRows_rows (rand : nat -> N) (k rows cols : nat) :
  Forall (fun row => length row = cols) (Random.takeRows rand k rows cols).
Proof.
  unfold Random.takeRows. apply Forall_fmap, Forall_forall. intros i _. simpl.
  apply length_take.
Qed.

Lemma newNeuralNetwork_shape (rand : nat -> N)
    (inputSize hiddenSize outputSize : nat) (rate : N) (task : TaskType) :
  0 < inputSize -> 0 < hiddenSize -> 0 < outputSize ->
  NN.WellFormed inputSize hiddenSize outputSize
    (Random.newNeuralNetwork rand inputSize hiddenSize outputSize rate task).
Proof.
  intros Hi Hh Ho. unfold Random.newNeuralNetwork. cbv zeta.
  apply construct_wellFormed; try done;
    auto using length_take, length_takeRows, takeRows_rows.
Qed.

(** X1.  The constructor, called with positive sizes, builds a well-formed
    engine of those sizes that holds the learning rate and the task type it
    was given, whatever numbers [Math.random] returns. *)
Theorem newNeuralNetwork_wellFormed (rand : nat -> N)
    (inputSize hiddenSize outputSize : nat) (rate : N) (task : TaskType) :
  0 < inputSize -> 0 < hiddenSize -> 0 < outputSize ->
  let e := Random.newNeuralNetwork rand inputSize hiddenSize outputSize rate task in
  NN.WellFormed inputSize hiddenSize outputSize e
  /\ NN.learningRate e = rate
  /\ NN.getTaskType e = task.
Proof.
  intros Hi Hh Ho. cbn zeta. split; [by apply newNeuralNetwork_shape|done].
Qed.

End ConstructorFacts.

Lemma newNeuralNetwork_wellFormed_witness :
  let e := Random.newNeuralNetwork (fun k => INR k) 2 4 1 (1 / 10)%R classification in
  NN.WellFormed 2 4 1 e /\ NN.learningRate e = (1 / 10)%R
  /\ NN.getTaskType e = classification.
Proof.
  apply (newNeuralNetwork_wellFormed (fun k => INR k) 2 4 1 (1 / 10)%R classification);
    lia.
Defined.

Section ConstructorReal.
Local Open Scope R_scope.

Lemma randomArray_range (draws : list R) :
  Forall (fun u => 0 <= u < 1) draws ->
  Forall (fun w => - (1 / 4) <= w < 1 / 4) (NN.randomArray draws).
Proof.
  intros Hd. unfold NN.randomArray. apply Forall_fmap.
  eapply Forall_impl; [exact Hd|]. intros u Hu. simpl. lra.
Qed.

Lemma take_range (rand : nat -> R) (k n : nat) :
  (forall i, 0 <= rand i < 1) -> Forall (fun u => 0 <= u < 1) (Random.take rand k n).
Proof.
  intros Hr. unfold Random.take. apply Forall_fmap, Forall_forall. intros i _. apply Hr.
Qed.

Lemma randomMatrix_takeRows_range (rand : nat -> R) (k rows cols : nat) :
  (forall i, 0 <= rand i < 1) ->
  Forall (Forall (fun w => - (1 / 4) <= w < 1 / 4))
         (NN.randomMatrix (Random.takeRows rand k rows cols)).
Proof.
  intros Hr. unfold NN.randomMatrix, Random.takeRows.
  apply Forall_fmap, Forall_fmap, Forall_forall. intros i _. simpl.
  by apply randomArray_range, take_range.
Qed.

(** X2.  When every number that [Math.random] returns lies in [0, 1), every
    weight and every bias of a new engine lies in [-0.25, 0.25). *)
Theorem newNeuralNetwork_range (rand : nat -> R)
    (inputSize hiddenSize outputSize : nat) (rate : R) (task : TaskType) :
  (forall k, 0 <= rand k < 1) ->
  let e := Random.newNeuralNetwork rand inputSize hiddenSize outputSize rate task in
  let small := fun w : R => - (1 / 4) <= w < 1 / 4 in
  Forall (Forall small) (NN.weights1 e)
  /\ Forall (Forall small) (NN.weights2 e)
  /\ Forall small (NN.biases1 e)
  /\ Forall small (NN.biases2 e).
Proof.
  intros Hr. cbn zeta. unfold Random.newNeuralNetwork. cbv zeta. simpl.
  split_and!; auto using randomMatrix_takeRows_range, randomArray_range, take_range.
Qed.

Lemma newNeuralNetwork_range_witness :
  let e := Random.newNeuralNetwork (fun _ => 1 / 2) 2 4 1 (1 / 10) classification in
  let small := fun w : R => - (1 / 4) <= w < 1 / 4 in
  Forall (Forall small) (NN.weights1 e)
  /\ Forall (Forall small) (NN.weights2 e)
  /\ Forall small (NN.biases1 e)
  /\ Forall small (NN.biases2 e).
Proof.
  apply (newNeuralNetwork_range (fun _ => 1 / 2) 2 4 1 (1 / 10) classification).
  intros _. lra.
Defined.

End ConstructorReal.

Section SigmoidReal.
Local Open Scope R_scope.

Lemma sigmoid_range (x : R) : 0 < NN.sigmoid x < 1.
Proof.
  unfold NN.sigmoid. cbn [div add neg num1 Math_exp R_JsNumber].
  pose proof (exp_pos (- x)) as Hexp.
  split.
  - apply Rdiv_lt_0_compat; lra.
  - apply (Rmult_lt_reg_r (1 + exp (- x))); [lra|].
    unfold Rdiv. rewrite Rmult_assoc, Rinv_l by lra. lra.
Qed.



Lemma sigmoid_derivable (x : R) :
  derivable_pt_lim NN.sigmoid x (NN.sigmoid x * (1 - NN.sigmoid x)).
Proof.
  pose proof (exp_pos (- x)) as Hexp.
  assert (derivable_pt_lim (fun z => exp (- z)) x (- exp (- x))) as Hd.
  { replace (- exp (- x)) with (exp (- x) * - 1) by ring.
    apply (derivable_pt_lim_comp (fun z => - z) exp).
    - apply (derivable_pt_lim_opp id x 1), derivable_pt_lim_id.
    - apply derivable_pt_lim_exp. }
  assert (derivable_pt_lim (fun z => 1 + exp (- z)) x (0 + - exp (- x))) as Hs.
  { apply (derivable_pt_lim_plus (fct_cte 1) (fun z => exp (- z)));
      [apply derivable_pt_lim_const | exact Hd]. }
  pose proof (derivable_pt_lim_div (fct_cte 1) (fun z => 1 + exp (- z)) x 0
                (0 + - exp (- x)) (derivable_pt_lim_const 1 x) Hs ltac:(lra)) as Hq.
  unfold NN.sigmoid. cbn [div add neg num1 Math_exp R_JsNumber].
  eapply derivable_pt_lim_ext; [intros z; reflexivity|].
  replace (1 / (1 + exp (- x)) * (1 - 1 / (1 + exp (- x))))
    with ((0 * (1 + exp (- x)) - (0 + - exp (- x)) * fct_cte 1 x) / (1 + exp (- x))²).
  - exact Hq.
  - unfold fct_cte, Rsqr. field. lra.
Qed.

(** X4.  [sigmoidDerivative] is the derivative of [sigmoid]: at every [x]
    the function [sigmoid] has the derivative [sigmoidDerivative(x)], which
    is never negative and at most 1/4.  (In exact arithmetic it is never 0;
    in doubles it is 0 where [sigmoid] has rounded to 0 or to 1.) *)
Theorem sigmoidDerivative_is_derivative (x : R) :
  derivable_pt_lim NN.sigmoid x (NN.sigmoidDerivative x)
  /\ 0 <= NN.sigmoidDerivative x <= 1 / 4.
Proof.
  split; [apply sigmoid_derivable|].
  pose proof (sigmoid_range x) as Hs.
  unfold NN.sigmoidDerivative. cbv zeta.
  generalize dependent (NN.sigmoid x). intros s Hs.
  cbn [mul sub num1 R_JsNumber]. split.
  - apply Rmult_le_pos; lra.
  - pose proof (pow2_ge_0 (s - 1 / 2)) as Hsq.
    replace (s * (1 - s)) with (1 / 4 - (s - 1 / 2) ^ 2) by field. lra.
Qed.

End SigmoidReal.

Section StepShapes.
Context {N : Type} `{!JsNumber N}.
Local Open Scope num_scope.
Implicit Types (e : NN.NeuralNetwork N) (inputs target : list N).

Lemma updateMatrix_rows (rate : N) (w grads : list (list N)) (n : nat) :
  Forall (fun row => length row = n) w ->
  Forall (fun row => length row = n) (NN.updateMatrix rate w grads).
Proof.
  intros Hrows. apply Forall_forall. intros row Hrow.
  apply elem_of_lookup_imap_1 in Hrow as (i & row0 & -> & Hrow0).
  unfold NN.updateRow. rewrite length_imap.
  exact (Forall_lookup_1 _ _ _ _ Hrows Hrow0).
Qed.

Lemma trainStep_wellFormed (inputSize hiddenSize outputSize : nat) e inputs target :
  NN.WellFormed inputSize hiddenSize outputSize e ->
  NN.WellFormed inputSize hiddenSize outputSize (NN.trainStep e inputs target).2.
Proof.
  intros [? ? ? Hw1 Hr1 Hw2 Hr2 Hb1 Hb2].
  split; simpl; rewrite ?length_updateMatrix, ?length_updateVector;
    auto using updateMatrix_rows.
Qed.

(** X5.  A training step keeps the shape of the engine: after [trainStep]
    with any input and target arrays, of the right length or not, the four
    tensors have the sizes they had, and the learning rate and the task type
    are the ones the engine had. *)
Theorem trainStep_keeps_wellFormed (inputSize hiddenSize outputSize : nat)
    e inputs target :
  NN.WellFormed inputSize hiddenSize outputSize e ->
  let e' := (NN.trainStep e inputs target).2 in
  NN.WellFormed inputSize hiddenSize outputSize e'
  /\ NN.learningRate e' = NN.learningRate e
  /\ NN.taskType e' = NN.taskType e.
Proof.
  intros Hwf. cbn zeta. split; [by apply trainStep_wellFormed | done].
Qed.

(** X6.  The step updates row [i] of [weights1] exactly when the input
    array has an entry [i]: for an input shorter than [inputSize] the rows
    from [inputs.length] on keep their values, and the rows below it are
    moved by [learningRate * inputs[i] * hiddenGradients[h]], although the
    forward pass of that step did not use the input. *)
Theorem trainStep_weights1_rows (inputSize hiddenSize outputSize : nat)
    e inputs target (i h : nat) :
  NN.WellFormed inputSize hiddenSize outputSize e ->
  i < inputSize -> h < hiddenSize ->
  exists w g,
    cell (NN.weights1 e) i h = Some w
    /\ NN.hiddenGradients (NN.backward (NN.trainStep e inputs target).1) !! h = Some g
    /\ cell (NN.weights1 (NN.trainStep e inputs target).2) i h
       = Some (match inputs !! i with
               | Some x => w - NN.learningRate e * (x * g)
               | None => w
               end).
Proof.
  intros Hwf Hi Hh.
  pose proof (length_hiddenGradients _ _ _ e Hwf inputs target) as Hhg.
  destruct (cell_is_Some (NN.weights1 e) hiddenSize i h) as [w Hw];
    [apply Hwf | destruct Hwf; lia | done |].
  destruct (lookup_lt_is_Some_2
              (NN.hiddenGradients (NN.backward (NN.trainStep e inputs target).1)) h
              ltac:(lia)) as [g Hg].
  exists w, g. split_and!; [done..|].
  destruct (inputs !! i) as [x|] eqn:Hx.
  - apply cell_updateMatrix; [done|]. by apply cell_outer.
  - apply cell_Some in Hw as (row & Hrow & Hcell).
    cbn [NN.trainStep NN.weights1 snd]. unfold cell, NN.updateMatrix.
    rewrite list_lookup_imap, Hrow. simpl. unfold NN.updateRow.
    rewrite list_lookup_imap, Hcell. simpl.
    unfold cell, NN.outer. by rewrite list_lookup_fmap, Hx.
Qed.

End StepShapes.

Lemma trainStep_keeps_wellFormed_witness :
  let e' := (NN.trainStep ScenarioC.engine ScenarioC.inputs ScenarioC.target).2 in
  NN.WellFormed 2 1 1 e'
  /\ NN.learningRate e' = NN.learningRate ScenarioC.engine
  /\ NN.taskType e' = NN.taskType ScenarioC.engine.
Proof.
  exact (trainStep_keeps_wellFormed 2 1 1 ScenarioC.engine ScenarioC.inputs
           ScenarioC.target scenarioC_wellFormed).
Defined.

Lemma trainStep_weights1_rows_witness :
  exists w g : R,
    cell (NN.weights1 ScenarioShort.engine) 1 0 = Some w
    /\ NN.hiddenGradients
         (NN.backward (NN.trainStep ScenarioShort.engine ScenarioShort.inputs [1%R]).1)
         !! 0 = Some g
    /\ cell (NN.weights1 (NN.trainStep ScenarioShort.engine ScenarioShort.inputs [1%R]).2)
            1 0
       = Some w.
Proof.
  exact (trainStep_weights1_rows 2 1 1 ScenarioShort.engine ScenarioShort.inputs [1%R]
           1 0 scenarioShort_wellFormed ltac:(lia) ltac:(lia)).
Defined.

Section FixedPoints.
Local Open Scope R_scope.
Implicit Types (e : NN.NeuralNetwork R) (inputs target : list R).

Lemma imap_same {A : Type} (f : nat -> A -> A) (l : list A) :
  (forall i x, l !! i = Some x -> f i x = x) -> imap f l = l.
Proof.
  intros Hf. rewrite (imap_ext f (const (fun x : A => x)) l Hf), imap_const. apply list_fmap_id.
Qed.

Lemma updateVector_same (rate : R) (b grads : list R) :
  (forall i g, grads !! i = Some g -> rate * g = 0) ->
  NN.updateVector rate b grads = b.
Proof.
  intros Hg. apply imap_same. intros i x _.
  destruct (grads !! i) as [g|] eqn:Hgi; [|done].
  cbn [sub mul R_JsNumber]. rewrite (Hg i g Hgi). lra.
Qed.

Lemma updateMatrix_same (rate : R) (w grads : list (list R)) :
  (forall i j g, cell grads i j = Some g -> rate * g = 0) ->
  NN.updateMatrix rate w grads = w.
Proof.
  intros Hg. apply imap_same. intros i row _. apply imap_same. intros j x _.
  destruct (cell grads i j) as [g|] eqn:Hgi; [|done].
  cbn [sub mul R_JsNumber]. rewrite (Hg i j g Hgi). lra.
Qed.

Lemma engine_eq e (w1 w2 : list (list R)) (b1 b2 : list R) :
  w1 = NN.weights1 e -> w2 = NN.weights2 e -> b1 = NN.biases1 e -> b2 = NN.biases2 e ->
  {| NN.weights1 := w1; NN.weights2 := w2; NN.biases1 := b1; NN.biases2 := b2;
     NN.learningRate := NN.learningRate e; NN.taskType := NN.taskType e |} = e.
Proof. intros -> -> -> ->. by destruct e. Qed.




Lemma outputGradientsOf_same (l : list R) :
  Forall (fun g => g = 0) (NN.outputGradientsOf l l).
Proof.
  apply Forall_forall. intros g Hg.
  apply elem_of_lookup_imap_1 in Hg as (i & y & -> & Hy).
  unfold NN.targetAt. rewrite Hy. simpl. lra.
Qed.

Lemma hiddenErrorValuesOf_zero e (og : list R) :
  Forall (fun g => g = 0) og ->
  Forall (fun g => g = 0) (NN.hiddenErrorValuesOf e og).
Proof.
  intros Hog. unfold NN.hiddenErrorValuesOf. apply Forall_fmap, Forall_forall.
  intros hIdx _. simpl.
  induction (seq 0 (length (NN.biases2 e))) as [|o os IH] using rev_ind; [done|].
  rewrite foldl_app. simpl. rewrite IH.
  destruct (cell (NN.weights2 e) hIdx o) as [w|]; [|done].
  destruct (og !! o) as [g|] eqn:Hg; [|done].
  rewrite (Forall_lookup_1 _ _ _ _ Hog Hg). cbn [add mul R_JsNumber]. lra.
Qed.

Lemma hiddenGradientsOf_zero (errors hiddenPre : list R) :
  Forall (fun g => g = 0) errors ->
  Forall (fun g => g = 0) (NN.hiddenGradientsOf errors hiddenPre).
Proof.
  intros Herr. apply Forall_forall. intros g Hg.
  apply elem_of_lookup_imap_1 in Hg as (i & err & -> & Hi).
  rewrite (Forall_lookup_1 _ _ _ _ Herr Hi).
  destruct (hiddenPre !! i); [|done]. cbn [mul R_JsNumber]. lra.
Qed.

Lemma cell_outer_zero (a b : list R) (i j : nat) (g : R) :
  Forall (fun g => g = 0) b -> cell (NN.outer a b) i j = Some g -> g = 0.
Proof.
  intros Hb (row & Hrow & Hg)%cell_Some. unfold NN.outer in Hrow.
  rewrite list_lookup_fmap in Hrow.
  destruct (a !! i) as [x|]; [|done]. injection Hrow as <-.
  rewrite list_lookup_fmap in Hg.
  destruct (b !! j) as [y|] eqn:Hy; [|done]. injection Hg as <-.
  rewrite (Forall_lookup_1 _ _ _ _ Hb Hy). cbn [mul R_JsNumber]. lra.
Qed.

Lemma squaredErrorLoss_acc (l pre : list R) (acc : R) :
  reduce_from (fun sum output i =>
                 (sum + numHalf * Math_pow2 (NN.targetAt (pre ++ l) i - output))%num)
              (length pre) acc l = acc.
Proof.
  revert pre acc. induction l as [|y l IH]; intros pre acc; [done|].
  cbn [reduce_from]. unfold NN.targetAt at 2.
  rewrite lookup_app_r, Nat.sub_diag by lia. cbn [lookup list_lookup default].
  replace (acc + numHalf * Math_pow2 (y - y))%num with acc
    by (cbn [add sub mul Math_pow2 numHalf R_JsNumber]; ring).
  specialize (IH (pre ++ [y]) acc).
  rewrite length_app, Nat.add_1_r, <- app_assoc in IH. exact IH.
Qed.

Lemma squaredErrorLoss_same (l : list R) : NN.squaredErrorLoss l l = 0.
Proof.
  unfold NN.squaredErrorLoss, reduce.
  rewrite (squaredErrorLoss_acc l [] num0).
  cbn [num0 div R_JsNumber]. unfold Rdiv. ring.
Qed.

(** X7.  When the prediction for the input equals the target, a training
    step changes no parameter, and in regression mode it reports the loss
    0. *)
Theorem trainStep_exact_prediction e inputs target :
  NN.predict e inputs = target ->
  (NN.trainStep e inputs target).2 = e
  /\ (NN.taskType e = regression ->
      NN.loss (NN.backward (NN.trainStep e inputs target).1) = 0).
Proof.
  intros Hpred.
  assert (NN.f_outputPost (NN.forward (NN.trainStep e inputs target).1) = target)
    as Hpost by (by destruct (forward_is_predict_values e inputs target) as [-> _]).
  pose proof (outputGradientsOf_same target) as Hog.
  split.
  - cbn [NN.trainStep snd]. cbn [NN.trainStep NN.forward NN.f_outputPost fst] in Hpost.
    rewrite Hpost.
    pose proof (hiddenErrorValuesOf_zero e _ Hog) as Herr.
    pose proof (hiddenGradientsOf_zero _
                  (NN.vectorAdd (NN.matrixMultiply (NN.weights1 e) inputs) (NN.biases1 e))
                  Herr) as Hhg.
    apply (engine_eq e).
    + apply updateMatrix_same. intros i j g Hg.
      rewrite (cell_outer_zero _ _ _ _ _ Hhg Hg). lra.
    + apply updateMatrix_same. intros i j g Hg.
      rewrite (cell_outer_zero _ _ _ _ _ Hog Hg). lra.
    + apply updateVector_same. intros i g Hg.
      rewrite (Forall_lookup_1 _ _ _ _ Hhg Hg). lra.
    + apply updateVector_same. intros i g Hg.
      rewrite (Forall_lookup_1 _ _ _ _ Hog Hg). lra.
  - intros Htask. cbn [NN.trainStep NN.backward NN.loss fst].
    cbn [NN.trainStep NN.forward NN.f_outputPost fst] in Hpost.
    rewrite Htask in *. rewrite Hpost. apply squaredErrorLoss_same.
Qed.

Lemma trainStep_exact_prediction_witness :
  let target := NN.predict ScenarioShort.engine [1; 0] in
  (NN.trainStep ScenarioShort.engine [1; 0] target).2 = ScenarioShort.engine
  /\ (NN.taskType ScenarioShort.engine = regression ->
      NN.loss (NN.backward (NN.trainStep ScenarioShort.engine [1; 0] target).1) = 0).
Proof.
  exact (trainStep_exact_prediction ScenarioShort.engine [1; 0] _ eq_refl).
Defined.

End FixedPoints.

Section PlaygroundFacts.
Context {N : Type} `{!JsNumber N}.
Local Open Scope num_scope.
Implicit Types (st : Playground.State N) (e : NN.NeuralNetwork N).

(** *** The window of the charts *)

Lemma length_keepLast {A : Type} (n : nat) (l : list A) :
  length (Playground.keepLast n l) = length l `min` n.
Proof.
  unfold Playground.keepLast. case_decide; [rewrite length_drop|]; lia.
Qed.

Lemma keepLast_app {A : Type} (n : nat) (l suffix : list A) :
  length suffix <= n ->
  Playground.keepLast n (l ++ suffix)
  = Playground.keepLast (n - length suffix) l ++ suffix.
Proof.
  intros Hn. unfold Playground.keepLast. rewrite length_app.
  repeat case_decide; try lia; [|done].
  rewrite drop_app_le by lia. f_equal. f_equal. lia.
Qed.

Lemma keepLast_keepLast_snoc {A : Type} (n : nat) (l : list A) (x : A) :
  0 < n ->
  Playground.keepLast n (Playground.keepLast n l ++ [x])
  = Playground.keepLast n (l ++ [x]).
Proof.
  intros Hn. rewrite !keepLast_app by (simpl; lia). f_equal.
  unfold Playground.keepLast. cbn [length].
  repeat case_decide; try done; try (rewrite length_drop in *; lia).
  rewrite drop_drop, length_drop. f_equal. lia.
Qed.

Lemma fmap_keepLast {A B : Type} (f : A -> B) (n : nat) (l : list A) :
  f <$> Playground.keepLast n l = Playground.keepLast n (f <$> l).
Proof.
  unfold Playground.keepLast. rewrite length_fmap. case_decide; [|done].
  by rewrite fmap_drop.
Qed.

Lemma keepLast_seq (n k : nat) :
  Playground.keepLast n (seq 1 k) = seq (S (k - k `min` n)) (k `min` n).
Proof.
  unfold Playground.keepLast. rewrite length_seq. case_decide.
  - rewrite drop_seq. f_equal; lia.
  - f_equal; lia.
Qed.

End PlaygroundFacts.

Section PlaygroundSteps.
Context {N : Type} `{!JsNumber N}.
Local Open Scope num_scope.
Implicit Types (st : Playground.State N) (e : NN.NeuralNetwork N).

(** One call of [performTrainingStep] on a state with an engine and a
    sample at the current index. *)
Lemma performTrainingStep_run st e data :
  Playground.network st = Some e ->
  Playground.trainingData st !! Playground.currentDataIndex st = Some data ->
  let r := NN.trainStep e (Playground.inputs data) (Playground.targets data) in
  exists st',
    Playground.performTrainingStep st = Some st'
    /\ Playground.network st' = Some r.2
    /\ Playground.currentStep st' = Some r.1
    /\ Playground.stepNumber st' = S (Playground.stepNumber st)
    /\ Playground.lossData st'
       = Playground.keepLast 200
           (Playground.lossData st
            ++ [{| Playground.lp_step := S (Playground.stepNumber st);
                   Playground.lp_loss := NN.loss (NN.backward r.1) |}])
    /\ Playground.trainingData st' = Playground.trainingData st
    /\ Playground.currentDataIndex st'
       = S (Playground.currentDataIndex st) `mod` length (Playground.trainingData st)
    /\ Playground.lossWeightTrajectoryData st'
       = Playground.addTrajectoryPoint
           (Playground.trajectoryPoint (Playground.stepNumber st) r.1)
           (Playground.lossWeightTrajectoryData st)
    /\ Playground.currentTaskType st' = Playground.currentTaskType st.
Proof.
  intros He Hdata. cbn zeta. unfold Playground.performTrainingStep.
  rewrite He. destruct (Playground.trainingData st) as [|d0 ds] eqn:Htd; [done|].
  rewrite Hdata.
  destruct (NN.trainStep e (Playground.inputs data) (Playground.targets data))
    as [step e'] eqn:Hstep.
  eexists. split; [reflexivity|]. cbn [Playground.network Playground.currentStep
    Playground.stepNumber Playground.lossData Playground.trainingData
    Playground.currentDataIndex Playground.lossWeightTrajectoryData
    Playground.currentTaskType fst snd].
  rewrite !Nat.add_1_r. split_and!; try done.
  by destruct (Playground.currentTaskType st).
Qed.

(** X10.  Whatever the state, after a call of [performTrainingStep] that
    trains, the loss chart holds at most 200 points and the trajectory at
    most 100 (given that it held at most 100 before), and the last point
    of the loss chart carries the new step number and the loss of the step
    just taken. *)
Theorem performTrainingStep_window st e data :
  Playground.network st = Some e ->
  Playground.trainingData st !! Playground.currentDataIndex st = Some data ->
  length (Playground.lossWeightTrajectoryData st) <= 100 ->
  exists st' step,
    Playground.performTrainingStep st = Some st'
    /\ Playground.currentStep st' = Some step
    /\ length (Playground.lossData st') <= 200
    /\ length (Playground.lossWeightTrajectoryData st') <= 100
    /\ last (Playground.lossData st')
       = Some {| Playground.lp_step := Playground.stepNumber st';
                 Playground.lp_loss := NN.loss (NN.backward step) |}.
Proof.
  intros He Hdata Htraj.
  destruct (performTrainingStep_run st e data He Hdata)
    as (st' & Hrun & _ & Hstep & Hnum & Hloss & _ & _ & Htr & _).
  exists st', (NN.trainStep e (Playground.inputs data) (Playground.targets data)).1.
  split_and!; try done.
  - rewrite Hloss, length_keepLast. lia.
  - rewrite Htr. unfold Playground.addTrajectoryPoint.
    destruct Playground.trajectoryPoint; [|done]. rewrite length_keepLast. lia.
  - rewrite Hloss, keepLast_app by (simpl; lia). rewrite last_snoc. by rewrite Hnum.
Qed.

(** The state after [n] steps from a state whose step counter and loss
    chart are empty. *)
Lemma performTrainingSteps_run (n : nat) st e :
  Playground.network st = Some e ->
  Playground.trainingData st <> [] ->
  Playground.currentDataIndex st = 0 ->
  Playground.stepNumber st = 0 ->
  Playground.lossData st = [] ->
  exists st',
    Playground.performTrainingSteps n st = Some st'
    /\ is_Some (Playground.network st')
    /\ Playground.trainingData st' = Playground.trainingData st
    /\ Playground.stepNumber st' = n
    /\ Playground.currentDataIndex st' = n `mod` length (Playground.trainingData st)
    /\ Playground.lp_step <$> Playground.lossData st'
       = Playground.keepLast 200 (seq 1 n).
Proof.
  intros He Hne Hidx Hnum Hloss.
  assert (0 < length (Playground.trainingData st)) as Hlen
    by (destruct (Playground.trainingData st); [done | simpl; lia]).
  induction n as [|n IH].
  - exists st. simpl. rewrite Hidx, Hnum, Hloss, Nat.Div0.mod_0_l.
    split_and!; try done.
  - destruct IH as (st1 & Hrun & [e1 He1] & Htd & Hn & Hi & Hl).
    destruct (lookup_lt_is_Some_2 (Playground.trainingData st1)
                (Playground.currentDataIndex st1)) as [data Hdata].
    { rewrite Htd, Hi. by apply Nat.mod_upper_bound, Nat.neq_0_lt_0. }
    destruct (performTrainingStep_run st1 e1 data He1 Hdata)
      as (st2 & Hrun2 & He2 & _ & Hn2 & Hl2 & Htd2 & Hi2 & _).
    exists st2. cbn [Playground.performTrainingSteps]. rewrite Hrun.
    split_and!.
    + done.
    + by eexists.
    + congruence.
    + congruence.
    + rewrite Hi2, Htd, Hi.
      rewrite <- Nat.add_1_r, Nat.Div0.add_mod_idemp_l. by rewrite Nat.add_1_r.
    + rewrite Hl2, fmap_keepLast, fmap_app, Hl. cbn [fmap list_fmap Playground.lp_step].
      rewrite keepLast_keepLast_snoc by lia. rewrite Hn.
      by rewrite <- seq_S.
Qed.

(** X11.  After a reset, [n] steps succeed: no call of
    [performTrainingStep] throws, the step counter is [n], the samples are
    taken in turn (the next one is the sample [n mod trainingData.length]),
    and the loss chart holds the last [min n 200] steps, numbered
    [n - min n 200 + 1 .. n]: once more than 200 steps are taken, its first
    point is no longer the first step. *)
Theorem performTrainingSteps_after_reset (rand : nat -> N) (n : nat) st :
  Playground.trainingData st <> [] ->
  exists st',
    Playground.performTrainingSteps n (Playground.initializeNetwork rand st) = Some st'
    /\ Playground.stepNumber st' = n
    /\ Playground.currentDataIndex st' = n `mod` length (Playground.trainingData st)
    /\ Playground.lp_step <$> Playground.lossData st'
       = seq (S (n - n `min` 200)) (n `min` 200).
Proof.
  intros Hne.
  destruct (performTrainingSteps_run n (Playground.initializeNetwork rand st) _
              eq_refl Hne eq_refl eq_refl eq_refl)
    as (st' & Hrun & _ & _ & Hn & Hi & Hl).
  exists st'. split_and!; try done. by rewrite Hl, keepLast_seq.
Qed.

End PlaygroundSteps.

Section PlaygroundEngine.
Context {N : Type} `{!JsNumber N}.
Local Open Scope num_scope.
Implicit Types (st : Playground.State N) (e : NN.NeuralNetwork N).

Lemma trajectoryPoint_recorded (inputSize hiddenSize outputSize : nat) e
    (inputs target : list N) (x : N) (k : nat) :
  NN.WellFormed inputSize hiddenSize outputSize e ->
  inputs !! 0 = Some x ->
  exists w g,
    cell (NN.weights1 e) 0 0 = Some w
    /\ Playground.trajectoryPoint k (NN.trainStep e inputs target).1
       = Some {| Playground.tp_step := k + 1;
                 Playground.tp_loss :=
                   NN.loss (NN.backward (NN.trainStep e inputs target).1);
                 Playground.weightValue := w;
                 Playground.weightGradient := g |}
    /\ cell (NN.weights1 (NN.trainStep e inputs target).2) 0 0
       = Some (w - NN.learningRate e * g).
Proof.
  intros Hwf Hx.
  pose proof (length_hiddenGradients _ _ _ e Hwf inputs target) as Hhg.
  destruct (cell_is_Some (NN.weights1 e) hiddenSize 0 0) as [w Hw];
    [apply Hwf | destruct Hwf; lia | apply Hwf |].
  destruct (lookup_lt_is_Some_2
              (NN.hiddenGradients (NN.backward (NN.trainStep e inputs target).1)) 0)
    as [g Hg]; [destruct Hwf; lia|].
  pose proof (cell_outer _ _ 0 0 _ _ Hx Hg) as Hcell.
  exists w, (x * g). split_and!; [done| |].
  - unfold Playground.trajectoryPoint.
    change (NN.f_weights1 (NN.forward (NN.trainStep e inputs target).1))
      with (NN.weights1 e).
    change (NN.weights1Gradients (NN.backward (NN.trainStep e inputs target).1))
      with (NN.outer inputs
              (NN.hiddenGradients (NN.backward (NN.trainStep e inputs target).1))).
    by rewrite Hw, Hcell.
  - by apply cell_updateMatrix.
Qed.

(** X12.  The trajectory that the playground records is a path of gradient
    descent on [weights1[0][0]]: of the points that two successive steps
    add, the second holds the weight of the first minus the engine's
    learning rate times the gradient of the first, and the next step
    number. *)
Theorem trajectory_is_descent (inputSize hiddenSize outputSize : nat) st e
    (d1 d2 : Playground.TrainingData N) (x1 x2 : N) :
  Playground.network st = Some e ->
  NN.WellFormed inputSize hiddenSize outputSize e ->
  Playground.trainingData st !! Playground.currentDataIndex st = Some d1 ->
  Playground.trainingData st
    !! (S (Playground.currentDataIndex st) `mod` length (Playground.trainingData st))
  = Some d2 ->
  Playground.inputs d1 !! 0 = Some x1 ->
  Playground.inputs d2 !! 0 = Some x2 ->
  exists st1 st2 prev p q,
    Playground.performTrainingStep st = Some st1
    /\ Playground.performTrainingStep st1 = Some st2
    /\ Playground.lossWeightTrajectoryData st2 = prev ++ [p; q]
    /\ Playground.weightValue q
       = Playground.weightValue p - NN.learningRate e * Playground.weightGradient p
    /\ Playground.tp_step q = S (Playground.tp_step p).
Proof.
  intros He Hwf Hd1 Hd2 Hx1 Hx2.
  destruct (performTrainingStep_run st e d1 He Hd1)
    as (st1 & Hrun1 & He1 & _ & Hn1 & _ & Htd1 & Hi1 & Htr1 & _).
  rewrite <- Hi1, <- Htd1 in Hd2.
  destruct (performTrainingStep_run st1 _ d2 He1 Hd2)
    as (st2 & Hrun2 & _ & _ & _ & _ & _ & _ & Htr2 & _).
  destruct (trajectoryPoint_recorded _ _ _ e (Playground.inputs d1)
              (Playground.targets d1) x1 (Playground.stepNumber st) Hwf Hx1)
    as (w & g & Hw & Hp & Hw').
  pose proof (trainStep_wellFormed _ _ _ e (Playground.inputs d1)
                (Playground.targets d1) Hwf) as Hwf1.
  destruct (trajectoryPoint_recorded _ _ _ _ (Playground.inputs d2)
              (Playground.targets d2) x2 (Playground.stepNumber st1) Hwf1 Hx2)
    as (w2 & g2 & Hw2 & Hq & _).
  rewrite Hw' in Hw2. injection Hw2 as <-.
  rewrite Hp in Htr1. rewrite Hq, Htr1 in Htr2.
  cbn [Playground.addTrajectoryPoint] in Htr2.
  rewrite keepLast_keepLast_snoc, <- app_assoc, keepLast_app in Htr2
    by (simpl; lia).
  eexists st1, st2, _, _, _. split_and!; [done | done | exact Htr2 | |].
  - cbn [Playground.weightValue Playground.weightGradient].
    by destruct (performTrainingStep_run st e d1 He Hd1) as (? & _).
  - cbn [Playground.tp_step]. lia.
Qed.

(** X9.  For an engine of the sizes that the component holds and a current
    sample with one entry per input, the hidden activations that
    [getCurrentNetworkState] recomputes from [getWeights] for the diagram
    are, number for number, the ones that [predict] computes inside the
    engine; the outputs are the prediction, the weights are the engine's. *)
Theorem getCurrentNetworkState_hidden (outputSize : nat) st e
    (data : Playground.TrainingData N) :
  Playground.network st = Some e ->
  NN.WellFormed (Playground.inputSizeOf (Playground.datasetName st))
                (Playground.hiddenSize st) outputSize e ->
  Playground.trainingData st !! Playground.currentDataIndex st = Some data ->
  length (Playground.inputs data) = Playground.inputSizeOf (Playground.datasetName st) ->
  let shown := Playground.getCurrentNetworkState st in
  Playground.ns_inputs shown = Playground.inputs data
  /\ Playground.ns_hiddenValues shown = NN.predict_hiddenPost e (Playground.inputs data)
  /\ Playground.ns_outputs shown = NN.predict e (Playground.inputs data)
  /\ Playground.ns_weights shown = NN.getWeights e
  /\ Playground.ns_taskType shown = NN.taskType e.
Proof.
  intros He Hwf Hdata Hlen. cbn zeta. unfold Playground.getCurrentNetworkState.
  rewrite He. destruct (Playground.trainingData st) as [|d0 ds] eqn:Htd; [done|].
  rewrite Hdata.
  cbn [Playground.ns_inputs Playground.ns_hiddenValues Playground.ns_outputs
       Playground.ns_weights Playground.ns_taskType].
  split_and!; try done.
  unfold NN.predict_hiddenPost, NN.predict_hiddenPre. f_equal.
  set (inputSize := Playground.inputSizeOf (Playground.datasetName st)) in *.
  set (hiddenSize := Playground.hiddenSize st) in *.
  destruct Hwf as [Hi Hh _ Hw1 Hr1 _ _ Hb1 _].
  destruct (NN.weights1 e) as [|row0 rows] eqn:Hrows; [simpl in Hw1; lia|].
  assert (length row0 = hiddenSize) as Hrow0 by (by inversion Hr1).
  unfold NN.matrixMultiply. case_decide as Hmis; [simpl in *; lia|].
  rewrite Hrow0. cbn [NN.getWeights NN.w_biases1 NN.w_weights1]. rewrite Hrows.
  apply list_eq. intros j. unfold NN.vectorAdd.
  rewrite list_lookup_imap, !list_lookup_fmap.
  destruct (decide (j < hiddenSize)) as [Hj|Hj].
  - rewrite lookup_seq_lt by done. simpl.
    destruct (lookup_lt_is_Some_2 (NN.biases1 e) j ltac:(lia)) as [b Hb].
    rewrite Hb. unfold NN.column. simpl in Hw1. by rewrite Hw1.
  - by rewrite lookup_seq_ge by lia.
Qed.

End PlaygroundEngine.

Section DatasetFacts.
Local Open Scope R_scope.

Lemma sample_wellShaped_class (x y t : R) (l : option R) :
  t = 0 \/ t = 1 -> Datasets.WellShaped 2 1 classification (Datasets.sample [x; y] [t] l).
Proof. intros Ht. split_and!; [done..|]. intros _. by constructor. Qed.

(** X13.  Whichever dataset is selected, after [changeDataset] and the
    [initializeNetwork] that follows it the playground holds a well-formed
    engine whose input size is the number of inputs of every sample (1 for
    the regression data, 2 otherwise) and whose one output matches the one
    target of every sample; the data are not empty, and in classification
    mode every target is 0 or 1. *)
Theorem changeDataset_ready (randData randNet : nat -> R) (name : Playground.DatasetName)
    (st : Playground.State R) :
  let st' := Playground.initializeNetwork randNet (Datasets.changeDataset randData name st) in
  exists e,
    Playground.network st' = Some e
    /\ NN.WellFormed (Playground.inputSizeOf name) (Playground.hiddenSize st') 1 e
    /\ NN.taskType e = Playground.currentTaskType st'
    /\ Playground.trainingData st' <> []
    /\ Forall (Datasets.WellShaped (Playground.inputSizeOf name) 1 (Playground.currentTaskType st'))
              (Playground.trainingData st').
Proof.
  cbn zeta. eexists. split; [reflexivity|].
  destruct name; cbn [Datasets.changeDataset Playground.initializeNetwork
    Playground.hiddenSize Playground.currentTaskType Playground.trainingData
    Playground.datasetName Playground.learningRate Playground.inputSizeOf].
  all: split; [apply newNeuralNetwork_shape; lia|].
  all: split; [reflexivity|].
  all: split; [discriminate|].
  - repeat (apply Forall_cons; split; [apply sample_wellShaped_class; auto|]).
    constructor.
  - apply Forall_fmap, Forall_forall. intros i _. simpl.
    apply sample_wellShaped_class. destruct (Rlt_dec _ _); auto.
  - apply Forall_fmap, Forall_forall. intros i _. simpl.
    apply sample_wellShaped_class. destruct (Rgt_dec _ _); auto.
  - apply Forall_bind, Forall_forall. intros i _. simpl.
    repeat (apply Forall_cons; split; [apply sample_wellShaped_class; auto|]).
    constructor.
  - apply Forall_bind, Forall_forall. intros i _. simpl.
    repeat (apply Forall_cons; split; [apply sample_wellShaped_class; auto|]).
    constructor.
  - apply Forall_fmap, Forall_forall. intros i _. simpl.
    split_and!; [done..|discriminate].
Qed.

(** X14.  When [Math.random] returns numbers in [0, 1), every sample of the
    regression dataset has its input [x] in [-1, 1) and its target within
    0.25 of the line [1.8 x + 0.5]. *)
Theorem generateLinearRegressionData_near_line (rand : nat -> R) :
  (forall k, 0 <= rand k < 1) ->
  Forall (fun d => exists x y,
            Playground.inputs d = [x] /\ Playground.targets d = [y]
            /\ -1 <= x < 1
            /\ Rabs (y - (18 / 10 * x + 1 / 2)) <= 1 / 4)
         (Datasets.generateLinearRegressionData rand).
Proof.
  intros Hr. apply Forall_fmap, Forall_forall. intros i _.
  unfold compose. cbv beta zeta.
  pose proof (Hr (2 * i)%nat) as H1. pose proof (Hr (2 * i + 1)%nat) as H2.
  set (u := rand (2 * i)%nat) in *. set (v := rand (2 * i + 1)%nat) in *.
  eexists _, _. split_and!; [reflexivity | reflexivity | lra | lra |].
  apply Rabs_le. lra.
Qed.

Lemma generateLinearRegressionData_near_line_witness :
  Forall (fun d => exists x y,
            Playground.inputs d = [x] /\ Playground.targets d = [y]
            /\ -1 <= x < 1
            /\ Rabs (y - (18 / 10 * x + 1 / 2)) <= 1 / 4)
         (Datasets.generateLinearRegressionData (fun _ => 1 / 2)).
Proof.
  apply (generateLinearRegressionData_near_line (fun _ => 1 / 2)). intros _. lra.
Defined.

(** X15.  When [Math.random] returns numbers in [0, 1), every sample of
    the circle dataset lies within the distance 2.5 of the origin, and its
    target is 1 exactly when its squared distance is below 2. *)
Theorem generateCircleData_disc (rand : nat -> R) :
  (forall k, 0 <= rand k < 1) ->
  Forall (fun d => exists x y t,
            Playground.inputs d = [x; y] /\ Playground.targets d = [t]
            /\ Playground.label d = Some t
            /\ x * x + y * y < (5 / 2) ^ 2
            /\ (t = 1 <-> x * x + y * y < 2)
            /\ (t = 0 <-> ~ x * x + y * y < 2))
         (Datasets.generateCircleData rand).
Proof.
  intros Hr. apply Forall_fmap, Forall_forall. intros i _.
  unfold compose. cbv beta zeta.
  pose proof (Hr (2 * i)%nat) as H1.
  set (u := rand (2 * i)%nat) in *. set (a := rand (2 * i + 1)%nat * 2 * PI).
  eexists _, _, _. split_and!; [reflexivity | reflexivity | reflexivity | |..].
  - pose proof (sin2_cos2 a) as Hsc. unfold Rsqr in Hsc.
    replace (u * (5 / 2) * cos a * (u * (5 / 2) * cos a)
             + u * (5 / 2) * sin a * (u * (5 / 2) * sin a))
      with ((u * (5 / 2)) ^ 2 * (sin a * sin a + cos a * cos a)) by ring.
    rewrite Hsc. nra.
  - destruct (Rlt_dec _ _); split; intros; try done; lra.
  - destruct (Rlt_dec _ _); split; intros; try done; lra.
Qed.

Lemma generateCircleData_disc_witness :
  Forall (fun d => exists x y t,
            Playground.inputs d = [x; y] /\ Playground.targets d = [t]
            /\ Playground.label d = Some t
            /\ x * x + y * y < (5 / 2) ^ 2
            /\ (t = 1 <-> x * x + y * y < 2)
            /\ (t = 0 <-> ~ x * x + y * y < 2))
         (Datasets.generateCircleData (fun _ => 1 / 2)).
Proof.
  apply (generateCircleData_disc (fun _ => 1 / 2)). intros _. lra.
Defined.

End DatasetFacts.

Section LandscapeFacts.
Local Open Scope R_scope.
Implicit Types (e network : NN.NeuralNetwork R).

Lemma reduce_from_ext {A B : Type} (f g : B -> A -> nat -> B) (k : nat) (acc : B)
    (l : list A) :
  (forall acc x i, f acc x i = g acc x i) ->
  reduce_from f k acc l = reduce_from g k acc l.
Proof.
  intros Hfg. revert k acc. induction l as [|x l IH]; intros k acc; [done|].
  simpl. by rewrite Hfg, IH.
Qed.

(** The chart's loss is the loss that [trainStep] reports for the same
    prediction and target. *)
Lemma lossOf_trainStep (task : TaskType) (prediction target : list R) :
  LossVsWeightChart.lossOf task prediction target
  = match task with
    | classification => NN.crossEntropyLoss prediction target
    | regression => NN.squaredErrorLoss prediction target
    end.
Proof.
  destruct task; [reflexivity|].
  unfold LossVsWeightChart.lossOf, NN.squaredErrorLoss, reduce. f_equal.
  apply reduce_from_ext. intros acc x i. unfold NN.targetAt.
  cbn [add sub mul Math_pow2 numHalf NaN R_JsNumber]. ring.
Qed.

Lemma setWeights_same_settings e network (w : NN.Weights R) :
  NN.learningRate network = NN.learningRate e ->
  NN.taskType network = NN.taskType e ->
  NN.setWeights network w = NN.setWeights e w.
Proof. intros Hr Ht. unfold NN.setWeights. by rewrite Hr, Ht. Qed.

Lemma landscapeLoop_run (ow : NN.Weights R) (cw : R) (input target : list R)
    (task : TaskType) e network (w : R) (indices : list nat) :
  cell (NN.w_weights1 ow) 0 0 = Some w ->
  NN.learningRate network = NN.learningRate e ->
  NN.taskType network = NN.taskType e ->
  let r := LossVsWeightChart.landscapeLoop ow cw input target task network indices in
  NN.learningRate r.1 = NN.learningRate e
  /\ NN.taskType r.1 = NN.taskType e
  /\ r.2 = (fun i =>
              let testWeight := LossVsWeightChart.testWeightAt cw i in
              {| LossVsWeightChart.weightValue := testWeight;
                 LossVsWeightChart.loss :=
                   LossVsWeightChart.lossOf task
                     (NN.predict
                        (NN.setWeights e (LossVsWeightChart.withTestWeight ow testWeight))
                        input)
                     target |}) <$> indices.
Proof.
  intros Hw. revert network. induction indices as [|i indices IH]; intros network Hr Ht.
  - done.
  - cbn zeta. cbn [LossVsWeightChart.landscapeLoop].
    unfold LossVsWeightChart.landscapeStep. cbv zeta. rewrite Hw.
    set (m := LossVsWeightChart.withTestWeight ow (LossVsWeightChart.testWeightAt cw i)).
    specialize (IH (NN.setWeights network m) Hr Ht). cbn zeta in IH.
    destruct (LossVsWeightChart.landscapeLoop ow cw input target task
                (NN.setWeights network m) indices) as [network' ps].
    destruct IH as (Hr' & Ht' & Hps). cbn [fst snd] in *.
    split_and!; [done | done |].
    rewrite fmap_cons, Hps. by rewrite (setWeights_same_settings e network m Hr Ht).
Qed.

(** X16.  For a well-formed engine, a trajectory that is not empty and a
    task type that is the engine's, the landscape has 50 points whose
    weights start 2 below the last weight of the trajectory and are 0.08
    apart; the loss of each point is the loss that [trainStep] would report
    for the current sample on the engine with [weights1[0][0]] set to that
    weight and every other parameter as it is; and when the computation
    ends the engine holds the parameters it had. *)
Theorem landscapeData_is_training_loss (inputSize hiddenSize outputSize : nat) e
    (data : list (Playground.TrajectoryPoint R)) (currentInput currentTarget : list R) :
  NN.WellFormed inputSize hiddenSize outputSize e ->
  data <> [] ->
  length currentTarget = outputSize ->
  let currentWeight := default 0 (Playground.weightValue <$> last data) in
  let r := LossVsWeightChart.landscapeData (Some e) data (Some currentInput)
             (Some currentTarget) (NN.taskType e) in
  r.2 = Some e
  /\ r.1 = (fun i =>
              let testWeight := currentWeight - 2 + INR i * (8 / 100) in
              let modified :=
                NN.setWeights e
                  (LossVsWeightChart.withTestWeight (NN.getWeights e) testWeight) in
              {| LossVsWeightChart.weightValue := testWeight;
                 LossVsWeightChart.loss :=
                   NN.loss (NN.backward
                              (NN.trainStep modified currentInput currentTarget).1) |})
           <$> seq 0 50.
Proof.
  intros Hwf Hdata _. cbn zeta. unfold LossVsWeightChart.landscapeData.
  destruct data as [|d0 data]; [done|].
  destruct (cell_is_Some (NN.weights1 e) hiddenSize 0 0) as [w Hw];
    [apply Hwf | destruct Hwf; lia | apply Hwf |].
  pose proof (landscapeLoop_run (NN.getWeights e)
                (default 0 (Playground.weightValue <$> last (d0 :: data)))
                currentInput currentTarget (NN.taskType e) e e w (seq 0 50)
                Hw eq_refl eq_refl) as Hloop.
  cbn zeta in Hloop.
  destruct (LossVsWeightChart.landscapeLoop _ _ _ _ _ e (seq 0 50)) as [network ps].
  destruct Hloop as (Hr & Ht & Hps). cbn [fst snd] in *. split.
  - f_equal. unfold NN.setWeights, NN.getWeights. simpl. rewrite Hr, Ht.
    by destruct e.
  - rewrite Hps. apply list_fmap_ext. intros k i _. f_equal.
    + unfold LossVsWeightChart.testWeightAt. field.
    + rewrite lossOf_trainStep.
      replace (LossVsWeightChart.testWeightAt
                 (default 0 (Playground.weightValue <$> last (d0 :: data))) i)
        with (default 0 (Playground.weightValue <$> last (d0 :: data)) - 2
              + INR i * (8 / 100))
        by (unfold LossVsWeightChart.testWeightAt; field).
      unfold NN.predict.
      cbn [NN.trainStep NN.backward NN.loss fst NN.setWeights NN.taskType].
      by destruct (NN.taskType e).
Qed.

Lemma landscapeData_is_training_loss_witness :
  let data := [{| Playground.tp_step := 1%nat; Playground.tp_loss := 1;
                  Playground.weightValue := 1 / 10;
                  Playground.weightGradient := 0 |}] in
  let r := LossVsWeightChart.landscapeData (Some ScenarioC.engine) data
             (Some ScenarioC.inputs) (Some ScenarioC.target) classification in
  r.2 = Some ScenarioC.engine
  /\ r.1 = (fun i =>
              let testWeight := 1 / 10 - 2 + INR i * (8 / 100) in
              let modified :=
                NN.setWeights ScenarioC.engine
                  (LossVsWeightChart.withTestWeight (NN.getWeights ScenarioC.engine)
                     testWeight) in
              {| LossVsWeightChart.weightValue := testWeight;
                 LossVsWeightChart.loss :=
                   NN.loss (NN.backward
                              (NN.trainStep modified ScenarioC.inputs
                                 ScenarioC.target).1) |})
           <$> seq 0 50.
Proof.
  exact (landscapeData_is_training_loss 2 1 1 ScenarioC.engine
           [{| Playground.tp_step := 1%nat; Playground.tp_loss := 1;
               Playground.weightValue := 1 / 10;
               Playground.weightGradient := 0 |}]
           ScenarioC.inputs ScenarioC.target scenarioC_wellFormed
           ltac:(discriminate) eq_refl).
Defined.

End LandscapeFacts.

Section ScatterPlotFacts.
Local Open Scope R_scope.








End ScatterPlotFacts.

(** ** The playground on the XOR data *)

Section PlaygroundWitnesses.
Local Open Scope R_scope.

Lemma getCurrentNetworkState_hidden_witness :
  let shown := Playground.getCurrentNetworkState ScenarioXor.state in
  Playground.ns_inputs shown = [0; 0]
  /\ Playground.ns_hiddenValues shown = NN.predict_hiddenPost ScenarioC.engine [0; 0]
  /\ Playground.ns_outputs shown = NN.predict ScenarioC.engine [0; 0]
  /\ Playground.ns_weights shown = NN.getWeights ScenarioC.engine
  /\ Playground.ns_taskType shown = classification.
Proof.
  exact (getCurrentNetworkState_hidden 1 ScenarioXor.state ScenarioC.engine
           (Datasets.sample [0; 0] [0] (Some 0))
           eq_refl scenarioC_wellFormed eq_refl eq_refl).
Defined.

Lemma performTrainingStep_window_witness :
  exists st' step,
    Playground.performTrainingStep ScenarioXor.state = Some st'
    /\ Playground.currentStep st' = Some step
    /\ (length (Playground.lossData st') <= 200)%nat
    /\ (length (Playground.lossWeightTrajectoryData st') <= 100)%nat
    /\ last (Playground.lossData st')
       = Some {| Playground.lp_step := Playground.stepNumber st';
                 Playground.lp_loss := NN.loss (NN.backward step) |}.
Proof.
  apply (performTrainingStep_window ScenarioXor.state ScenarioC.engine
           (Datasets.sample [0; 0] [0] (Some 0)) eq_refl eq_refl).
  simpl. lia.
Defined.

Lemma performTrainingSteps_after_reset_witness :
  exists st',
    Playground.performTrainingSteps 250
      (Playground.initializeNetwork (fun _ => 1 / 2) ScenarioXor.state) = Some st'
    /\ Playground.stepNumber st' = 250%nat
    /\ Playground.currentDataIndex st' = 2%nat
    /\ Playground.lp_step <$> Playground.lossData st' = seq 51 200.
Proof.
  apply (performTrainingSteps_after_reset (fun _ => 1 / 2) 250 ScenarioXor.state).
  discriminate.
Defined.

Lemma trajectory_is_descent_witness :
  exists st1 st2 prev p q,
    Playground.performTrainingStep ScenarioXor.state = Some st1
    /\ Playground.performTrainingStep st1 = Some st2
    /\ Playground.lossWeightTrajectoryData st2 = prev ++ [p; q]
    /\ Playground.weightValue q
       = Playground.weightValue p - 1 / 10 * Playground.weightGradient p
    /\ Playground.tp_step q = S (Playground.tp_step p).
Proof.
  exact (trajectory_is_descent 2 1 1 ScenarioXor.state ScenarioC.engine
           (Datasets.sample [0; 0] [0] (Some 0)) (Datasets.sample [0; 1] [1] (Some 1))
           0 0 eq_refl scenarioC_wellFormed eq_refl eq_refl eq_refl eq_refl).
Defined.


End PlaygroundWitnesses.

(** ** Derivatives *)

Section Calculus.
Local Open Scope R_scope.

Lemma D_eq (f : R -> R) (x l l' : R) :
  derivable_pt_lim f x l -> l = l' -> derivable_pt_lim f x l'.
Proof. by intros Hf <-. Qed.

Lemma D_const (c x : R) : derivable_pt_lim (fun _ => c) x 0.
Proof. apply (derivable_pt_lim_const c x). Qed.

Lemma D_id (x : R) : derivable_pt_lim (fun p => p) x 1.
Proof. apply (derivable_pt_lim_id x). Qed.

Lemma D_plus (f g : R -> R) (x l1 l2 : R) :
  derivable_pt_lim f x l1 -> derivable_pt_lim g x l2 ->
  derivable_pt_lim (fun p => f p + g p) x (l1 + l2).
Proof. apply derivable_pt_lim_plus. Qed.

Lemma D_mult (f g : R -> R) (x l1 l2 : R) :
  derivable_pt_lim f x l1 -> derivable_pt_lim g x l2 ->
  derivable_pt_lim (fun p => f p * g p) x (l1 * g x + f x * l2).
Proof. apply derivable_pt_lim_mult. Qed.

Lemma D_comp (f g : R -> R) (x l1 l2 : R) :
  derivable_pt_lim f x l1 -> derivable_pt_lim g (f x) l2 ->
  derivable_pt_lim (fun p => g (f p)) x (l2 * l1).
Proof. apply derivable_pt_lim_comp. Qed.

Lemma D_div_const (f : R -> R) (x l c : R) :
  derivable_pt_lim f x l -> derivable_pt_lim (fun p => f p / c) x (l / c).
Proof.
  intros Hf. unfold Rdiv.
  eapply D_eq; [apply (D_mult f (fun _ => / c) x l 0 Hf (D_const _ _))|]. ring.
Qed.

Lemma D_sum_upto (n : nat) (F : nat -> R -> R) (F' : nat -> R) (x : R) :
  (forall o, (o < n)%nat -> derivable_pt_lim (F o) x (F' o)) ->
  derivable_pt_lim (fun p => Spec.sum_upto n (fun o => F o p)) x (Spec.sum_upto n F').
Proof.
  induction n as [|n IH]; intros HF.
  - exact (D_const 0 x).
  - cbn [Spec.sum_upto]. apply (D_plus (fun p => Spec.sum_upto n (fun o => F o p)) (F n)).
    + apply IH. intros o Ho. apply HF. lia.
    + apply HF. lia.
Qed.

Lemma sum_upto_zero (n : nat) (f : nat -> R) :
  (forall i, (i < n)%nat -> f i = 0) -> Spec.sum_upto n f = 0.
Proof.
  induction n as [|n IH]; intros Hf; [done|].
  cbn [Spec.sum_upto]. rewrite IH by (intros; apply Hf; lia).
  rewrite Hf by lia. cbn [add R_JsNumber]. lra.
Qed.

(** The sum of a function that vanishes off the index [j]. *)
Lemma sum_upto_single (n j : nat) (f : nat -> R) :
  (j < n)%nat -> (forall i, (i < n)%nat -> i <> j -> f i = 0) ->
  Spec.sum_upto n f = f j.
Proof.
  induction n as [|n IH]; intros Hj Hf; [lia|].
  cbn [Spec.sum_upto]. destruct (decide (j = n)) as [->|Hne].
  - rewrite sum_upto_zero by (intros; apply Hf; lia). cbn [add R_JsNumber]. lra.
  - rewrite IH by (try lia; intros; apply Hf; lia).
    rewrite (Hf n) by lia. cbn [add R_JsNumber]. lra.
Qed.

Lemma sigmoid_spec (z : R) : NN.sigmoid z = Spec.sigmoid z.
Proof. reflexivity. Qed.

(** [sigmoid] stays between two bounds near a point where it lies
    strictly between them. *)
Lemma sigmoid_near (z0 lo hi : R) :
  lo < Spec.sigmoid z0 < hi ->
  exists delta, 0 < delta
    /\ forall z, z0 - delta < z < z0 + delta -> lo < Spec.sigmoid z < hi.
Proof.
  intros Hz0.
  assert (continuity_pt Spec.sigmoid z0) as Hcont.
  { apply derivable_continuous_pt. eexists. apply (sigmoid_derivable z0). }
  set (eps := Rmin (Spec.sigmoid z0 - lo) (hi - Spec.sigmoid z0)).
  assert (0 < eps) as Heps by (apply Rmin_glb_lt; lra).
  destruct (Hcont eps Heps) as (alp & Halp & Hnear).
  exists alp. split; [lra|]. intros z Hz.
  destruct (Req_dec z z0) as [->|Hne]; [done|].
  specialize (Hnear z). simpl in Hnear. unfold R_dist, D_x, no_cond in Hnear.
  assert (Rabs (Spec.sigmoid z - Spec.sigmoid z0) < eps) as Habs.
  { apply Hnear. split; [split; [done | congruence]|]. apply Rabs_def1; lra. }
  apply Rabs_def2 in Habs.
  pose proof (Rmin_l (Spec.sigmoid z0 - lo) (hi - Spec.sigmoid z0)).
  pose proof (Rmin_r (Spec.sigmoid z0 - lo) (hi - Spec.sigmoid z0)).
  fold eps in H, H0. lra.
Qed.

Lemma clamp_inside (y : R) : Spec.epsilon <= y <= 1 - Spec.epsilon -> Spec.clamp y = y.
Proof. intros Hy. unfold Spec.clamp. repeat (destruct (Rlt_dec _ _)); lra. Qed.

(** The derivative of the loss term of one output in its pre-activation
    is the output minus the target, where the output is not clamped. *)
Lemma lossTerm_derivable (task : TaskType) (t z0 : R) :
  (task = classification ->
   Spec.epsilon < Spec.sigmoid z0 < 1 - Spec.epsilon) ->
  derivable_pt_lim (Perturbed.lossTerm task t) z0 (Perturbed.activation task z0 - t).
Proof.
  intros Hin. destruct task; unfold Perturbed.lossTerm, Perturbed.activation.
  - specialize (Hin eq_refl). pose proof epsilon_bounds as Heps.
    destruct (sigmoid_near z0 _ _ Hin) as (delta & Hdelta & Hnear).
    pose proof (sigmoid_derivable z0) as Hs. rewrite !sigmoid_spec in Hs.
    set (s := Spec.sigmoid z0) in *.
    apply (derivable_pt_lim_locally_ext
             (fun z => - (t * ln (Spec.sigmoid z) + (1 - t) * ln (1 - Spec.sigmoid z)))
             _ z0 (z0 - delta) (z0 + delta)); [lra| |].
    + intros z Hz. specialize (Hnear z Hz).
      by rewrite !clamp_inside by lra.
    + assert (derivable_pt_lim (fun z => ln (Spec.sigmoid z)) z0 (/ s * (s * (1 - s))))
        as Hln1.
      { apply (D_comp Spec.sigmoid ln); [exact Hs|]. apply derivable_pt_lim_ln.
        fold s. lra. }
      assert (derivable_pt_lim (fun z => 1 - Spec.sigmoid z) z0 (0 - s * (1 - s)))
        as Hc.
      { apply (derivable_pt_lim_minus (fun _ => 1) Spec.sigmoid);
          [apply D_const | exact Hs]. }
      assert (derivable_pt_lim (fun z => ln (1 - Spec.sigmoid z)) z0
                (/ (1 - s) * (0 - s * (1 - s)))) as Hln2.
      { apply (D_comp (fun z => 1 - Spec.sigmoid z) ln); [exact Hc|].
        apply derivable_pt_lim_ln. fold s. lra. }
      eapply D_eq.
      * apply (derivable_pt_lim_opp
                 (fun z => t * ln (Spec.sigmoid z) + (1 - t) * ln (1 - Spec.sigmoid z))).
        apply D_plus.
        -- apply (D_mult (fun _ => t) _ z0 0 _ (D_const _ _) Hln1).
        -- apply (D_mult (fun _ => 1 - t) _ z0 0 _ (D_const _ _) Hln2).
      * fold s. field. lra.
  - eapply derivable_pt_lim_ext with (f := fun z => 1 / 2 * ((t - z) * (t - z))).
    { intros z. ring. }
    assert (derivable_pt_lim (fun z => t - z) z0 (0 - 1)) as Hd
      by (apply (derivable_pt_lim_minus (fun _ => t) (fun z => z));
          [apply D_const | apply D_id]).
    eapply D_eq.
    + apply (D_mult (fun _ => 1 / 2) (fun z => (t - z) * (t - z)) z0 0
               ((0 - 1) * (t - z0) + (t - z0) * (0 - 1)) (D_const _ _)).
      apply (D_mult _ _ z0 _ _ Hd Hd).
    + simpl. field.
Qed.

End Calculus.

(** ** The chain rule through the network *)

Section Chain.
Local Open Scope R_scope.
Variables (inputSize hiddenSize outputSize : nat).
Variables (inputs target : list R).
Variable E : R -> NN.NeuralNetwork R.
Variable p0 : R.
Variables (dW1 dW2 : nat -> nat -> R) (dB1 dB2 : nat -> R).
Hypothesis HW1 : forall i h, (i < inputSize)%nat -> (h < hiddenSize)%nat ->
  derivable_pt_lim (fun p => Spec.entry (NN.weights1 (E p)) i h) p0 (dW1 i h).
Hypothesis HB1 : forall h, (h < hiddenSize)%nat ->
  derivable_pt_lim (fun p => Spec.item (NN.biases1 (E p)) h) p0 (dB1 h).
Hypothesis HW2 : forall h o, (h < hiddenSize)%nat -> (o < outputSize)%nat ->
  derivable_pt_lim (fun p => Spec.entry (NN.weights2 (E p)) h o) p0 (dW2 h o).
Hypothesis HB2 : forall o, (o < outputSize)%nat ->
  derivable_pt_lim (fun p => Spec.item (NN.biases2 (E p)) o) p0 (dB2 o).
Hypothesis Htask : forall p, NN.taskType (E p) = NN.taskType (E p0).

Lemma D_hiddenPre (h : nat) :
  (h < hiddenSize)%nat ->
  derivable_pt_lim (fun p => Spec.hiddenPre inputSize (E p) inputs h) p0
    (Perturbed.dHiddenPre inputSize inputs dW1 dB1 h).
Proof.
  intros Hh. unfold Spec.hiddenPre, Perturbed.dHiddenPre.
  apply D_plus; [|by apply HB1].
  apply (D_sum_upto inputSize
           (fun i p => Spec.entry (NN.weights1 (E p)) i h * Spec.item inputs i)
           (fun i => dW1 i h * Spec.item inputs i)).
  intros i Hi. eapply D_eq.
  - apply (D_mult _ (fun _ => Spec.item inputs i) p0 _ 0 (HW1 i h Hi Hh) (D_const _ _)).
  - ring.
Qed.

Lemma D_hiddenPost (h : nat) :
  (h < hiddenSize)%nat ->
  derivable_pt_lim (fun p => Spec.hiddenPost inputSize (E p) inputs h) p0
    (Perturbed.dHiddenPost inputSize (E p0) inputs dW1 dB1 h).
Proof.
  intros Hh. unfold Spec.hiddenPost, Perturbed.dHiddenPost.
  apply (D_comp (fun p => Spec.hiddenPre inputSize (E p) inputs h) Spec.sigmoid).
  - by apply D_hiddenPre.
  - apply (sigmoid_derivable (Spec.hiddenPre inputSize (E p0) inputs h)).
Qed.

Lemma D_outputPre (o : nat) :
  (o < outputSize)%nat ->
  derivable_pt_lim (fun p => Spec.outputPre inputSize hiddenSize (E p) inputs o) p0
    (Perturbed.dOutputPre inputSize hiddenSize (E p0) inputs dW1 dB1 dW2 dB2 o).
Proof.
  intros Ho. unfold Spec.outputPre, Perturbed.dOutputPre.
  apply D_plus; [|by apply HB2].
  apply (D_sum_upto hiddenSize
           (fun h p => Spec.entry (NN.weights2 (E p)) h o
                       * Spec.hiddenPost inputSize (E p) inputs h)
           (fun h => dW2 h o * Spec.hiddenPost inputSize (E p0) inputs h
                     + Spec.entry (NN.weights2 (E p0)) h o
                       * Perturbed.dHiddenPost inputSize (E p0) inputs dW1 dB1 h)).
  intros h Hh.
  apply (D_mult _ _ p0 _ _ (HW2 h o Hh Ho) (D_hiddenPost h Hh)).
Qed.

Lemma D_meanLoss :
  (NN.taskType (E p0) = classification ->
   forall o, (o < outputSize)%nat ->
     Spec.epsilon < Spec.outputPost inputSize hiddenSize (E p0) inputs o
       < 1 - Spec.epsilon) ->
  derivable_pt_lim
    (fun p => Perturbed.meanLoss inputSize hiddenSize outputSize (E p) inputs target) p0
    (Perturbed.dLoss inputSize hiddenSize outputSize (E p0) inputs target
       dW1 dB1 dW2 dB2).
Proof.
  intros Hunclamped. unfold Perturbed.meanLoss, Perturbed.dLoss.
  apply D_div_const.
  apply (D_sum_upto outputSize
           (fun o p => Perturbed.lossTerm (NN.taskType (E p)) (Spec.item target o)
                         (Spec.outputPre inputSize hiddenSize (E p) inputs o))).
  intros o Ho.
  apply (derivable_pt_lim_ext
           (fun p => Perturbed.lossTerm (NN.taskType (E p0)) (Spec.item target o)
                       (Spec.outputPre inputSize hiddenSize (E p) inputs o))).
  { intros p. by rewrite (Htask p). }
  apply (D_comp (fun p => Spec.outputPre inputSize hiddenSize (E p) inputs o)
                (Perturbed.lossTerm (NN.taskType (E p0)) (Spec.item target o))).
  - by apply D_outputPre.
  - eapply D_eq.
    + apply lossTerm_derivable. intros Hc. specialize (Hunclamped Hc o Ho).
      unfold Spec.outputPost in Hunclamped. by rewrite Hc in Hunclamped.
    + unfold Spec.outputPost, Perturbed.activation. done.
Qed.

End Chain.

(** ** The loss as a function of one parameter *)

Section LossOfParameter.
Local Open Scope R_scope.
Implicit Types (e : NN.NeuralNetwork R) (inputs target : list R).

(** The values that [predict] returns, by the formulas of the forward
    pass. *)
Lemma predict_values (inputSize hiddenSize outputSize : nat) e inputs :
  NN.WellFormed inputSize hiddenSize outputSize e ->
  length inputs = inputSize ->
  NN.predict e inputs
  = Spec.outputPost inputSize hiddenSize e inputs <$> seq 0 outputSize.
Proof.
  intros Hwf Hin. apply list_eq. intros o. rewrite list_lookup_fmap.
  pose proof (length_outputPre _ _ _ e Hwf inputs) as Hlen.
  change (NN.predict e inputs)
    with (match NN.taskType e with
          | classification => NN.sigmoid <$> NN.predict_outputPre e inputs
          | regression => NN.predict_outputPre e inputs
          end).
  destruct (decide (o < outputSize)%nat) as [Ho|Ho].
  - rewrite lookup_seq_lt by done. simpl. unfold Spec.outputPost.
    destruct (NN.taskType e).
    + by rewrite list_lookup_fmap,
        (lookup_outputPre inputSize hiddenSize outputSize e Hwf inputs Hin o Ho).
    + by rewrite (lookup_outputPre inputSize hiddenSize outputSize e Hwf inputs Hin o Ho).
  - rewrite lookup_seq_ge by lia. simpl.
    apply lookup_ge_None_2.
    destruct (NN.taskType e); rewrite ?length_fmap; lia.
Qed.

Lemma total_app (l k : list R) : Spec.total (l ++ k) = Spec.total l + Spec.total k.
Proof. induction l as [|x l IH]; simpl; [lra | rewrite IH; lra]. Qed.

Lemma total_zip_with_seq (g : R -> R -> R) (f : nat -> R) target :
  Spec.total (zip_with g target (f <$> seq 0 (length target)))
  = Spec.sum_upto (length target) (fun o => g (Spec.item target o) (f o)).
Proof.
  induction target as [|t target IH] using rev_ind; [done|].
  rewrite length_app, Nat.add_1_r, seq_S, fmap_app.
  rewrite zip_with_app by (by rewrite length_fmap, length_seq).
  rewrite total_app, IH. cbn [Spec.sum_upto]. simpl.
  unfold Spec.item at 3. rewrite lookup_app_r, Nat.sub_diag by lia. simpl.
  cbn [add R_JsNumber]. f_equal; [|lra].
  apply sum_upto_ext. intros o Ho. unfold Spec.item.
  by rewrite lookup_app_l by lia.
Qed.

Lemma sum_upto_opp (n : nat) (f : nat -> R) :
  Spec.sum_upto n (fun o => - f o) = - Spec.sum_upto n f.
Proof.
  induction n as [|n IH]; simpl; [lra|]. rewrite IH. lra.
Qed.

Lemma sum_upto_scal (n : nat) (f : nat -> R) (c : R) :
  Spec.sum_upto n (fun o => f o * c) = Spec.sum_upto n f * c.
Proof.
  induction n as [|n IH]; simpl; [lra|]. rewrite IH. lra.
Qed.

(** The loss that a step reports is the mean of the loss terms of the
    outputs. *)
Lemma lossAt_meanLoss (inputSize hiddenSize outputSize : nat) e inputs target :
  NN.WellFormed inputSize hiddenSize outputSize e ->
  length inputs = inputSize ->
  length target = outputSize ->
  Perturbed.lossAt e inputs target
  = Perturbed.meanLoss inputSize hiddenSize outputSize e inputs target.
Proof.
  intros Hwf Hin Htg. unfold Perturbed.lossAt, Perturbed.meanLoss.
  rewrite (loss_is_spec_loss inputSize hiddenSize outputSize e Hwf inputs target Htg).
  destruct (forward_is_predict_values e inputs target) as [-> _].
  rewrite (predict_values inputSize hiddenSize outputSize e inputs Hwf Hin).
  subst outputSize. unfold Spec.loss, Spec.mean, Perturbed.lossTerm, Spec.outputPost.
  destruct (NN.taskType e).
  - rewrite total_zip_with_seq, length_zip_with_l_eq
      by (by rewrite length_fmap, length_seq).
    rewrite sum_upto_opp. unfold Rdiv. ring.
  - rewrite total_zip_with_seq, length_zip_with_l_eq
      by (by rewrite length_fmap, length_seq).
    done.
Qed.

End LossOfParameter.

(** ** Back-propagation computes the gradient of the loss *)

Section Perturbations.
Local Open Scope R_scope.
Implicit Types (e : NN.NeuralNetwork R) (inputs target : list R).

Lemma setCell_same (m : list (list R)) (i j : nat) (x : R) :
  cell m i j = Some x -> LossVsWeightChart.setCell m i j x = m.
Proof.
  intros (row & Hrow & Hx)%cell_Some. unfold LossVsWeightChart.setCell.
  rewrite Hrow. rewrite (list_insert_id row j x Hx). by apply list_insert_id.
Qed.

Lemma length_setCell (m : list (list R)) (i j : nat) (v : R) :
  length (LossVsWeightChart.setCell m i j v) = length m.
Proof.
  unfold LossVsWeightChart.setCell. destruct (m !! i); [|done].
  by rewrite length_insert.
Qed.

Lemma setCell_rows (m : list (list R)) (i j n : nat) (v : R) :
  Forall (fun row => length row = n) m ->
  Forall (fun row => length row = n) (LossVsWeightChart.setCell m i j v).
Proof.
  intros Hrows. unfold LossVsWeightChart.setCell.
  destruct (m !! i) as [row|] eqn:Hrow; [|done].
  apply Forall_insert; [done|]. rewrite length_insert.
  exact (Forall_lookup_1 _ _ _ _ Hrows Hrow).
Qed.

Lemma entry_setCell (m : list (list R)) (i j i' j' : nat) (x v : R) :
  cell m i j = Some x ->
  Spec.entry (LossVsWeightChart.setCell m i j v) i' j'
  = if decide (i' = i /\ j' = j) then v else Spec.entry m i' j'.
Proof.
  intros (row & Hrow & Hx)%cell_Some.
  unfold Spec.entry, cell, LossVsWeightChart.setCell. rewrite Hrow.
  destruct (decide (i' = i)) as [->|Hi].
  - rewrite list_lookup_insert_eq by (by eapply lookup_lt_Some). simpl.
    rewrite Hrow. simpl.
    destruct (decide (j' = j)) as [->|Hj].
    + rewrite list_lookup_insert_eq by (by eapply lookup_lt_Some).
      by rewrite decide_True.
    + rewrite list_lookup_insert_ne by done. by rewrite decide_False by tauto.
  - rewrite list_lookup_insert_ne by done. by rewrite decide_False by tauto.
Qed.

Lemma item_insert (v : list R) (i i' : nat) (x : R) :
  (i < length v)%nat ->
  Spec.item (<[i := x]> v) i' = if decide (i' = i) then x else Spec.item v i'.
Proof.
  intros Hi. unfold Spec.item. destruct (decide (i' = i)) as [->|Hne].
  - by rewrite list_lookup_insert_eq.
  - by rewrite list_lookup_insert_ne.
Qed.

Lemma D_selected (P : Prop) `{!Decision P} (c p0 : R) :
  derivable_pt_lim (fun p => if decide P then p else c) p0 (if decide P then 1 else 0).
Proof. destruct (decide P); [apply D_id | apply D_const]. Qed.

Section WellFormed.
Variables (inputSize hiddenSize outputSize : nat).
Variable e : NN.NeuralNetwork R.
Hypothesis Hwf : NN.WellFormed inputSize hiddenSize outputSize e.

Lemma withWeight1_wellFormed (i h : nat) (w : R) :
  NN.WellFormed inputSize hiddenSize outputSize (Perturbed.withWeight1 e i h w).
Proof.
  destruct Hwf. split; simpl; rewrite ?length_setCell; auto using setCell_rows.
Qed.

Lemma withWeight2_wellFormed (h o : nat) (w : R) :
  NN.WellFormed inputSize hiddenSize outputSize (Perturbed.withWeight2 e h o w).
Proof.
  destruct Hwf. split; simpl; rewrite ?length_setCell; auto using setCell_rows.
Qed.

Lemma withBias1_wellFormed (h : nat) (b : R) :
  NN.WellFormed inputSize hiddenSize outputSize (Perturbed.withBias1 e h b).
Proof. destruct Hwf. split; simpl; rewrite ?length_insert; auto. Qed.

Lemma withBias2_wellFormed (o : nat) (b : R) :
  NN.WellFormed inputSize hiddenSize outputSize (Perturbed.withBias2 e o b).
Proof. destruct Hwf. split; simpl; rewrite ?length_insert; auto. Qed.

Lemma weights1_cell (i h : nat) :
  (i < inputSize)%nat -> (h < hiddenSize)%nat ->
  cell (NN.weights1 e) i h = Some (Spec.entry (NN.weights1 e) i h).
Proof.
  intros Hi Hh. destruct Hwf as [_ _ _ Hw1 Hr1 _ _ _ _].
  destruct (cell_is_Some (NN.weights1 e) hiddenSize i h Hr1 ltac:(lia) Hh) as [x Hx].
  unfold Spec.entry. by rewrite Hx.
Qed.

Lemma weights2_cell (h o : nat) :
  (h < hiddenSize)%nat -> (o < outputSize)%nat ->
  cell (NN.weights2 e) h o = Some (Spec.entry (NN.weights2 e) h o).
Proof.
  intros Hh Ho. destruct Hwf as [_ _ _ _ _ Hw2 Hr2 _ _].
  destruct (cell_is_Some (NN.weights2 e) outputSize h o Hr2 ltac:(lia) Ho) as [x Hx].
  unfold Spec.entry. by rewrite Hx.
Qed.

End WellFormed.

Lemma withWeight1_same e (i h : nat) (x : R) :
  cell (NN.weights1 e) i h = Some x -> Perturbed.withWeight1 e i h x = e.
Proof.
  intros Hx. unfold Perturbed.withWeight1. rewrite (setCell_same _ _ _ _ Hx).
  by destruct e.
Qed.

Lemma withWeight2_same e (h o : nat) (x : R) :
  cell (NN.weights2 e) h o = Some x -> Perturbed.withWeight2 e h o x = e.
Proof.
  intros Hx. unfold Perturbed.withWeight2. rewrite (setCell_same _ _ _ _ Hx).
  by destruct e.
Qed.

Lemma withBias1_same e (h : nat) :
  (h < length (NN.biases1 e))%nat ->
  Perturbed.withBias1 e h (Spec.item (NN.biases1 e) h) = e.
Proof.
  intros Hh. unfold Perturbed.withBias1.
  rewrite (list_insert_id _ _ _ (lookup_item _ _ Hh)). by destruct e.
Qed.

Lemma withBias2_same e (o : nat) :
  (o < length (NN.biases2 e))%nat ->
  Perturbed.withBias2 e o (Spec.item (NN.biases2 e) o) = e.
Proof.
  intros Ho. unfold Perturbed.withBias2.
  rewrite (list_insert_id _ _ _ (lookup_item _ _ Ho)). by destruct e.
Qed.

End Perturbations.

Ltac unmoved :=
  cbn [Perturbed.withBias1 Perturbed.withBias2 Perturbed.withWeight1
       Perturbed.withWeight2 NN.weights1 NN.weights2 NN.biases1 NN.biases2];
  apply D_const.

Section Gradient.
Local Open Scope R_scope.
Variables (inputSize hiddenSize outputSize : nat).
Variable e : NN.NeuralNetwork R.
Hypothesis Hwf : NN.WellFormed inputSize hiddenSize outputSize e.
Variables inputs target : list R.
Hypothesis Hinputs : length inputs = inputSize.
Hypothesis Htarget : length target = outputSize.
Hypothesis Hunclamped :
  NN.taskType e = classification -> Perturbed.Unclamped (NN.predict e inputs).

Lemma unclamped_outputs :
  NN.taskType e = classification ->
  forall o, (o < outputSize)%nat ->
    Spec.epsilon < Spec.outputPost inputSize hiddenSize e inputs o < 1 - Spec.epsilon.
Proof.
  intros Hc o Ho. specialize (Hunclamped Hc). unfold Perturbed.Unclamped in Hunclamped.
  rewrite (predict_values inputSize hiddenSize outputSize e inputs Hwf Hinputs)
    in Hunclamped.
  apply (Forall_lookup_1 _ _ o _ Hunclamped).
  by rewrite list_lookup_fmap, lookup_seq_lt.
Qed.

(** The derivative of the reported loss along a family of engines that
    passes through [e]. *)
Lemma D_lossAt (E : R -> NN.NeuralNetwork R) (p0 : R)
    (dW1 dW2 : nat -> nat -> R) (dB1 dB2 : nat -> R) :
  E p0 = e ->
  (forall p, NN.WellFormed inputSize hiddenSize outputSize (E p)) ->
  (forall p, NN.taskType (E p) = NN.taskType e) ->
  (forall i h, (i < inputSize)%nat -> (h < hiddenSize)%nat ->
     derivable_pt_lim (fun p => Spec.entry (NN.weights1 (E p)) i h) p0 (dW1 i h)) ->
  (forall h, (h < hiddenSize)%nat ->
     derivable_pt_lim (fun p => Spec.item (NN.biases1 (E p)) h) p0 (dB1 h)) ->
  (forall h o, (h < hiddenSize)%nat -> (o < outputSize)%nat ->
     derivable_pt_lim (fun p => Spec.entry (NN.weights2 (E p)) h o) p0 (dW2 h o)) ->
  (forall o, (o < outputSize)%nat ->
     derivable_pt_lim (fun p => Spec.item (NN.biases2 (E p)) o) p0 (dB2 o)) ->
  derivable_pt_lim (fun p => Perturbed.lossAt (E p) inputs target) p0
    (Perturbed.dLoss inputSize hiddenSize outputSize e inputs target dW1 dB1 dW2 dB2).
Proof.
  intros Hp0 HwfE Htask HW1 HB1 HW2 HB2.
  apply (derivable_pt_lim_ext
           (fun p => Perturbed.meanLoss inputSize hiddenSize outputSize (E p)
                       inputs target)).
  { intros p. symmetry. by apply lossAt_meanLoss. }
  rewrite <- Hp0.
  apply D_meanLoss; try done.
  - intros p. by rewrite !Htask.
  - rewrite Hp0. apply unclamped_outputs.
Qed.

Lemma dHiddenPost_zero (h : nat) :
  Perturbed.dHiddenPost inputSize e inputs (fun _ _ => 0) (fun _ => 0) h = 0.
Proof.
  unfold Perturbed.dHiddenPost, Perturbed.dHiddenPre.
  rewrite sum_upto_zero by (intros; lra). lra.
Qed.

(** The derivative of [outputPre] when only the output layer moves, and
    when only the hidden layer moves. *)
Lemma dOutputPre_output_layer (dW2 : nat -> nat -> R) (dB2 : nat -> R) (o : nat) :
  Perturbed.dOutputPre inputSize hiddenSize e inputs (fun _ _ => 0) (fun _ => 0) dW2 dB2 o
  = Spec.sum_upto hiddenSize (fun h => dW2 h o * Spec.hiddenPost inputSize e inputs h)
    + dB2 o.
Proof.
  unfold Perturbed.dOutputPre. f_equal. apply sum_upto_ext. intros h _.
  rewrite dHiddenPost_zero. lra.
Qed.

Lemma dOutputPre_hidden_unit (dW1 : nat -> nat -> R) (dB1 : nat -> R) (h0 o : nat) :
  (h0 < hiddenSize)%nat ->
  (forall h, h <> h0 -> Perturbed.dHiddenPre inputSize inputs dW1 dB1 h = 0) ->
  Perturbed.dOutputPre inputSize hiddenSize e inputs dW1 dB1 (fun _ _ => 0) (fun _ => 0) o
  = Spec.entry (NN.weights2 e) h0 o
    * Perturbed.dHiddenPost inputSize e inputs dW1 dB1 h0.
Proof.
  intros Hh0 Hoff. unfold Perturbed.dOutputPre.
  rewrite (sum_upto_single hiddenSize h0) by
    (try done; intros h _ Hne; unfold Perturbed.dHiddenPost;
     rewrite (Hoff h Hne); lra).
  lra.
Qed.

Lemma item_Some (v : list R) (i : nat) (x : R) : v !! i = Some x -> Spec.item v i = x.
Proof. intros Hx. unfold Spec.item. by rewrite Hx. Qed.

Lemma entry_Some (m : list (list R)) (i j : nat) (x : R) :
  cell m i j = Some x -> Spec.entry m i j = x.
Proof. intros Hx. unfold Spec.entry. by rewrite Hx. Qed.

(** The values of the record, by the formulas of the forward pass. *)
Lemma outputGradients_item (o : nat) :
  (o < outputSize)%nat ->
  Spec.item (NN.outputGradients (NN.backward (NN.trainStep e inputs target).1)) o
  = Spec.outputPost inputSize hiddenSize e inputs o - Spec.item target o.
Proof.
  intros Ho. cbn [NN.trainStep NN.backward NN.outputGradients fst].
  change (match NN.taskType e with
          | classification => _
          | regression => _
          end) with (NN.predict e inputs).
  rewrite (predict_values inputSize hiddenSize outputSize e inputs Hwf Hinputs).
  unfold Spec.item at 1, NN.outputGradientsOf.
  rewrite list_lookup_imap, list_lookup_fmap, lookup_seq_lt by done. simpl.
  unfold NN.targetAt. by rewrite (lookup_item target o) by lia.
Qed.

Lemma hiddenPost_item (h : nat) :
  (h < hiddenSize)%nat ->
  Spec.item (NN.f_hiddenPost (NN.forward (NN.trainStep e inputs target).1)) h
  = Spec.hiddenPost inputSize e inputs h.
Proof.
  intros Hh. change (NN.f_hiddenPost (NN.forward (NN.trainStep e inputs target).1))
    with (NN.predict_hiddenPost e inputs).
  unfold Spec.item.
  by rewrite (lookup_hiddenPost inputSize hiddenSize outputSize e Hwf inputs Hinputs h Hh).
Qed.

Lemma hiddenPre_item (h : nat) :
  (h < hiddenSize)%nat ->
  Spec.item (NN.f_hiddenPre (NN.forward (NN.trainStep e inputs target).1)) h
  = Spec.hiddenPre inputSize e inputs h.
Proof.
  intros Hh. change (NN.f_hiddenPre (NN.forward (NN.trainStep e inputs target).1))
    with (NN.predict_hiddenPre e inputs).
  unfold Spec.item.
  by rewrite (lookup_hiddenPre inputSize hiddenSize outputSize e Hwf inputs Hinputs h Hh).
Qed.

Lemma hiddenGradients_item (h : nat) :
  (h < hiddenSize)%nat ->
  Spec.item (NN.hiddenGradients (NN.backward (NN.trainStep e inputs target).1)) h
  = Spec.sum_upto outputSize
      (fun o => (Spec.outputPost inputSize hiddenSize e inputs o - Spec.item target o)
                * Spec.entry (NN.weights2 e) h o)
    * (Spec.hiddenPost inputSize e inputs h * (1 - Spec.hiddenPost inputSize e inputs h)).
Proof.
  intros Hh.
  destruct (trainStep_backpropagated inputSize hiddenSize outputSize e inputs target
              Hwf Hinputs) as (Hhg & _).
  cbn zeta in Hhg. rewrite (item_Some _ _ _ (Hhg h Hh)).
  rewrite (hiddenPre_item h Hh). cbn [mul sub num1 R_JsNumber]. f_equal.
  apply sum_upto_ext. intros o Ho. cbn [mul R_JsNumber].
  by rewrite (outputGradients_item o Ho).
Qed.

Lemma D_bias2 (o0 : nat) :
  (o0 < outputSize)%nat ->
  derivable_pt_lim (fun b => Perturbed.lossAt (Perturbed.withBias2 e o0 b) inputs target)
    (Spec.item (NN.biases2 e) o0)
    (Spec.item (NN.biases2Gradients (NN.backward (NN.trainStep e inputs target).1)) o0
     / INR outputSize).
Proof.
  intros Ho0. pose proof Hwf as [_ _ _ _ _ _ _ _ Hb2].
  eapply D_eq.
  - apply (D_lossAt (Perturbed.withBias2 e o0) _
             (fun _ _ => 0) (fun _ _ => 0) (fun _ => 0)
             (fun o => if decide (o = o0) then 1 else 0)).
    + apply withBias2_same. lia.
    + intros p. by apply withBias2_wellFormed.
    + done.
    + intros i h _ _. unmoved.
    + intros h _. unmoved.
    + intros h o _ _. unmoved.
    + intros o _. cbn [Perturbed.withBias2 NN.biases2].
      apply (derivable_pt_lim_ext
               (fun p => if decide (o = o0) then p else Spec.item (NN.biases2 e) o)).
      { intros p. symmetry. apply item_insert. lia. }
      apply D_selected.
  - unfold Perturbed.dLoss. f_equal.
    rewrite (sum_upto_single outputSize o0); [| done |].
    + rewrite dOutputPre_output_layer, decide_True by done.
      rewrite sum_upto_zero by (intros; lra).
      change (NN.biases2Gradients (NN.backward (NN.trainStep e inputs target).1))
        with (NN.outputGradients (NN.backward (NN.trainStep e inputs target).1)).
      rewrite (outputGradients_item o0 Ho0). lra.
    + intros o _ Hne. rewrite dOutputPre_output_layer, decide_False by done.
      rewrite sum_upto_zero by (intros; lra). lra.
Qed.

Lemma D_weight2 (h0 o0 : nat) :
  (h0 < hiddenSize)%nat -> (o0 < outputSize)%nat ->
  derivable_pt_lim
    (fun w => Perturbed.lossAt (Perturbed.withWeight2 e h0 o0 w) inputs target)
    (Spec.entry (NN.weights2 e) h0 o0)
    (Spec.entry (NN.weights2Gradients (NN.backward (NN.trainStep e inputs target).1))
                h0 o0
     / INR outputSize).
Proof.
  intros Hh0 Ho0.
  pose proof (weights2_cell _ _ _ e Hwf h0 o0 Hh0 Ho0) as Hcell.
  eapply D_eq.
  - apply (D_lossAt (Perturbed.withWeight2 e h0 o0) _
             (fun _ _ => 0)
             (fun h o => if decide (h = h0 /\ o = o0) then 1 else 0)
             (fun _ => 0) (fun _ => 0)).
    + by apply withWeight2_same.
    + intros p. by apply withWeight2_wellFormed.
    + done.
    + intros i h _ _. unmoved.
    + intros h _. unmoved.
    + intros h o _ _. cbn [Perturbed.withWeight2 NN.weights2].
      apply (derivable_pt_lim_ext
               (fun p => if decide (h = h0 /\ o = o0) then p
                         else Spec.entry (NN.weights2 e) h o)).
      { intros p. symmetry. by eapply entry_setCell. }
      apply D_selected.
    + intros o _. unmoved.
  - unfold Perturbed.dLoss. f_equal.
    destruct (trainStep_backpropagated inputSize hiddenSize outputSize e inputs target
                Hwf Hinputs) as (_ & Hw2g & _).
    cbn zeta in Hw2g. rewrite (entry_Some _ _ _ _ (Hw2g h0 o0 Hh0 Ho0)).
    cbn [mul R_JsNumber].
    rewrite (hiddenPost_item h0 Hh0), (outputGradients_item o0 Ho0).
    rewrite (sum_upto_single outputSize o0); [| done |].
    + rewrite dOutputPre_output_layer.
      rewrite (sum_upto_single hiddenSize h0); [| done |].
      * rewrite decide_True by done. lra.
      * intros h _ Hne. rewrite decide_False by tauto. lra.
    + intros o _ Hne. rewrite dOutputPre_output_layer.
      rewrite sum_upto_zero; [lra|].
      intros h _. rewrite decide_False by tauto. lra.
Qed.

(** The derivative of the loss when only the pre-activation of the hidden
    unit [h0] moves, at the rate [k]. *)
Lemma dLoss_hidden_unit (dW1 : nat -> nat -> R) (dB1 : nat -> R) (h0 : nat) (k : R) :
  (h0 < hiddenSize)%nat ->
  (forall h, h <> h0 -> Perturbed.dHiddenPre inputSize inputs dW1 dB1 h = 0) ->
  Perturbed.dHiddenPre inputSize inputs dW1 dB1 h0 = k ->
  Perturbed.dLoss inputSize hiddenSize outputSize e inputs target dW1 dB1
    (fun _ _ => 0) (fun _ => 0)
  = k * Spec.item (NN.hiddenGradients (NN.backward (NN.trainStep e inputs target).1)) h0
    / INR outputSize.
Proof.
  intros Hh0 Hoff Hk. unfold Perturbed.dLoss. f_equal.
  rewrite (hiddenGradients_item h0 Hh0).
  rewrite (sum_upto_ext outputSize _
             (fun o => (Spec.outputPost inputSize hiddenSize e inputs o
                        - Spec.item target o) * Spec.entry (NN.weights2 e) h0 o
                       * Perturbed.dHiddenPost inputSize e inputs dW1 dB1 h0)).
  - rewrite sum_upto_scal. unfold Perturbed.dHiddenPost. rewrite Hk. ring.
  - intros o _. rewrite (dOutputPre_hidden_unit dW1 dB1 h0 o Hh0 Hoff).
    cbn [mul R_JsNumber]. ring.
Qed.

Lemma D_bias1 (h0 : nat) :
  (h0 < hiddenSize)%nat ->
  derivable_pt_lim (fun b => Perturbed.lossAt (Perturbed.withBias1 e h0 b) inputs target)
    (Spec.item (NN.biases1 e) h0)
    (Spec.item (NN.biases1Gradients (NN.backward (NN.trainStep e inputs target).1)) h0
     / INR outputSize).
Proof.
  intros Hh0. pose proof Hwf as [_ _ _ _ _ _ _ Hb1 _].
  eapply D_eq.
  - apply (D_lossAt (Perturbed.withBias1 e h0) _
             (fun _ _ => 0) (fun _ _ => 0)
             (fun h => if decide (h = h0) then 1 else 0) (fun _ => 0)).
    + apply withBias1_same. lia.
    + intros p. by apply withBias1_wellFormed.
    + done.
    + intros i h _ _. unmoved.
    + intros h _. cbn [Perturbed.withBias1 NN.biases1].
      apply (derivable_pt_lim_ext
               (fun p => if decide (h = h0) then p else Spec.item (NN.biases1 e) h)).
      { intros p. symmetry. apply item_insert. lia. }
      apply D_selected.
    + intros h o _ _. unmoved.
    + intros o _. unmoved.
  - rewrite (dLoss_hidden_unit _ _ h0 1 Hh0).
    + change (NN.biases1Gradients (NN.backward (NN.trainStep e inputs target).1))
        with (NN.hiddenGradients (NN.backward (NN.trainStep e inputs target).1)).
      lra.
    + intros h Hne. unfold Perturbed.dHiddenPre.
      rewrite sum_upto_zero by (intros; lra). rewrite decide_False by done. lra.
    + unfold Perturbed.dHiddenPre.
      rewrite sum_upto_zero by (intros; lra). rewrite decide_True by done. lra.
Qed.

Lemma D_weight1 (i0 h0 : nat) :
  (i0 < inputSize)%nat -> (h0 < hiddenSize)%nat ->
  derivable_pt_lim
    (fun w => Perturbed.lossAt (Perturbed.withWeight1 e i0 h0 w) inputs target)
    (Spec.entry (NN.weights1 e) i0 h0)
    (Spec.entry (NN.weights1Gradients (NN.backward (NN.trainStep e inputs target).1))
                i0 h0
     / INR outputSize).
Proof.
  intros Hi0 Hh0.
  pose proof (weights1_cell _ _ _ e Hwf i0 h0 Hi0 Hh0) as Hcell.
  eapply D_eq.
  - apply (D_lossAt (Perturbed.withWeight1 e i0 h0) _
             (fun i h => if decide (i = i0 /\ h = h0) then 1 else 0)
             (fun _ _ => 0) (fun _ => 0) (fun _ => 0)).
    + by apply withWeight1_same.
    + intros p. by apply withWeight1_wellFormed.
    + done.
    + intros i h _ _. cbn [Perturbed.withWeight1 NN.weights1].
      apply (derivable_pt_lim_ext
               (fun p => if decide (i = i0 /\ h = h0) then p
                         else Spec.entry (NN.weights1 e) i h)).
      { intros p. symmetry. by eapply entry_setCell. }
      apply D_selected.
    + intros h _. unmoved.
    + intros h o _ _. unmoved.
    + intros o _. unmoved.
  - rewrite (dLoss_hidden_unit _ _ h0 (Spec.item inputs i0) Hh0).
    + destruct (trainStep_backpropagated inputSize hiddenSize outputSize e inputs
                  target Hwf Hinputs) as (_ & _ & Hw1g & _).
      cbn zeta in Hw1g. rewrite (entry_Some _ _ _ _ (Hw1g i0 h0 Hi0 Hh0)).
      cbn [mul R_JsNumber]. done.
    + intros h Hne. unfold Perturbed.dHiddenPre.
      rewrite sum_upto_zero; [lra|].
      intros i _. rewrite decide_False by tauto. lra.
    + unfold Perturbed.dHiddenPre.
      rewrite (sum_upto_single inputSize i0); [| done |].
      * rewrite decide_True by done. lra.
      * intros i _ Hne. rewrite decide_False by tauto. lra.
Qed.

End Gradient.

Section GradientTheorems.
Local Open Scope R_scope.

(** X18.  Back-propagation through the output layer computes the gradient
    of the loss.  For a well-formed engine, an input and a target of the
    right lengths and, in classification mode, outputs that the loss does
    not clamp: the loss that [trainStep] reports, as a function of
    [biases2[o]] alone, has at the current value the derivative
    [biases2Gradients[o] / outputSize], and as a function of
    [weights2[h][o]] alone the derivative
    [weights2Gradients[h][o] / outputSize].  The gradients of the record are
    the partial derivatives of the mean loss times the number of outputs:
    the partial derivatives themselves for an engine with one output. *)
Theorem backprop_output_layer_gradient (inputSize hiddenSize outputSize : nat)
    (e : NN.NeuralNetwork R) (inputs target : list R) :
  NN.WellFormed inputSize hiddenSize outputSize e ->
  length inputs = inputSize ->
  length target = outputSize ->
  (NN.taskType e = classification -> Perturbed.Unclamped (NN.predict e inputs)) ->
  let b := NN.backward (NN.trainStep e inputs target).1 in
  (forall o, (o < outputSize)%nat ->
     derivable_pt_lim
       (fun x => Perturbed.lossAt (Perturbed.withBias2 e o x) inputs target)
       (Spec.item (NN.biases2 e) o)
       (Spec.item (NN.biases2Gradients b) o / INR outputSize))
  /\ (forall h o, (h < hiddenSize)%nat -> (o < outputSize)%nat ->
        derivable_pt_lim
          (fun x => Perturbed.lossAt (Perturbed.withWeight2 e h o x) inputs target)
          (Spec.entry (NN.weights2 e) h o)
          (Spec.entry (NN.weights2Gradients b) h o / INR outputSize)).
Proof.
  intros Hwf Hin Htg Hun. cbn zeta. split.
  - intros o Ho. by apply (D_bias2 inputSize hiddenSize).
  - intros h o Hh Ho. by apply (D_weight2 inputSize hiddenSize).
Qed.

(** X19.  Back-propagation through the hidden layer computes the gradient
    of the loss.  Under the same conditions the loss that [trainStep]
    reports, as a function of [biases1[h]] alone, has at the current value
    the derivative [biases1Gradients[h] / outputSize], and as a function of
    [weights1[i][h]] alone the derivative
    [weights1Gradients[i][h] / outputSize]. *)
Theorem backprop_hidden_layer_gradient (inputSize hiddenSize outputSize : nat)
    (e : NN.NeuralNetwork R) (inputs target : list R) :
  NN.WellFormed inputSize hiddenSize outputSize e ->
  length inputs = inputSize ->
  length target = outputSize ->
  (NN.taskType e = classification -> Perturbed.Unclamped (NN.predict e inputs)) ->
  let b := NN.backward (NN.trainStep e inputs target).1 in
  (forall h, (h < hiddenSize)%nat ->
     derivable_pt_lim
       (fun x => Perturbed.lossAt (Perturbed.withBias1 e h x) inputs target)
       (Spec.item (NN.biases1 e) h)
       (Spec.item (NN.biases1Gradients b) h / INR outputSize))
  /\ (forall i h, (i < inputSize)%nat -> (h < hiddenSize)%nat ->
        derivable_pt_lim
          (fun x => Perturbed.lossAt (Perturbed.withWeight1 e i h x) inputs target)
          (Spec.entry (NN.weights1 e) i h)
          (Spec.entry (NN.weights1Gradients b) i h / INR outputSize)).
Proof.
  intros Hwf Hin Htg Hun. cbn zeta. split.
  - intros h Hh. by apply (D_bias1 inputSize hiddenSize).
  - intros i h Hi Hh. by apply (D_weight1 inputSize hiddenSize).
Qed.

(** An output whose pre-activation lies between -1 and 1 is not clamped. *)
Lemma sigmoid_unclamped (z : R) :
  -1 <= z <= 1 -> Spec.epsilon < Spec.sigmoid z < 1 - Spec.epsilon.
Proof.
  intros Hz. pose proof epsilon_bounds as Heps.
  assert (Spec.epsilon < 1 / 8) as Hsmall.
  { unfold Spec.epsilon. assert (10 ^ 12 = 1000000000000) as -> by (simpl; lra). lra. }
  pose proof exp_le_3 as H3. pose proof (exp_pos (- z)) as Hpos.
  assert (exp (- z) <= 3) as Hup.
  { destruct (Req_dec (- z) 1) as [->|Hne]; [done|].
    left. eapply Rlt_le_trans; [apply exp_increasing|exact H3]. lra. }
  assert (/ 3 <= exp (- z)) as Hlow.
  { assert (exp z <= 3) as Hez.
    { destruct (Req_dec z 1) as [->|Hne]; [done|].
      left. eapply Rlt_le_trans; [apply exp_increasing|exact H3]. lra. }
    rewrite exp_Ropp. pose proof (exp_pos z).
    apply Rinv_le_contravar; lra. }
  unfold Spec.sigmoid.
  assert (/ 4 <= / (1 + exp (- z))) as Hs1 by (apply Rinv_le_contravar; lra).
  assert (/ (1 + exp (- z)) <= / (4 / 3)) as Hs2 by (apply Rinv_le_contravar; lra).
  unfold Rdiv. rewrite Rmult_1_l. lra.
Qed.

Lemma scenarioC_unclamped :
  Perturbed.Unclamped (NN.predict ScenarioC.engine ScenarioC.inputs).
Proof.
  rewrite (predict_values 2 1 1 ScenarioC.engine ScenarioC.inputs
             scenarioC_wellFormed eq_refl).
  repeat constructor.
  - apply sigmoid_unclamped. unfold Spec.outputPre. cbn [Spec.sum_upto].
    pose proof (sigmoid_range (Spec.hiddenPre 2 ScenarioC.engine ScenarioC.inputs 0)) as Ha.
    rewrite sigmoid_spec in Ha. fold (Spec.hiddenPost 2 ScenarioC.engine ScenarioC.inputs 0) in Ha.
    set (a := Spec.hiddenPost 2 ScenarioC.engine ScenarioC.inputs 0) in *.
    unfold Spec.entry, Spec.item. simpl. lra.
  - apply sigmoid_unclamped. unfold Spec.outputPre. cbn [Spec.sum_upto].
    pose proof (sigmoid_range (Spec.hiddenPre 2 ScenarioC.engine ScenarioC.inputs 0)) as Ha.
    rewrite sigmoid_spec in Ha. fold (Spec.hiddenPost 2 ScenarioC.engine ScenarioC.inputs 0) in Ha.
    set (a := Spec.hiddenPost 2 ScenarioC.engine ScenarioC.inputs 0) in *.
    unfold Spec.entry, Spec.item. simpl. lra.
Defined.

Lemma backprop_output_layer_gradient_witness :
  let b := NN.backward (NN.trainStep ScenarioC.engine ScenarioC.inputs ScenarioC.target).1 in
  (forall o, (o < 1)%nat ->
     derivable_pt_lim
       (fun x => Perturbed.lossAt (Perturbed.withBias2 ScenarioC.engine o x)
                   ScenarioC.inputs ScenarioC.target)
       (Spec.item (NN.biases2 ScenarioC.engine) o)
       (Spec.item (NN.biases2Gradients b) o / INR 1))
  /\ (forall h o, (h < 1)%nat -> (o < 1)%nat ->
        derivable_pt_lim
          (fun x => Perturbed.lossAt (Perturbed.withWeight2 ScenarioC.engine h o x)
                      ScenarioC.inputs ScenarioC.target)
          (Spec.entry (NN.weights2 ScenarioC.engine) h o)
          (Spec.entry (NN.weights2Gradients b) h o / INR 1)).
Proof.
  exact (backprop_output_layer_gradient 2 1 1 ScenarioC.engine ScenarioC.inputs
           ScenarioC.target scenarioC_wellFormed eq_refl eq_refl
           (fun _ => scenarioC_unclamped)).
Defined.

Lemma backprop_hidden_layer_gradient_witness :
  let b := NN.backward (NN.trainStep ScenarioC.engine ScenarioC.inputs ScenarioC.target).1 in
  (forall h, (h < 1)%nat ->
     derivable_pt_lim
       (fun x => Perturbed.lossAt (Perturbed.withBias1 ScenarioC.engine h x)
                   ScenarioC.inputs ScenarioC.target)
       (Spec.item (NN.biases1 ScenarioC.engine) h)
       (Spec.item (NN.biases1Gradients b) h / INR 1))
  /\ (forall i h, (i < 2)%nat -> (h < 1)%nat ->
        derivable_pt_lim
          (fun x => Perturbed.lossAt (Perturbed.withWeight1 ScenarioC.engine i h x)
                      ScenarioC.inputs ScenarioC.target)
          (Spec.entry (NN.weights1 ScenarioC.engine) i h)
          (Spec.entry (NN.weights1Gradients b) i h / INR 1)).
Proof.
  exact (backprop_hidden_layer_gradient 2 1 1 ScenarioC.engine ScenarioC.inputs
           ScenarioC.target scenarioC_wellFormed eq_refl eq_refl
           (fun _ => scenarioC_unclamped)).
Defined.

End GradientTheorems.

(** ** The step record in the store *)

(** Membership in the list of a record's arrays: one of the listed
    locations, or a row of one of the listed matrices. *)
Ltac in_arrays :=
  first
    [ apply elem_of_app; left;
      solve [repeat first [by apply elem_of_cons; left | apply elem_of_cons; right]]
    | let x := fresh "x" in
      let Hx := fresh "Hx" in
      intros x Hx; apply elem_of_app; right; rewrite !elem_of_app; tauto ].

Section StepRecords.
Context {N : Type} `{!JsNumber N}.
Implicit Types (s : Store.store N) (l m : Store.loc) (e : Store.NeuralNetwork N).
Implicit Types (r : Store.TrainingStep N).

Lemma numbersAt_agree l s s' : s' !! l = s !! l -> Store.numbersAt l s' = Store.numbersAt l s.
Proof. intros Hl. unfold Store.numbersAt. by rewrite Hl. Qed.

Lemma matrixAt_agree m s s' :
  s' !! m = s !! m -> (forall x, x ∈ Store.rowsOf m s -> s' !! x = s !! x) ->
  Store.matrixAt m s' = Store.matrixAt m s.
Proof.
  intros Hm Hrows. unfold Store.matrixAt, Store.rowsOf, Store.rowsAt in *.
  rewrite Hm. destruct (s !! m) as [[xs|rs]|]; try done. simpl in *. clear Hm.
  induction rs as [|x rs IH]; [done|].
  cbn [mapM]. rewrite (numbersAt_agree x s s') by (apply Hrows; left).
  rewrite IH; [done|]. intros y Hy. apply Hrows. by right.
Qed.

(** A record reads the same in two stores that agree on its arrays. *)
Lemma stepAt_agree r s s' :
  (forall l, l ∈ Store.f_inputs (Store.forward r) :: Record.arrays r s ->
     s' !! l = s !! l) ->
  Store.stepAt r s' = Store.stepAt r s.
Proof.
  intros Hagree. unfold Store.stepAt.
  assert (forall l, l ∈ Record.arrays r s -> Store.numbersAt l s' = Store.numbersAt l s)
    as Hnum by (intros l Hl; apply numbersAt_agree, Hagree; by right).
  assert (forall m, m ∈ Record.arrays r s ->
            (forall x, x ∈ Store.rowsOf m s -> x ∈ Record.arrays r s) ->
            Store.matrixAt m s' = Store.matrixAt m s) as Hmat.
  { intros m Hm Hrows. apply matrixAt_agree; [apply Hagree; by right|].
    intros x Hx. apply Hagree. right. by apply Hrows. }
  rewrite (numbersAt_agree (Store.f_inputs (Store.forward r)) s s')
    by (apply Hagree; left).
  unfold Record.arrays in Hnum, Hmat. cbv zeta in Hnum, Hmat.
  rewrite !Hnum by in_arrays.
  rewrite !Hmat by in_arrays.
  done.
Qed.

Lemma stepAt_bounds r s rv :
  Store.stepAt r s = Some rv ->
  Forall (fun l => l < length s) (Store.f_inputs (Store.forward r) :: Record.arrays r s).
Proof.
  unfold Store.stepAt. intros Hstep.
  repeat match type of Hstep with
    | (_ ≫= _) = Some _ =>
        let H := fresh "Hread" in
        apply bind_Some in Hstep as (? & H & Hstep)
    end.
  repeat match goal with
    | H : Store.numbersAt _ s = Some _ |- _ => apply numbersAt_lt in H
    | H : Store.matrixAt _ s = Some _ |- _ => apply matrixAt_lt in H as [? ?]
    end.
  unfold Record.arrays. cbv zeta.
  apply Forall_cons. split; [done|].
  repeat (apply Forall_app; split); [|done..].
  repeat (apply Forall_cons; split; [done|]). constructor.
Qed.

(** X20.  A step record is a snapshot: a later call of [trainStep] on the
    same engine, with any input and target arrays, leaves every value of
    an earlier record as it was, although it updates the engine's arrays
    in place. *)
Theorem trainStep_record_survives e s (ev : NN.NeuralNetwork N)
    (inputs target : Store.loc) (inputsV targetV : list N) :
  Store.Owned e s ->
  Store.engineAt e s = Some ev ->
  Store.numbersAt inputs s = Some inputsV ->
  Store.numbersAt target s = Some targetV ->
  inputs ∉ Store.reachable (Store.refs e) s ->
  exists r s1 rv,
    Store.trainStep e inputs target s = Some (r, s1)
    /\ Store.stepAt r s1 = Some rv
    /\ forall (inputs2 target2 : Store.loc),
         is_Some (Store.numbersAt inputs2 s1) ->
         is_Some (Store.numbersAt target2 s1) ->
         inputs2 ∉ Store.reachable (Store.refs e) s1 ->
         exists r2 s2,
           Store.trainStep e inputs2 target2 s1 = Some (r2, s2)
           /\ Store.stepAt r s2 = Some rv.
Proof.
  intros [_ Hnd] He Hin Htg Hoff.
  destruct (trainStep_run_full e s ev inputs target inputsV targetV He Hnd Hin Htg Hoff)
    as (r & s1 & Hrun & Hstep & He1 & Hnd1 & Hlen & _ & _ & _ & Hfi & Hfresh & Hreach).
  exists r, s1, (NN.trainStep ev inputsV targetV).1. split_and!; [done..|].
  intros inputs2 target2 [inputsV2 Hin2] [targetV2 Htg2] Hoff2.
  destruct (trainStep_run e s1 _ inputs2 target2 inputsV2 targetV2 He1 Hnd1 Hin2 Htg2 Hoff2)
    as (r2 & s2 & Hrun2 & _ & _ & _ & _ & Hkeep & _).
  exists r2, s2. split; [done|].
  rewrite <- Hstep. apply stepAt_agree.
  pose proof (stepAt_bounds r s1 _ Hstep) as Hbounds.
  pose proof (reachable_lt _ _ _ (proj1 (proj1 (engineAt_Some _ _ _) He))) as Hlt.
  rewrite Forall_forall in Hbounds, Hfresh, Hlt.
  intros l Hl. apply Hkeep; [by apply Hbounds|].
  rewrite Hreach. apply elem_of_cons in Hl as [->|Hl].
  - by rewrite Hfi.
  - intros Hr. specialize (Hfresh l Hl). specialize (Hlt l Hr). lia.
Qed.

(** X21.  The record holds the caller's input array itself, not a copy:
    [forward.inputs] is the array passed to [trainStep], so that what the
    caller later writes into that array shows in the record, while every
    other value of the record stays as it was. *)
Theorem trainStep_record_shares_inputs e s (ev : NN.NeuralNetwork N)
    (inputs target : Store.loc) (inputsV targetV : list N) :
  Store.Owned e s ->
  Store.engineAt e s = Some ev ->
  Store.numbersAt inputs s = Some inputsV ->
  Store.numbersAt target s = Some targetV ->
  inputs ∉ Store.reachable (Store.refs e) s ->
  exists r s1 rv,
    Store.trainStep e inputs target s = Some (r, s1)
    /\ Store.stepAt r s1 = Some rv
    /\ Store.f_inputs (Store.forward r) = inputs
    /\ forall written : list N,
         Store.stepAt r (<[inputs := Store.Numbers written]> s1)
         = Some {| NN.forward := {|
                     NN.f_inputs := written;
                     NN.f_hiddenPre := NN.f_hiddenPre (NN.forward rv);
                     NN.f_hiddenPost := NN.f_hiddenPost (NN.forward rv);
                     NN.f_outputPre := NN.f_outputPre (NN.forward rv);
                     NN.f_outputPost := NN.f_outputPost (NN.forward rv);
                     NN.f_weights1 := NN.f_weights1 (NN.forward rv);
                     NN.f_weights2 := NN.f_weights2 (NN.forward rv);
                     NN.f_biases1 := NN.f_biases1 (NN.forward rv);
                     NN.f_biases2 := NN.f_biases2 (NN.forward rv) |};
                   NN.backward := NN.backward rv;
                   NN.after := NN.after rv |}.
Proof.
  intros [_ Hnd] He Hin Htg Hoff.
  destruct (trainStep_run_full e s ev inputs target inputsV targetV He Hnd Hin Htg Hoff)
    as (r & s1 & Hrun & Hstep & He1 & Hnd1 & Hlen & _ & _ & _ & Hfi & Hfresh & Hreach).
  exists r, s1, (NN.trainStep ev inputsV targetV).1. split_and!; [done..|].
  intros written.
  pose proof (numbersAt_lt _ _ _ Hin) as Hlt.
  rewrite Forall_forall in Hfresh.
  assert (forall l, l ∈ Record.arrays r s1 ->
            <[inputs := Store.Numbers written]> s1 !! l = s1 !! l) as Hagree.
  { intros l Hl. apply list_lookup_insert_ne. specialize (Hfresh l Hl). lia. }
  assert (forall l, l ∈ Record.arrays r s1 ->
            Store.numbersAt l (<[inputs := Store.Numbers written]> s1)
            = Store.numbersAt l s1) as Hnum
    by (intros l Hl; by apply numbersAt_agree, Hagree).
  assert (forall m, m ∈ Record.arrays r s1 ->
            (forall x, x ∈ Store.rowsOf m s1 -> x ∈ Record.arrays r s1) ->
            Store.matrixAt m (<[inputs := Store.Numbers written]> s1)
            = Store.matrixAt m s1) as Hmat.
  { intros m Hm Hrows. apply matrixAt_agree; [by apply Hagree|].
    intros x Hx. by apply Hagree, Hrows. }
  unfold Store.stepAt in *. rewrite Hfi in *.
  rewrite (numbersAt_insert_eq inputs written s1) by lia.
  unfold Record.arrays in Hnum, Hmat. cbv zeta in Hnum, Hmat.
  rewrite !Hnum by in_arrays. rewrite !Hmat by in_arrays.
  repeat match type of Hstep with
    | (_ ≫= _) = Some _ =>
        let H := fresh "Hread" in
        apply bind_Some in Hstep as (? & H & Hstep)
    end.
  repeat match goal with
    | H : Store.numbersAt ?l s1 = Some _ |- context [Store.numbersAt ?l s1] =>
        rewrite H; cbn [mbind option_bind]
    | H : Store.matrixAt ?l s1 = Some _ |- context [Store.matrixAt ?l s1] =>
        rewrite H; cbn [mbind option_bind]
    end.
  apply (inj Some) in Hstep. by rewrite <- Hstep.
Qed.

End StepRecords.

(** ** The engine's arrays are private *)

Section PrivacyFacts.
Context {N : Type} `{!JsNumber N}.
Implicit Types (s : Store.store N) (l m x : Store.loc) (e : Store.NeuralNetwork N).
Implicit Types (w : Client.World N).

Lemma rowsOf_agree l s s' : s' !! l = s !! l -> Store.rowsOf l s' = Store.rowsOf l s.
Proof. intros Hl. unfold Store.rowsOf, Store.rowsAt. by rewrite Hl. Qed.

Lemma rowsOf_numbers l s xs : Store.numbersAt l s = Some xs -> Store.rowsOf l s = [].
Proof.
  unfold Store.numbersAt, Store.rowsOf, Store.rowsAt.
  by destruct (s !! l) as [[?|?]|].
Qed.

Lemma rowsOf_row m s xss x :
  Store.matrixAt m s = Some xss -> x ∈ Store.rowsOf m s -> Store.rowsOf x s = [].
Proof.
  intros (rs & Hrs & Hxss)%matrixAt_Some. rewrite (rowsOf_Some _ _ _ Hrs).
  intros Hx. apply list_elem_of_lookup in Hx as [i Hi].
  destruct (Forall2_lookup_l _ _ _ _ _ Hxss Hi) as (xs & _ & Hxs).
  by eapply rowsOf_numbers.
Qed.

Lemma reachable_agree (ws : Store.Weights) s s' :
  s' !! Store.w_weights1 ws = s !! Store.w_weights1 ws ->
  s' !! Store.w_weights2 ws = s !! Store.w_weights2 ws ->
  Store.reachable ws s' = Store.reachable ws s.
Proof.
  intros H1 H2. unfold Store.reachable.
  by rewrite (rowsOf_agree _ _ _ H1), (rowsOf_agree _ _ _ H2).
Qed.

Lemma owned_prefix e s s' :
  Store.Owned e s -> s `prefix_of` s' ->
  Store.Owned e s'
  /\ Store.reachable (Store.refs e) s' = Store.reachable (Store.refs e) s.
Proof.
  intros [[ev He] Hnd] Hp.
  pose proof (proj1 (proj1 (engineAt_Some _ _ _) He)) as Hw.
  pose proof (reachable_prefix _ _ _ _ Hp Hw) as Hreach.
  split; [|done]. split; [|by rewrite Hreach].
  exists ev. by apply (engineAt_prefix s).
Qed.

Lemma owned_write e s l (o : Store.object N) :
  Store.Owned e s -> l ∉ Store.reachable (Store.refs e) s ->
  Store.Owned e (<[l := o]> s)
  /\ Store.reachable (Store.refs e) (<[l := o]> s) = Store.reachable (Store.refs e) s.
Proof.
  intros [[ev He] Hnd] Hl.
  assert (Store.reachable (Store.refs e) (<[l := o]> s)
          = Store.reachable (Store.refs e) s) as Hreach.
  { apply reachable_agree; apply list_lookup_insert_ne; intros ->; apply Hl;
      unfold Store.reachable; set_solver. }
  split; [|done]. split; [|by rewrite Hreach].
  exists ev. rewrite <- He. apply (engineAt_sameOff [l]); [apply SameOff_insert|].
  intros x Hx ->%list_elem_of_singleton. done.
Qed.

Lemma predict_run e inputs s l s' :
  Store.predict e inputs s = Some (l, s') ->
  l = length s /\ exists xs, s' = s ++ [Store.Numbers xs].
Proof.
  unfold Store.predict, Store.bind, Store.read, Store.alloc.
  destruct (Store.engineAt e s); [|done].
  destruct (Store.numbersAt inputs s); [|done].
  intros [= <- <-]. eauto.
Qed.

Lemma rowsOf_snoc_new s (o : Store.object N) (known : list Store.loc) x :
  Client.Buildable known o -> x ∈ Store.rowsOf (length s) (s ++ [o]) -> x ∈ known.
Proof.
  intros Ho. unfold Store.rowsOf, Store.rowsAt.
  rewrite lookup_app_r, Nat.sub_diag by lia. simpl.
  destruct o as [xs|rs]; simpl; [by intros ?%elem_of_nil|].
  intros Hx. simpl in Ho. rewrite Forall_forall in Ho. by apply Ho.
Qed.

(** The rows of the arrays of a [Weights] object are among its arrays. *)
Lemma reachable_rows (ws : Store.Weights) s (wv : NN.Weights N) l x :
  Store.weightsAt ws s = Some wv ->
  l ∈ Store.reachable ws s -> x ∈ Store.rowsOf l s -> x ∈ Store.reachable ws s.
Proof.
  intros (H1 & H2 & H3 & H4)%weightsAt_Some Hl Hx.
  unfold Store.reachable in *.
  rewrite !elem_of_app, !elem_of_cons in Hl.
  destruct Hl as [[->|[->|[->|[->|Hl]]]]|[Hl|Hl]].
  - set_solver.
  - set_solver.
  - by rewrite (rowsOf_numbers _ _ _ H3) in Hx; apply elem_of_nil in Hx.
  - by rewrite (rowsOf_numbers _ _ _ H4) in Hx; apply elem_of_nil in Hx.
  - by apply elem_of_nil in Hl.
  - by rewrite (rowsOf_row _ _ _ _ H1 Hl) in Hx; apply elem_of_nil in Hx.
  - by rewrite (rowsOf_row _ _ _ _ H2 Hl) in Hx; apply elem_of_nil in Hx.
Qed.

(** The rows of the arrays of a step record are among its arrays. *)
Lemma arrays_rows (r : Store.TrainingStep N) s (rv : NN.TrainingStep N) l x :
  Store.stepAt r s = Some rv ->
  l ∈ Record.arrays r s -> x ∈ Store.rowsOf l s -> x ∈ Record.arrays r s.
Proof.
  unfold Store.stepAt. intros Hstep Hl Hx.
  repeat match type of Hstep with
    | (_ ≫= _) = Some _ =>
        let H := fresh "Hread" in
        apply bind_Some in Hstep as (? & H & Hstep)
    end.
  unfold Record.arrays in *. cbv zeta in *.
  rewrite !elem_of_app, !elem_of_cons in Hl.
  repeat match goal with
    | H : _ \/ _ |- _ => destruct H as [H|H]
    end;
    try (by apply elem_of_nil in Hl);
    subst;
    try match goal with
      | Hn : Store.numbersAt ?a s = Some _, Hr : _ ∈ Store.rowsOf ?a s |- _ =>
          by rewrite (rowsOf_numbers _ _ _ Hn) in Hr; apply elem_of_nil in Hr
      end;
    try match goal with
      | Hm : Store.matrixAt ?a s = Some _, Hrow : ?b ∈ Store.rowsOf ?a s,
        Hr : _ ∈ Store.rowsOf ?b s |- _ =>
          by rewrite (rowsOf_row _ _ _ _ Hm Hrow) in Hr; apply elem_of_nil in Hr
      end;
    apply elem_of_app; right; rewrite !elem_of_app; tauto.
Qed.

End PrivacyFacts.

Section PrivacyInvariant.
Context {N : Type} `{!JsNumber N}.
Implicit Types (s : Store.store N) (l m x : Store.loc) (e : Store.NeuralNetwork N).
Implicit Types (w : Client.World N).

Lemma prefix_lookup_lt s s' l :
  s `prefix_of` s' -> l < length s -> s' !! l = s !! l.
Proof. intros [k ->] Hl. by apply lookup_app_l. Qed.

Lemma owned_reachable_lt e s :
  Store.Owned e s -> Forall (fun l => l < length s) (Store.reachable (Store.refs e) s).
Proof.
  intros [[ev He] _]. apply engineAt_Some in He as (Hw & _). by eapply reachable_lt.
Qed.

(** What is known stays apart from the engine's arrays when the store only
    grows, the engine's arrays stay where they are and the new known arrays
    are new. *)
Lemma private_grow w e' s' (new : list Store.loc) :
  Client.Private w ->
  Store.Owned e' s' ->
  Client.heap w `prefix_of` s' ->
  (forall l, l ∈ Store.reachable (Store.refs e') s' ->
     l ∈ Store.reachable (Store.refs (Client.engine w)) (Client.heap w)
     \/ length (Client.heap w) <= l) ->
  Forall (fun l => length (Client.heap w) <= l < length s'
                   /\ l ∉ Store.reachable (Store.refs e') s') new ->
  (forall l x, l ∈ new -> x ∈ Store.rowsOf l s' -> x ∈ new ++ Client.known w) ->
  Client.Private {| Client.engine := e'; Client.heap := s'; Client.known := new ++ Client.known w |}.
Proof.
  intros (Hown & Hknown & Hclosed) Hown' Hp Hreach Hnew Hrows.
  pose proof (prefix_length _ _ Hp) as Hlen.
  rewrite Forall_forall in Hknown. rewrite Forall_forall in Hnew.
  split_and!; simpl.
  - done.
  - apply Forall_forall. intros l [Hl|Hl]%elem_of_app.
    + destruct (Hnew l Hl) as [? ?]. split; [lia|done].
    + destruct (Hknown l Hl) as [Hlt Hout]. split; [lia|].
      intros [Hin|Hge]%Hreach; [done|lia].
  - intros l x [Hl|Hl]%elem_of_app Hx.
    + by eapply Hrows.
    + destruct (Hknown l Hl) as [Hlt _].
      rewrite (rowsOf_agree l (Client.heap w) s') in Hx
        by by apply prefix_lookup_lt.
      apply elem_of_app. right. by eapply Hclosed.
Qed.


Lemma private_step w w' : Client.Private w -> Client.Call w w' -> Client.Private w'.
Proof.
  intros HP Hcall. pose proof HP as (Hown & Hknown & Hclosed).
  pose proof (owned_reachable_lt _ _ Hown) as Hlt.
  rewrite Forall_forall in Hlt.
  destruct Hcall as [w inputs l s' Hin Hrun
                    |w inputs target r s' Hin Htg [inputsV HinV] [targetV HtgV] Hrun
                    |w weights s' Hrun
                    |w weights e' s' [wv Hwv] Hrun
                    |w rate
                    |w o Ho
                    |w l o Hl Ho].
  - (* predict *)
    apply predict_run in Hrun as (-> & xs & ->).
    destruct (owned_prefix _ _ (Client.heap w ++ [Store.Numbers xs]) Hown) as [Hown' Hsame];
      [by apply prefix_app_r|].
    apply (private_grow w _ _ [length (Client.heap w)] HP Hown');
      [by apply prefix_app_r| | |].
    + intros l. rewrite Hsame. by left.
    + apply Forall_singleton. rewrite length_app. simpl. split; [lia|].
      rewrite Hsame. intros Hl%Hlt. lia.
    + intros l x ->%list_elem_of_singleton Hx.
      apply (rowsOf_snoc_new _ _ (Client.known w)) in Hx; [set_solver|done].
  - (* trainStep *)
    destruct Hown as [[ev He] Hnd].
    rewrite Forall_forall in Hknown.
    destruct (trainStep_run_full _ _ ev inputs target inputsV targetV He Hnd HinV HtgV
                (proj2 (Hknown _ Hin)))
      as (r2 & s2 & Hrun2 & Hstep & He' & Hnd' & Hlen & Hkeep & _ & _ & _ & Hfresh & Hsame).
    rewrite Hrun in Hrun2. injection Hrun2 as <- <-.
    pose proof (stepAt_bounds _ _ _ Hstep) as Hb. apply Forall_cons in Hb as [_ Hb].
    rewrite Forall_forall in Hb. rewrite Forall_forall in Hfresh.
    split_and!; cbn [Client.engine Client.heap Client.known].
    + split; [by eexists|done].
    + apply Forall_forall. intros l [Hl|Hl]%elem_of_app.
      * split; [by apply Hb|]. rewrite Hsame. intros Hl'%Hlt.
        specialize (Hfresh _ Hl). simpl in Hfresh. lia.
      * destruct (Hknown l Hl) as [? ?]. split; [lia|by rewrite Hsame].
    + intros l x [Hl|Hl]%elem_of_app Hx; apply elem_of_app.
      * left. by eapply arrays_rows.
      * right. destruct (Hknown l Hl) as [? ?].
        rewrite (rowsOf_agree l (Client.heap w) s') in Hx by by apply Hkeep.
        by eapply Hclosed.
  - (* getWeights *)
    destruct Hown as [[ev He] Hnd].
    pose proof He as (Hw & _)%engineAt_Some.
    destruct (getWeights_spec _ _ _ Hw) as (w2 & s2 & Hrun2 & Hp & Hwv & Hnew & Hnd2).
    rewrite Hrun in Hrun2. injection Hrun2 as <- <-.
    destruct (owned_prefix (Client.engine w) _ s' (conj (ex_intro _ ev He) Hnd) Hp)
      as [Hown' Hsame].
    apply (private_grow w _ _ (Store.reachable weights s') HP Hown' Hp).
    + intros l. rewrite Hsame. by left.
    + rewrite Forall_forall in Hnew. apply Forall_forall. intros l Hl.
      split; [by apply Hnew|]. rewrite Hsame. intros Hl'%Hlt.
      specialize (Hnew _ Hl). simpl in Hnew. lia.
    + intros l x Hl Hx. apply elem_of_app. left. by eapply reachable_rows.
  - (* setWeights *)
    pose proof (setWeights_owned _ _ _ _ _ _ Hwv Hrun) as Hown'.
    destruct (setWeights_spec (Client.engine w) _ _ _ Hwv)
      as (e2 & s2 & Hrun2 & (Hp & Hwv' & Hnew & Hnd2) & _).
    rewrite Hrun in Hrun2. injection Hrun2 as <- <-.
    apply (private_grow w e' s' [] HP Hown' Hp).
    + rewrite Forall_forall in Hnew. intros l Hl. right.
      specialize (Hnew _ Hl). simpl in Hnew. lia.
    + constructor.
    + by intros l x ?%elem_of_nil.
  - (* setLearningRate *)
    split_and!; simpl; [|done|done].
    destruct Hown as [[ev He] Hnd]. split; [|done].
    apply engineAt_Some in He as (Hw & Hrate & Htask).
    exists {| NN.weights1 := NN.weights1 ev; NN.weights2 := NN.weights2 ev;
              NN.biases1 := NN.biases1 ev; NN.biases2 := NN.biases2 ev;
              NN.learningRate := rate; NN.taskType := NN.taskType ev |}.
    apply engineAt_Some. by split_and!.
  - (* the client builds an array *)
    destruct (owned_prefix _ _ (Client.heap w ++ [o]) Hown) as [Hown' Hsame];
      [by apply prefix_app_r|].
    apply (private_grow w _ _ [length (Client.heap w)] HP Hown');
      [by apply prefix_app_r| | |].
    + intros l. rewrite Hsame. by left.
    + apply Forall_singleton. rewrite length_app. simpl. split; [lia|].
      rewrite Hsame. intros Hl%Hlt. lia.
    + intros l x ->%list_elem_of_singleton Hx.
      apply (rowsOf_snoc_new _ _ (Client.known w)) in Hx; [set_solver|done].
  - (* the client writes one of its arrays *)
    rewrite Forall_forall in Hknown.
    destruct (Hknown l Hl) as [Hllt Hlout].
    destruct (owned_write _ _ l o Hown Hlout) as [Hown' Hsame].
    split_and!; simpl.
    + done.
    + apply Forall_forall. intros l0 Hl0. rewrite length_insert, Hsame. by apply Hknown.
    + intros l0 x Hl0 Hx. destruct (decide (l0 = l)) as [->|Hne].
      * unfold Store.rowsOf, Store.rowsAt in Hx.
        rewrite list_lookup_insert_eq in Hx by done. simpl in Hx.
        destruct o as [xs|rs]; simpl in *; [by apply elem_of_nil in Hx|].
        rewrite Forall_forall in Ho. by apply Ho.
      * rewrite (rowsOf_agree l0 (Client.heap w)) in Hx
          by by apply list_lookup_insert_ne.
        by eapply Hclosed.
Qed.

Lemma private_calls w w' : Client.Private w -> Client.Calls w w' -> Client.Private w'.
Proof. intros HP Hcalls. induction Hcalls; eauto using private_step. Qed.

End PrivacyInvariant.

(** X22 (the class [NeuralNetwork], lines 32-273 of [src/unnamed/part_001]:
    constructor, [predict], [trainStep], [getWeights], [setWeights],
    [setLearningRate]).  The engine's tensors are private to it over a whole
    session.  Start from a freshly constructed engine and let the caller do
    anything the public methods allow, in any order and any number of times:
    predict and train on arrays it holds, read the weights, install weights,
    change the learning rate, build new arrays out of the ones it holds and
    overwrite any array it holds (among them every array a call has returned:
    predictions, the arrays of step records, the tensors of [getWeights]).
    Then the engine's four tensors are still readable and lie in pairwise
    distinct arrays, no array the caller holds is one of them, and so no
    write of the caller to an array it holds changes the engine's
    parameters. *)
Theorem engine_arrays_stay_private {N : Type} `{!JsNumber N}
    (draws1 draws2 : list (list N)) (drawsB1 drawsB2 : list N)
    (rate : N) (task : TaskType) (e : Store.NeuralNetwork N) (s : Store.store N)
    (w : Client.World N) :
  Store.construct draws1 draws2 drawsB1 drawsB2 rate task [] = Some (e, s) ->
  Client.Calls {| Client.engine := e; Client.heap := s; Client.known := [] |} w ->
  Store.Owned (Client.engine w) (Client.heap w)
  /\ (forall l, l ∈ Client.known w ->
        l ∉ Store.reachable (Store.refs (Client.engine w)) (Client.heap w))
  /\ (forall l o, l ∈ Client.known w ->
        Store.engineAt (Client.engine w) (<[l := o]> (Client.heap w))
        = Store.engineAt (Client.engine w) (Client.heap w)).
Proof.
  intros Hnew Hcalls.
  destruct (construct_spec draws1 draws2 drawsB1 drawsB2 rate task [])
    as (e2 & s2 & Hnew2 & _ & _ & Hown).
  rewrite Hnew in Hnew2. injection Hnew2 as <- <-.
  assert (Client.Private {| Client.engine := e; Client.heap := s; Client.known := [] |})
    as HP.
  { split_and!; simpl; [done|constructor|]. by intros l x ?%elem_of_nil. }
  destruct (private_calls _ _ HP Hcalls) as (Hown' & Hknown & _).
  rewrite Forall_forall in Hknown.
  split_and!; [done|by intros l Hl; apply Hknown|].
  intros l o Hl. apply (engineAt_sameOff [l]); [apply SameOff_insert|].
  intros x Hx ->%list_elem_of_singleton. by apply (Hknown _ Hl).
Qed.

Lemma engine_arrays_stay_private_witness :
  exists (e : Store.NeuralNetwork R) (s : Store.store R) (w : Client.World R),
    Store.construct [[1%R]] [[1%R]] [1%R] [1%R] 1%R regression [] = Some (e, s)
    /\ Client.Calls {| Client.engine := e; Client.heap := s; Client.known := [] |} w
    /\ Client.known w = [7; 6]
    /\ Store.Owned (Client.engine w) (Client.heap w)
    /\ (forall l, l ∈ Client.known w ->
          l ∉ Store.reachable (Store.refs (Client.engine w)) (Client.heap w))
    /\ (forall l o, l ∈ Client.known w ->
          Store.engineAt (Client.engine w) (<[l := o]> (Client.heap w))
          = Store.engineAt (Client.engine w) (Client.heap w)).
Proof.
  eexists _, _, _.
  split; [reflexivity|].
  split.
  { eapply Client.calls_then.
    - eapply Client.calls_then; [apply Client.calls_none|].
      apply (Client.client_builds _ (Store.Numbers [1%R])). exact I.
    - eapply (Client.call_predict _ 6); [simpl; by left|reflexivity]. }
  split; [reflexivity|].
  apply (engine_arrays_stay_private [[1%R]] [[1%R]] [1%R] [1%R] 1%R regression _ _ _
           eq_refl).
  eapply Client.calls_then.
  - eapply Client.calls_then; [apply Client.calls_none|].
    apply (Client.client_builds _ (Store.Numbers [1%R])). exact I.
  - eapply (Client.call_predict _ 6); [simpl; by left|reflexivity].
Defined.

Lemma trainStep_record_survives_witness :
  exists r s1 rv,
    Store.trainStep ScenarioC.engineRef ScenarioC.inputsRef ScenarioC.targetRef
      ScenarioC.store = Some (r, s1)
    /\ Store.stepAt r s1 = Some rv
    /\ forall (inputs2 target2 : Store.loc),
         is_Some (Store.numbersAt inputs2 s1) ->
         is_Some (Store.numbersAt target2 s1) ->
         inputs2 ∉ Store.reachable (Store.refs ScenarioC.engineRef) s1 ->
         exists r2 s2,
           Store.trainStep ScenarioC.engineRef inputs2 target2 s1 = Some (r2, s2)
           /\ Store.stepAt r s2 = Some rv.
Proof.
  exact (trainStep_record_survives ScenarioC.engineRef ScenarioC.store
           ScenarioC.engine ScenarioC.inputsRef ScenarioC.targetRef
           ScenarioC.inputs ScenarioC.target
           scenarioC_owned scenarioC_engineAt eq_refl eq_refl scenarioC_inputs_apart).
Defined.

Lemma trainStep_record_shares_inputs_witness :
  exists r s1 rv,
    Store.trainStep ScenarioC.engineRef ScenarioC.inputsRef ScenarioC.targetRef
      ScenarioC.store = Some (r, s1)
    /\ Store.stepAt r s1 = Some rv
    /\ Store.f_inputs (Store.forward r) = ScenarioC.inputsRef
    /\ forall written : list R,
         Store.stepAt r (<[ScenarioC.inputsRef := Store.Numbers written]> s1)
         = Some {| NN.forward := {|
                     NN.f_inputs := written;
                     NN.f_hiddenPre := NN.f_hiddenPre (NN.forward rv);
                     NN.f_hiddenPost := NN.f_hiddenPost (NN.forward rv);
                     NN.f_outputPre := NN.f_outputPre (NN.forward rv);
                     NN.f_outputPost := NN.f_outputPost (NN.forward rv);
                     NN.f_weights1 := NN.f_weights1 (NN.forward rv);
                     NN.f_weights2 := NN.f_weights2 (NN.forward rv);
                     NN.f_biases1 := NN.f_biases1 (NN.forward rv);
                     NN.f_biases2 := NN.f_biases2 (NN.forward rv) |};
                   NN.backward := NN.backward rv;
                   NN.after := NN.after rv |}.
Proof.
  exact (trainStep_record_shares_inputs ScenarioC.engineRef ScenarioC.store
           ScenarioC.engine ScenarioC.inputsRef ScenarioC.targetRef
           ScenarioC.inputs ScenarioC.target
           scenarioC_owned scenarioC_engineAt eq_refl eq_refl scenarioC_inputs_apart).
Defined.
